(** * zenOut: the session clock and the cue scheduler of [src/App.tsx]

    A shallow embedding of the guided breathing session player.  The React
    component [App] is modelled as explicit state passing: the [useState]
    cells, the [useRef] cells, the browser timers created by [setTimeout] and
    [setInterval], and the three audio elements are fields of one [State]
    record; every callback of the source (the interval tick, the click
    handlers, the timer callbacks of the hum cue) is a function on [State];
    and the effects of [useEffect] are run by [commit], which compares the
    dependency values of the previous render with the current ones.

    React and the browser, as assumed here:
    - the state updates of one callback are batched into one render, and an
      updater function runs once per update (a production build);
    - the effects of a render, cleanups before bodies, both in the order of
      declaration, have run before the next click or timer is handled;
    - a timer fires no earlier than it is due; in the deterministic event
      loop [elapseTo] the earliest timer fires first, and of two that are
      due together the one armed first;
    - [play()] starts playback at once; a rejected promise is swallowed by
      the source and changes nothing here;
    - an element that plays keeps playing, its position moving with the
      clock: the lengths of the three assets are not in the source, so
      neither the end of the hum or the chime (where a browser pauses the
      element at its end position) nor the wrap of the looping ambience is
      modelled.  Positions of playing elements are therefore those of media
      of unbounded length.

    Numbers: times and durations are integral milliseconds ([Z]); the
    quotients the source takes on them (progress, elapsed seconds, opacity,
    volume) are exact rationals ([Q]).  JavaScript computes them in binary
    floating point; rounding is not modelled.  [console.log] and the
    fullscreen requests are left out. *)

From Stdlib Require Import ZArith QArith Qround List String Bool Lia Lqa.
Import ListNotations.

Open Scope Z_scope.

(** ** Config *)

Definition INHALE_MS : Z := 4000.
Definition EXHALE_MS : Z := 8000.
Definition CYCLE_MS : Z := INHALE_MS + EXHALE_MS.

Inductive PhaseKey := p1 | p2 | p3 | p4 | p5.
Inductive Illo := eyes | ears | neck.

Record Phase := mkPhase {
  key : PhaseKey;
  name : string;
  description : string;
  illo : option Illo
}.

Definition PHASES : list Phase :=
  [ mkPhase p1 "Resonant Breathing" "Inhale 4s · Exhale 8s. Follow the circle." None;
    mkPhase p2 "Oms (Humming Exhales)"
      "Now hum or 'om' during each exhale. Feel the vibration in your chest and neck." None;
    mkPhase p3 "Ear Massage" "Gently rub and stretch your ears." (Some ears);
    mkPhase p4 "Neck Massage"
      "Gently massage along the side of the neck below the ears." (Some neck);
    mkPhase p5 "Eye Massage"
      "Close your eyes and gently massage them with your fingertips." (Some eyes) ].

(** [PHASES.length] *)
Definition PHASES_length : Z := Z.of_nat (List.length PHASES).

Definition PhaseKey_eqb (a b : PhaseKey) : bool :=
  match a, b with
  | p1, p1 | p2, p2 | p3, p3 | p4, p4 | p5, p5 => true
  | _, _ => false
  end.

(** ** Rational helpers *)

Definition Qltb (x y : Q) : bool := negb (Qle_bool y x).

(** [Math.max] and [Math.min] on the rationals. *)
Definition Qmax (x y : Q) : Q := if Qle_bool x y then y else x.
Definition Qmin (x y : Q) : Q := if Qle_bool x y then x else y.

(** Truncation toward zero, the rounding of the quotient behind JavaScript's
    [%] on numbers. *)
Definition Qtrunc (x : Q) : Z := Z.quot (Qnum x) (Zpos (Qden x)).

(** [x % m]: the remainder has the sign of the dividend. *)
Definition js_rem (x m : Q) : Q := (x - m * inject_Z (Qtrunc (x / m)))%Q.

(** ** BreathPrompt: the breathing sub-state derived from wall-clock time *)

Module BreathPrompt.

Inductive SubState := Inhale | Exhale.

(** [((now - cycleTime) / 1000) % 12] *)
Definition elapsedSeconds (now cycleTime : Z) : Q :=
  js_rem (inject_Z (now - cycleTime) / 1000) 12.

(** [elapsedSeconds < 4] *)
Definition isIn (now cycleTime : Z) : bool :=
  Qltb (elapsedSeconds now cycleTime) 4.

Definition subState (now cycleTime : Z) : SubState :=
  if isIn now cycleTime then Inhale else Exhale.

(** The text of the prompt once a cycle anchor is set. *)
Definition cycleText (now cycleTime : Z) : string :=
  if isIn now cycleTime then "breathe in..." else "breathe out...".

(** The rendered text: [!cycleTime] (no anchor yet, or an anchor equal to
    the number 0) shows the default prompt. *)
Definition text (now : Z) (cycleTime : option Z) : string :=
  match cycleTime with
  | None => "breathe in..."
  | Some ct => if ct =? 0 then "breathe in..." else cycleText now ct
  end.

(** The value of the local variable [opacity] before the clamp. *)
Definition rawOpacity (now cycleTime : Z) : Q :=
  let e := elapsedSeconds now cycleTime in
  if isIn now cycleTime then
    if Qltb 3 e then (1 * (1 - (e - 3) / 1))%Q else 1%Q
  else
    if Qltb 11 e then (1 * (1 - (e - 11) / 1))%Q else 1%Q.

(** [Math.max(0, Math.min(0.6, opacity))] *)
Definition opacity (now cycleTime : Z) : Q :=
  Qmax 0 (Qmin (6 # 10) (rawOpacity now cycleTime)).

End BreathPrompt.

(** ** Audio elements

    An [HTMLAudioElement] as far as the source touches it.  [currentTime] is
    the playback position in milliseconds; [_fadeTimeout] and [_fadeInterval]
    are the two expando properties the hum cue stores its timer ids in. *)

Inductive Handle := Ambience | Om | Chime.
Inductive AudioCall := CallPlay | CallPause.

Record Audio := mkAudio {
  paused : bool;
  currentTime : Z;
  volume : Q;
  muted : bool;
  loop : bool;
  _fadeTimeout : option nat;
  _fadeInterval : option nat
}.

(** [new Audio(url)] *)
Definition new_Audio : Audio := mkAudio true 0 1 false false None None.

Definition set_paused (b : bool) (a : Audio) : Audio :=
  mkAudio b (currentTime a) (volume a) (muted a) (loop a) (_fadeTimeout a) (_fadeInterval a).
Definition set_currentTime (t : Z) (a : Audio) : Audio :=
  mkAudio (paused a) t (volume a) (muted a) (loop a) (_fadeTimeout a) (_fadeInterval a).
Definition set_volume (v : Q) (a : Audio) : Audio :=
  mkAudio (paused a) (currentTime a) v (muted a) (loop a) (_fadeTimeout a) (_fadeInterval a).
Definition set_muted (b : bool) (a : Audio) : Audio :=
  mkAudio (paused a) (currentTime a) (volume a) b (loop a) (_fadeTimeout a) (_fadeInterval a).
Definition set_loop (b : bool) (a : Audio) : Audio :=
  mkAudio (paused a) (currentTime a) (volume a) (muted a) b (_fadeTimeout a) (_fadeInterval a).
Definition set_fadeTimeout (i : option nat) (a : Audio) : Audio :=
  mkAudio (paused a) (currentTime a) (volume a) (muted a) (loop a) i (_fadeInterval a).
Definition set_fadeInterval (i : option nat) (a : Audio) : Audio :=
  mkAudio (paused a) (currentTime a) (volume a) (muted a) (loop a) (_fadeTimeout a) i.

(** [audio.play()]: playback starts; a rejected promise (blocked autoplay) is
    swallowed by the source and is not modelled. *)
Definition play (a : Audio) : Audio := set_paused false a.
(** [audio.pause()] *)
Definition pause (a : Audio) : Audio := set_paused true a.

(** A paused element keeps its position; a playing one moves with the
    clock.  The length of the assets is not part of the source: a playing
    element plays on for ever here, whereas a browser pauses a non-looping
    element at its end position when it has played out, and takes a looping
    one back to position 0. *)
Definition advanceAudio (dt : Z) (a : Audio) : Audio :=
  if paused a then a else set_currentTime (currentTime a + dt) a.

(** An element that is stopped: paused and rewound. *)
Definition stopped (a : option Audio) : Prop :=
  match a with
  | None => True
  | Some x => paused x = true /\ currentTime x = 0
  end.

(** ** Browser timers *)

(** The callbacks the source hands to [setTimeout] and [setInterval].
    [CbFadeStep step] carries the closure variable [step] of the fade
    interval. *)
Inductive Callback :=
| CbTick
| CbStartOmCycle
| CbPlayOm
| CbFadeTimeout
| CbFadeStep (step : Z).

Record Timer := mkTimer {
  tid : nat;
  cb : Callback;
  due : Z;
  period : option Z
}.

Record Browser := mkBrowser {
  now : Z;
  nextTimerId : nat;
  timers : list Timer;
  calls : list (Z * Handle * AudioCall)
}.

(** [setTimeout(cb, delay)] ([per = None]) and [setInterval(cb, delay)]
    ([per = Some delay]): a fresh id, the timer queued behind those armed
    before it. *)
Definition setTimer (c : Callback) (delay : Z) (per : option Z) (b : Browser)
  : nat * Browser :=
  let id := nextTimerId b in
  (id, mkBrowser (now b) (S id)
         (timers b ++ [mkTimer id c (now b + delay) per]) (calls b)).

(** [clearTimeout(id)] / [clearInterval(id)]; [undefined] clears nothing. *)
Definition clearTimer (id : option nat) (b : Browser) : Browser :=
  match id with
  | None => b
  | Some i =>
      mkBrowser (now b) (nextTimerId b)
        (filter (fun t => negb (Nat.eqb (tid t) i)) (timers b)) (calls b)
  end.

Definition logCall (h : Handle) (c : AudioCall) (b : Browser) : Browser :=
  mkBrowser (now b) (nextTimerId b) (timers b) ((now b, h, c) :: calls b).

(** ** The component state *)

(** The [useState] cells of [App]. *)
Record Hooks := mkHooks {
  started : bool;
  phaseIndex : Z;
  phaseDurationMs : Z;
  remaining : Z;
  ambienceOn : bool
}.

(** The [useRef] cells of [App]. *)
Record Refs := mkRefs {
  audioRef : option Audio;
  omAudioRef : option Audio;
  chimeAudioRef : option Audio;
  phaseIndexRef : Z;
  isTransitioningRef : bool
}.

(** The dependency values of the last committed render. *)
Record Deps := mkDeps {
  d_started : bool;
  d_phaseIndex : Z;
  d_key : option PhaseKey;
  d_phaseDurationMs : Z;
  d_isComplete : bool;
  d_ambienceOn : bool
}.

(** Bookkeeping of [useEffect]: the last dependencies, and what the two
    cleanup closures captured.  [omCleanup = Some (startOmCycle, omInterval)]
    for the hum effect, [timerCleanup = Some id] for the phase timer. *)
Record Effects := mkEffects {
  deps : Deps;
  omCleanup : option (nat * option nat);
  timerCleanup : option nat
}.

Record State := mkState {
  hooks : Hooks;
  refs : Refs;
  effects : Effects;
  browser : Browser
}.

Definition upd_hooks (f : Hooks -> Hooks) (s : State) : State :=
  mkState (f (hooks s)) (refs s) (effects s) (browser s).
Definition upd_refs (f : Refs -> Refs) (s : State) : State :=
  mkState (hooks s) (f (refs s)) (effects s) (browser s).
Definition upd_effects (f : Effects -> Effects) (s : State) : State :=
  mkState (hooks s) (refs s) (f (effects s)) (browser s).
Definition upd_browser (f : Browser -> Browser) (s : State) : State :=
  mkState (hooks s) (refs s) (effects s) (f (browser s)).

Definition setStarted (b : bool) (h : Hooks) : Hooks :=
  mkHooks b (phaseIndex h) (phaseDurationMs h) (remaining h) (ambienceOn h).
Definition setPhaseIndex (i : Z) (h : Hooks) : Hooks :=
  mkHooks (started h) i (phaseDurationMs h) (remaining h) (ambienceOn h).
Definition setPhaseDurationMs (d : Z) (h : Hooks) : Hooks :=
  mkHooks (started h) (phaseIndex h) d (remaining h) (ambienceOn h).
Definition setRemaining (r : Z) (h : Hooks) : Hooks :=
  mkHooks (started h) (phaseIndex h) (phaseDurationMs h) r (ambienceOn h).
Definition setAmbienceOn (b : bool) (h : Hooks) : Hooks :=
  mkHooks (started h) (phaseIndex h) (phaseDurationMs h) (remaining h) b.

Definition set_audioRef (a : option Audio) (r : Refs) : Refs :=
  mkRefs a (omAudioRef r) (chimeAudioRef r) (phaseIndexRef r) (isTransitioningRef r).
Definition set_omAudioRef (a : option Audio) (r : Refs) : Refs :=
  mkRefs (audioRef r) a (chimeAudioRef r) (phaseIndexRef r) (isTransitioningRef r).
Definition set_chimeAudioRef (a : option Audio) (r : Refs) : Refs :=
  mkRefs (audioRef r) (omAudioRef r) a (phaseIndexRef r) (isTransitioningRef r).
Definition set_phaseIndexRef (i : Z) (r : Refs) : Refs :=
  mkRefs (audioRef r) (omAudioRef r) (chimeAudioRef r) i (isTransitioningRef r).
Definition set_isTransitioningRef (b : bool) (r : Refs) : Refs :=
  mkRefs (audioRef r) (omAudioRef r) (chimeAudioRef r) (phaseIndexRef r) b.

Definition set_deps (d : Deps) (e : Effects) : Effects :=
  mkEffects d (omCleanup e) (timerCleanup e).
Definition set_omCleanup (c : option (nat * option nat)) (e : Effects) : Effects :=
  mkEffects (deps e) c (timerCleanup e).
Definition set_timerCleanup (c : option nat) (e : Effects) : Effects :=
  mkEffects (deps e) (omCleanup e) c.

(** [PHASES[phaseIndex]]; [undefined] out of range. *)
Definition current (h : Hooks) : option Phase :=
  if phaseIndex h <? 0 then None else nth_error PHASES (Z.to_nat (phaseIndex h)).

Definition currentKey (h : Hooks) : option PhaseKey := option_map key (current h).

(** [started && phaseIndex === PHASES.length - 1 && remaining === 0] *)
Definition isComplete (h : Hooks) : bool :=
  started h && (phaseIndex h =? PHASES_length - 1) && (remaining h =? 0).

Definition depsOf (h : Hooks) : Deps :=
  mkDeps (started h) (phaseIndex h) (currentKey h) (phaseDurationMs h)
    (isComplete h) (ambienceOn h).

(** ** Callbacks of the source *)

Definition onAudio (get : Refs -> option Audio) (set : option Audio -> Refs -> Refs)
    (f : Audio -> Audio) (s : State) : State :=
  match get (refs s) with
  | None => s
  | Some a => upd_refs (set (Some (f a))) s
  end.

(** [ref.current.pause(); ref.current.currentTime = 0] under [if (ref.current)] *)
Definition stopAudio (h : Handle) (get : Refs -> option Audio)
    (set : option Audio -> Refs -> Refs) (s : State) : State :=
  match get (refs s) with
  | None => s
  | Some a =>
      upd_browser (logCall h CallPause)
        (upd_refs (set (Some (set_currentTime 0 (pause a)))) s)
  end.

(** The updater the interval hands to [setRemaining] (lines 312-326), with
    the [setPhaseIndex(p => p + 1)] it queues applied to the cell. *)
Definition tickUpdater (s : State) : State :=
  let prev := remaining (hooks s) in
  let currentPhase := phaseIndexRef (refs s) in
  if (prev <=? 1000) && negb (isTransitioningRef (refs s)) then
    let s1 :=
      if currentPhase <? PHASES_length - 1 then
        upd_hooks (fun h => setPhaseIndex (phaseIndex h + 1) h)
          (upd_refs (set_isTransitioningRef true) s)
      else s in
    upd_hooks (setRemaining (Z.max 0 (prev - 1000))) s1
  else
    upd_hooks (setRemaining (prev - 1000)) s.

Definition fadeDuration : Z := 1000.
Definition fadeStart : Z := 7000.
Definition fadeSteps : Z := 20.
Definition initialVolume : Q := 2 # 10.

(** [playOm] (lines 211-253) up to the body of the fade timeout. *)
Definition playOm (s : State) : State :=
  let a0 := match omAudioRef (refs s) with
            | Some a => a
            | None => set_volume (2 # 10) new_Audio
            end in
  let a1 := play (set_volume (2 # 10) (set_currentTime 0 a0)) in
  let b1 := logCall Om CallPlay (browser s) in
  let b2 := clearTimer (_fadeTimeout a1) b1 in
  let b3 := clearTimer (_fadeInterval a1) b2 in
  let (id, b4) := setTimer CbFadeTimeout fadeStart None b3 in
  mkState (hooks s) (set_omAudioRef (Some (set_fadeTimeout (Some id) a1)) (refs s))
    (effects s) b4.

(** [playOmForExhale] (lines 209-260): one hum now, then one every 12 s; the
    interval id lands in the variable [omInterval] the cleanup reads. *)
Definition playOmForExhale (s : State) : State :=
  let s1 := playOm s in
  let (id, b) := setTimer CbPlayOm 12000 (Some 12000) (browser s1) in
  mkState (hooks s1) (refs s1)
    (set_omCleanup
       (match omCleanup (effects s1) with
        | Some (sid, _) => Some (sid, Some id)
        | None => None
        end) (effects s1))
    b.

(** The body of the fade timeout (lines 238-252): it arms the fade interval,
    one step every [fadeDuration / fadeSteps] ms (an exact quotient). *)
Definition fadeTimeoutCb (s : State) : State :=
  match omAudioRef (refs s) with
  | None => s
  | Some a =>
      let d := fadeDuration / fadeSteps in
      let (id, b) := setTimer (CbFadeStep 0) d (Some d) (browser s) in
      mkState (hooks s) (set_omAudioRef (Some (set_fadeInterval (Some id) a)) (refs s))
        (effects s) b
  end.

(** One run of the fade interval's callback (lines 242-251), entered with the
    closure variable [step]. *)
Definition fadeStepCb (step : Z) (s : State) : State :=
  match omAudioRef (refs s) with
  | None => s
  | Some a =>
      let step' := step + 1 in
      let a1 :=
        set_volume (Qmax 0 (initialVolume * (1 - inject_Z step' / inject_Z fadeSteps)))%Q a in
      if fadeSteps <=? step' then
        mkState (hooks s)
          (set_omAudioRef (Some (set_currentTime 0 (pause (set_volume 0 a1)))) (refs s))
          (effects s)
          (logCall Om CallPause (clearTimer (_fadeInterval a1) (browser s)))
      else upd_refs (set_omAudioRef (Some a1)) s
  end.

(** ** Click handlers *)

Inductive Minutes := M2 | M5 | M10.

Definition perPhase (m : Minutes) : Z :=
  match m with
  | M2 => 24000
  | M5 => 60000
  | M10 => 120000
  end.

(** [startWithMinutes] (lines 276-303); the fullscreen request is left out. *)
Definition startWithMinutes (m : Minutes) (s : State) : State :=
  let h := setStarted true
             (setRemaining (perPhase m)
                (setPhaseIndex 0 (setPhaseDurationMs (perPhase m) (hooks s)))) in
  let a0 := match audioRef (refs s) with
            | Some a => a
            | None => set_loop true new_Audio
            end in
  let a1 := play (set_muted (negb (ambienceOn (hooks s))) a0) in
  mkState h (set_audioRef (Some a1) (refs s)) (effects s)
    (logCall Ambience CallPlay (browser s)).

(** The back button and "Return to Start" (lines 491-496 and 584-589). *)
Definition returnToStart (s : State) : State :=
  let h := setRemaining 60000 (setPhaseIndex 0 (setStarted false (hooks s))) in
  stopAudio Ambience audioRef set_audioRef
    (mkState h (refs s) (effects s) (browser s)).

(** The mute button: [setAmbienceOn(v => !v)]. *)
Definition toggleAmbience (s : State) : State :=
  upd_hooks (fun h => setAmbienceOn (negb (ambienceOn h)) h) s.

(** ** Effects

    Every effect body takes the [Hooks] of the render that scheduled it: the
    values its closure captured. *)

(** Lines 142-161, deps [[isComplete]]. *)
Definition completionEffect (h : Hooks) (s : State) : State :=
  if isComplete h then
    stopAudio Chime chimeAudioRef set_chimeAudioRef
      (stopAudio Om omAudioRef set_omAudioRef
         (stopAudio Ambience audioRef set_audioRef s))
  else s.

Definition playAudio (hd : Handle) (get : Refs -> option Audio)
    (set : option Audio -> Refs -> Refs) (s : State) : State :=
  upd_browser (logCall hd CallPlay) (onAudio get set play s).

(** Lines 163-173, deps [[started, isComplete, ambienceOn]]. *)
Definition keepAmbienceEffect (h : Hooks) (s : State) : State :=
  match audioRef (refs s) with
  | Some a =>
      if started h && negb (isComplete h) then
        if ambienceOn h && paused a then playAudio Ambience audioRef set_audioRef s
        else s
      else s
  | None => s
  end.

(** Lines 175-179, deps [[phaseIndex]]. *)
Definition syncRefEffect (h : Hooks) (s : State) : State :=
  upd_refs (fun r => set_isTransitioningRef false (set_phaseIndexRef (phaseIndex h) r)) s.

(** Lines 184-200, deps [[phaseIndex, started]]. *)
Definition chimeEffect (h : Hooks) (s : State) : State :=
  if negb (started h) then s
  else
    let a0 := match chimeAudioRef (refs s) with
              | Some a => a
              | None => set_volume (1 # 10) new_Audio
              end in
    upd_browser (logCall Chime CallPlay)
      (upd_refs
         (set_chimeAudioRef (Some (play (set_volume (1 # 10) (set_currentTime 0 a0)))))
         s).

Definition isP1 (k : option PhaseKey) : bool :=
  match k with
  | Some p1 => true
  | _ => false
  end.

(** Lines 202-273, deps [[started, current.key, isComplete]]: the body up to
    the [setTimeout] that starts the hum cycle after 4 s. *)
Definition omEffect (h : Hooks) (s : State) : State :=
  if negb (started h) || isP1 (currentKey h) || isComplete h then
    upd_effects (set_omCleanup None) s
  else
    let (id, b) := setTimer CbStartOmCycle 4000 None (browser s) in
    mkState (hooks s) (refs s) (set_omCleanup (Some (id, None)) (effects s)) b.

(** The cleanup of the hum effect (lines 265-272). *)
Definition omEffectCleanup (s : State) : State :=
  match omCleanup (effects s) with
  | None => s
  | Some (startOmCycle, omInterval) =>
      let b := clearTimer omInterval (clearTimer (Some startOmCycle) (browser s)) in
      stopAudio Om omAudioRef set_omAudioRef
        (mkState (hooks s) (refs s) (set_omCleanup None (effects s)) b)
  end.

(** Lines 305-329, deps [[started, phaseDurationMs]]. *)
Definition timerEffect (h : Hooks) (s : State) : State :=
  if negb (started h) then upd_effects (set_timerCleanup None) s
  else
    let (id, b) := setTimer CbTick 1000 (Some 1000) (browser s) in
    mkState (hooks s) (refs s) (set_timerCleanup (Some id) (effects s)) b.

Definition timerEffectCleanup (s : State) : State :=
  mkState (hooks s) (refs s) (set_timerCleanup None (effects s))
    (clearTimer (timerCleanup (effects s)) (browser s)).

(** Lines 331-337, deps [[phaseIndex, started, phaseDurationMs]]. *)
Definition resetRemainingEffect (h : Hooks) (s : State) : State :=
  if started h then upd_hooks (setRemaining (phaseDurationMs h)) s else s.

(** Lines 341-348, deps [[ambienceOn, started, isComplete]]. *)
Definition muteEffect (h : Hooks) (s : State) : State :=
  match audioRef (refs s) with
  | None => s
  | Some a =>
      let s1 := upd_refs (set_audioRef (Some (set_muted (negb (ambienceOn h)) a))) s in
      if ambienceOn h && started h && negb (isComplete h) then
        playAudio Ambience audioRef set_audioRef s1
      else s1
  end.

(** ** Render and commit

    After a render React runs, for every effect whose dependencies differ
    from those of the previous render, first the cleanups and then the
    bodies, both in the order the effects are declared. *)

Definition option_key_eqb (a b : option PhaseKey) : bool :=
  match a, b with
  | Some x, Some y => PhaseKey_eqb x y
  | None, None => true
  | _, _ => false
  end.

Definition runIf (b : bool) (f : State -> State) (s : State) : State :=
  if b then f s else s.

(** Which dependencies differ from those of the previous render. *)
Definition changedStarted (s : State) : bool :=
  negb (Bool.eqb (d_started (deps (effects s))) (started (hooks s))).
Definition changedIndex (s : State) : bool :=
  negb (d_phaseIndex (deps (effects s)) =? phaseIndex (hooks s)).
Definition changedKey (s : State) : bool :=
  negb (option_key_eqb (d_key (deps (effects s))) (currentKey (hooks s))).
Definition changedDuration (s : State) : bool :=
  negb (d_phaseDurationMs (deps (effects s)) =? phaseDurationMs (hooks s)).
Definition changedComplete (s : State) : bool :=
  negb (Bool.eqb (d_isComplete (deps (effects s))) (isComplete (hooks s))).
Definition changedAmbience (s : State) : bool :=
  negb (Bool.eqb (d_ambienceOn (deps (effects s))) (ambienceOn (hooks s))).

Definition commit (s : State) : State :=
  let h := hooks s in
  let cStarted := changedStarted s in
  let cIndex := changedIndex s in
  let cKey := changedKey s in
  let cDuration := changedDuration s in
  let cComplete := changedComplete s in
  let cAmbience := changedAmbience s in
  let s := runIf (cStarted || cKey || cComplete) omEffectCleanup s in
  let s := runIf (cStarted || cDuration) timerEffectCleanup s in
  let s := runIf cComplete (completionEffect h) s in
  let s := runIf (cStarted || cComplete || cAmbience) (keepAmbienceEffect h) s in
  let s := runIf cIndex (syncRefEffect h) s in
  let s := runIf (cIndex || cStarted) (chimeEffect h) s in
  let s := runIf (cStarted || cKey || cComplete) (omEffect h) s in
  let s := runIf (cStarted || cDuration) (timerEffect h) s in
  let s := runIf (cIndex || cStarted || cDuration) (resetRemainingEffect h) s in
  let s := runIf (cAmbience || cStarted || cComplete) (muteEffect h) s in
  upd_effects (set_deps (depsOf h)) s.

(** The only effect that writes a state cell is the reset of [remaining],
    and no effect depends on [remaining] but through [isComplete]: two
    commits bring the component to rest. *)
Definition settle (s : State) : State := commit (commit s).

(** No effect is pending. *)
Definition quiescent (s : State) : Prop := deps (effects s) = depsOf (hooks s).

(** The first render: every effect body runs once. *)
Definition mount (s : State) : State :=
  let h := hooks s in
  let s := completionEffect h s in
  let s := keepAmbienceEffect h s in
  let s := syncRefEffect h s in
  let s := chimeEffect h s in
  let s := omEffect h s in
  let s := timerEffect h s in
  let s := resetRemainingEffect h s in
  let s := muteEffect h s in
  upd_effects (set_deps (depsOf h)) s.

(** The initial values of [useState] and [useRef]; timer ids start at 1. *)
Definition initial : State :=
  let h := mkHooks false 0 60000 60000 true in
  mkState h (mkRefs None None None 0 false)
    (mkEffects (depsOf h) None None) (mkBrowser 0 1 [] []).

Definition init : State := mount initial.

(** ** The event loop *)

(** The clock moves to [t]; playing elements move with it. *)
Definition advanceClock (t : Z) (s : State) : State :=
  let dt := t - now (browser s) in
  if dt <=? 0 then s
  else
    let r := refs s in
    let b := browser s in
    mkState (hooks s)
      (mkRefs (option_map (advanceAudio dt) (audioRef r))
         (option_map (advanceAudio dt) (omAudioRef r))
         (option_map (advanceAudio dt) (chimeAudioRef r))
         (phaseIndexRef r) (isTransitioningRef r))
      (effects s)
      (mkBrowser t (nextTimerId b) (timers b) (calls b)).

Definition runCallback (c : Callback) (s : State) : State :=
  match c with
  | CbTick => tickUpdater s
  | CbStartOmCycle => playOmForExhale s
  | CbPlayOm => playOm s
  | CbFadeTimeout => fadeTimeoutCb s
  | CbFadeStep k => fadeStepCb k s
  end.

(** What the closure of an interval holds at its next run. *)
Definition nextCallback (c : Callback) : Callback :=
  match c with
  | CbFadeStep k => CbFadeStep (k + 1)
  | _ => c
  end.

(** An interval that its callback did not clear is queued again, one period
    on, behind the timers armed meanwhile. *)
Definition rearm (t : Timer) (b : Browser) : Browser :=
  match period t with
  | None => b
  | Some p =>
      if existsb (fun u => Nat.eqb (tid u) (tid t)) (timers b) then
        mkBrowser (now b) (nextTimerId b)
          (filter (fun u => negb (Nat.eqb (tid u) (tid t))) (timers b)
             ++ [mkTimer (tid t) (nextCallback (cb t)) (due t + p) (Some p)])
          (calls b)
      else b
  end.

(** The timer [t] fires: its callback runs, before any render. *)
Definition dispatch (t : Timer) (s : State) : State :=
  let s0 := advanceClock (due t) s in
  let s1 := match period t with
            | None => upd_browser (clearTimer (Some (tid t))) s0
            | Some _ => s0
            end in
  upd_browser (rearm t) (runCallback (cb t) s1).

(** The timer fires and the component comes to rest. *)
Definition fire (t : Timer) (s : State) : State := settle (dispatch t s).

Inductive Click := ClickStart (m : Minutes) | ClickBack | ClickMute.

(** Which control is on screen: the three options on the start screen, the
    back button on the session and completion screens, the mute button on
    the session screen. *)
Definition enabled (c : Click) (h : Hooks) : bool :=
  match c with
  | ClickStart _ => negb (started h)
  | ClickBack => started h
  | ClickMute => started h && negb (isComplete h)
  end.

Definition handler (c : Click) (s : State) : State :=
  match c with
  | ClickStart m => startWithMinutes m s
  | ClickBack => returnToStart s
  | ClickMute => toggleAmbience s
  end.

Definition click (c : Click) (s : State) : State := settle (handler c s).

(** The next timer to fire: the earliest due, and among equals the one
    queued first. *)
Fixpoint nextTimer (l : list Timer) : option Timer :=
  match l with
  | [] => None
  | t :: l' =>
      match nextTimer l' with
      | None => Some t
      | Some u => if due u <? due t then Some u else Some t
      end
  end.

(** Let the clock run to [t], firing every timer due by then; [None] when
    [fuel] firings did not suffice. *)
Fixpoint elapseTo (fuel : nat) (t : Z) (s : State) : option State :=
  match nextTimer (timers (browser s)) with
  | None => Some (advanceClock t s)
  | Some tm =>
      if due tm <=? t then
        match fuel with
        | O => None
        | S fuel' => elapseTo fuel' t (fire tm s)
        end
      else Some (advanceClock t s)
  end.

(** A session of [m] minutes started at time 0, observed at time [t]. *)
Definition session (m : Minutes) (t : Z) : option State :=
  elapseTo 4000 t (click (ClickStart m) init).

(** ** Derived display *)

(** [progress] (lines 350-355). *)
Definition progress (h : Hooks) : Q :=
  let per := (100 / inject_Z PHASES_length)%Q in
  let within := (1 - inject_Z (remaining h) / inject_Z (phaseDurationMs h))%Q in
  Qmin 100 (inject_Z (phaseIndex h) * per + within * per)%Q.

(** ** Runs of the component

    One step is: a click on a control that is on screen, a pending timer
    firing, time passing, or a render with its effects.  Clicks and timers
    find the component at rest: React flushes the effects of a commit before
    it handles the next event.  Any pending timer may fire, whatever its due
    time: browsers only promise that a timer is not early. *)

Inductive step : State -> State -> Prop :=
| step_wait s t : step s (advanceClock t s)
| step_click s c :
    quiescent s -> enabled c (hooks s) = true -> step s (handler c s)
| step_timer s t :
    quiescent s -> In t (timers (browser s)) -> step s (dispatch t s)
| step_commit s : step s (commit s).

Inductive reachable : State -> Prop :=
| reach_init : reachable init
| reach_step s s' : reachable s -> step s s' -> reachable s'.

(** [ticks k s s']: [k] firings of the phase timer lead from [s] to [s'],
    each followed by its renders. *)
Inductive ticks : nat -> State -> State -> Prop :=
| ticks_O s : ticks 0 s s
| ticks_S k s s' t :
    ticks k s s' ->
    In t (timers (browser s')) -> cb t = CbTick ->
    ticks (S k) s (fire t s').

(** The phase timer, when armed. *)
Definition isTick (t : Timer) : bool :=
  match cb t with
  | CbTick => true
  | _ => false
  end.

Definition tickTimer (s : State) : option Timer :=
  find isTick (timers (browser s)).

(** [k] ticks of the phase timer; [None] when it is not armed. *)
Fixpoint tickN (k : nat) (s : State) : option State :=
  match k with
  | O => Some s
  | S k' =>
      match tickN k' s with
      | Some s' =>
          match tickTimer s' with
          | Some t => Some (fire t s')
          | None => None
          end
      | None => None
      end
  end.

(** The state a run has at time [t] satisfies [P]. *)
Definition at_time (m : Minutes) (t : Z) (P : State -> Prop) : Prop :=
  exists fuel s, elapseTo fuel t (click (ClickStart m) init) = Some s /\ P s.

(** ** Observations *)

(** The times at which [play()] was called on the hum, oldest first. *)
Definition omPlays (s : State) : list Z :=
  rev (map (fun c => fst (fst c))
         (filter (fun c => match c with
                           | (_, Om, CallPlay) => true
                           | _ => false
                           end) (calls (browser s)))).

(** The hum element is in the state described. *)
Definition omIs (isPaused : bool) (pos : Z) (vol : Q) (s : State) : Prop :=
  match omAudioRef (refs s) with
  | Some a => paused a = isPaused /\ currentTime a = pos /\ (volume a == vol)%Q
  | None => False
  end.

Definition omIsb (isPaused : bool) (pos : Z) (vol : Q) (s : State) : bool :=
  match omAudioRef (refs s) with
  | Some a =>
      Bool.eqb (paused a) isPaused && (currentTime a =? pos)
      && Qeq_bool (volume a) vol
  | None => false
  end.

(** The volume of the hum element is [vol]. *)
Definition omVolume (vol : Q) (s : State) : Prop :=
  match omAudioRef (refs s) with
  | Some a => (volume a == vol)%Q
  | None => False
  end.

Definition omVolumeb (vol : Q) (s : State) : bool :=
  match omAudioRef (refs s) with
  | Some a => Qeq_bool (volume a) vol
  | None => false
  end.

(** Ambience, hum and chime are all stopped. *)
Definition allStopped (s : State) : Prop :=
  stopped (audioRef (refs s)) /\
  stopped (omAudioRef (refs s)) /\
  stopped (chimeAudioRef (refs s)).

(** A step of the fade interval is pending. *)
Definition isFadeStep (t : Timer) : bool :=
  match cb t with
  | CbFadeStep _ => true
  | _ => false
  end.

(** ** Checks on a run, made in one pass *)

(** [[a; a + 1; ...]], [n] numbers. *)
Fixpoint Zrange (a : Z) (n : nat) : list Z :=
  match n with
  | O => []
  | S n' => a :: Zrange (a + 1) n'
  end.

(** The clock runs on from check to check, the times in ascending order from
    [lo], with [fuel] firings allowed between two checks. *)
Fixpoint checkRun (fuel : nat) (lo : Z) (s : State)
    (cs : list (Z * (State -> bool))) : bool :=
  match cs with
  | [] => true
  | (t, P) :: cs' =>
      (lo <=? t)
      && match elapseTo fuel t s with
         | Some s' => P s' && checkRun fuel t s' cs'
         | None => false
         end
  end.

(** The cells of the first phase, second by second. *)
Definition tickCheck (m : Minutes) (k : Z) : Z * (State -> bool) :=
  (k * 1000,
   fun s => (phaseIndex (hooks s) =? 0)
            && (remaining (hooks s) =? perPhase m - k * 1000)).

Definition tickChecks (m : Minutes) : list (Z * (State -> bool)) :=
  map (tickCheck m) (Zrange 0 (Z.to_nat (perPhase m / 1000))).

(** The cells over the five phases, second by second: the index is the
    number of phase lengths gone by, the remaining time what is left of the
    phase under way. *)
Definition phaseCheck (m : Minutes) (k : Z) : Z * (State -> bool) :=
  (k * 1000,
   fun s => (phaseIndex (hooks s) =? k * 1000 / perPhase m)
            && (remaining (hooks s) =? perPhase m - (k * 1000) mod perPhase m)).

Definition phaseChecks (m : Minutes) : list (Z * (State -> bool)) :=
  map (phaseCheck m) (Zrange 0 (Z.to_nat (5 * perPhase m / 1000))).

(** The envelope of a hum fired at [t0]: it plays from position 0 at volume
    0.2, still does so 7 s later, then steps down every 50 ms, and is
    stopped and rewound after 8 s. *)
Definition fadeCheck (t0 i : Z) : Z * (State -> bool) :=
  (t0 + 7000 + 50 * i, omVolumeb ((2 # 10) * (1 - inject_Z i / 20))%Q).

Definition humChecks (t0 : Z) : list (Z * (State -> bool)) :=
  (t0, omIsb false 0 (2 # 10))
  :: (t0 + 7000, omIsb false 7000 (2 # 10))
  :: map (fadeCheck t0) (Zrange 0 21)
  ++ [(t0 + 8000, omIsb true 0 0)].

(** The hums of phase [p] (counted from 0) of the run of [m] minutes. *)
Definition humTimes (m : Minutes) (p : Z) : list Z :=
  map (fun j => p * perPhase m + 4000 + 12000 * j)
    (Zrange 0 (Z.to_nat (perPhase m / 12000))).

(** The calls of [play()] on the hum that fall into phase [p]. *)
Definition omPlaysIn (m : Minutes) (p : Z) (s : State) : list Z :=
  filter (fun x => (p * perPhase m <=? x) && (x <? (p + 1) * perPhase m))
    (omPlays s).

(** The checks of all hums of the run of [m] minutes, in the order of time. *)
Definition runChecks (m : Minutes) : list (Z * (State -> bool)) :=
  flat_map (fun p => flat_map humChecks (humTimes m p)) [1; 2; 3; 4].

(** ** The clock inside the component

    The part of the state the phase timer reads and writes: the cells, the
    two refs of the transition guard, and the dependencies of the last
    commit. *)
Definition clockOf (s : State) : Hooks * Z * bool * Deps :=
  (hooks s, phaseIndexRef (refs s), isTransitioningRef (refs s), deps (effects s)).

(** What a commit does to the clock: the ref effect (lines 175-179) and the
    reset of [remaining] (lines 331-337), each under its dependencies. *)
Definition commitClock (c : Hooks * Z * bool * Deps) : Hooks * Z * bool * Deps :=
  let '(h, r, t, d) := c in
  let cStarted := negb (Bool.eqb (d_started d) (started h)) in
  let cIndex := negb (d_phaseIndex d =? phaseIndex h) in
  let cDuration := negb (d_phaseDurationMs d =? phaseDurationMs h) in
  (if (cIndex || cStarted || cDuration) && started h
   then setRemaining (phaseDurationMs h) h else h,
   if cIndex then phaseIndex h else r,
   if cIndex then false else t,
   depsOf h).

(** The invariant of the clock: the index is one of the five phases, the
    per-phase duration is positive, the remaining time of a run lies between
    0 and that duration, and once the ref effect has seen the current index
    the guard is open and the ref agrees with the cell. *)
Definition Inv (s : State) : Prop :=
  let h := hooks s in
  0 <= phaseIndex h <= PHASES_length - 1 /\
  0 < phaseDurationMs h /\
  (started h = true -> 0 <= remaining h <= phaseDurationMs h) /\
  (d_phaseIndex (deps (effects s)) = phaseIndex h ->
   phaseIndexRef (refs s) = phaseIndex h /\ isTransitioningRef (refs s) = false).

(** ** The discipline of the timers

    Which variable of the source holds the id of which pending timer: the
    closure variable [id] of the phase-timer effect, [startOmCycle] and
    [omInterval] of the hum effect, and the two properties the hum element
    carries. *)

Definition fadeTimeoutId (s : State) : option nat :=
  match omAudioRef (refs s) with
  | Some a => _fadeTimeout a
  | None => None
  end.

Definition fadeIntervalId (s : State) : option nat :=
  match omAudioRef (refs s) with
  | Some a => _fadeInterval a
  | None => None
  end.

Record Slots := mkSlots {
  sl_tick : option nat;
  sl_om : option (nat * option nat);
  sl_fadeT : option nat;
  sl_fadeI : option nat
}.

Definition slotsOf (s : State) : Slots :=
  mkSlots (timerCleanup (effects s)) (omCleanup (effects s))
    (fadeTimeoutId s) (fadeIntervalId s).

(** A pending timer is held by the variable of its kind, and has the period
    its kind is armed with. *)
Definition held (k : Slots) (l : list Timer) (t : Timer) : Prop :=
  match cb t with
  | CbTick => sl_tick k = Some (tid t) /\ period t = Some 1000
  | CbStartOmCycle => sl_om k = Some (tid t, None) /\ period t = None
  | CbPlayOm => (exists sid, sl_om k = Some (sid, Some (tid t)))
                /\ period t = Some 12000
  | CbFadeTimeout => sl_fadeT k = Some (tid t) /\ period t = None
                     /\ forallb (fun u => negb (isFadeStep u)) l = true
  | CbFadeStep n => sl_fadeI k = Some (tid t) /\ period t = Some 50 /\ 0 <= n
  end.

(** The id a variable holds belongs to no timer of another kind. *)
Definition owned (k : Slots) (t : Timer) : Prop :=
  (sl_tick k = Some (tid t) -> cb t = CbTick) /\
  (forall o, sl_om k = Some (tid t, o) -> cb t = CbStartOmCycle) /\
  (forall sid, sl_om k = Some (sid, Some (tid t)) -> cb t = CbPlayOm) /\
  (sl_fadeT k = Some (tid t) -> cb t = CbFadeTimeout) /\
  (sl_fadeI k = Some (tid t) -> isFadeStep t = true).

(** Every id held is older than the next id. *)
Definition slotsBelow (k : Slots) (n : nat) : Prop :=
  (forall x, sl_tick k = Some x -> (x < n)%nat) /\
  (forall x o, sl_om k = Some (x, o) -> (x < n)%nat) /\
  (forall x y, sl_om k = Some (x, Some y) -> (y < n)%nat) /\
  (forall x, sl_fadeT k = Some x -> (x < n)%nat) /\
  (forall x, sl_fadeI k = Some x -> (x < n)%nat).

Definition SchedOn (k : Slots) (n : nat) (l : list Timer) : Prop :=
  NoDup (map tid l) /\
  (forall t, In t l -> (tid t < n)%nat /\ held k l t /\ owned k t) /\
  slotsBelow k n.

(** The invariant of the timer queue. *)
Definition Sched (s : State) : Prop :=
  SchedOn (slotsOf s) (nextTimerId (browser s)) (timers (browser s)).

(** The timers of [l] but the one with id [x]. *)
Definition without (x : nat) (l : list Timer) : list Timer :=
  filter (fun t => negb (Nat.eqb (tid t) x)) l.

(** What the invariant reads of a state. *)
Definition schedOf (s : State) : Slots * nat * list Timer :=
  (slotsOf s, nextTimerId (browser s), timers (browser s)).

Definition clearL (id : option nat) (l : list Timer) : list Timer :=
  match id with
  | Some x => without x l
  | None => l
  end.

(** Between the cleanups and the bodies of a commit: an effect that is to
    run has let go of its timers. *)
Definition Stage (b1 b2 : bool) (s : State) : Prop :=
  Sched s /\
  (b1 = true -> omCleanup (effects s) = None) /\
  (b2 = true -> timerCleanup (effects s) = None).

(** The phase timer is pending under the id its cleanup holds. *)
Definition tickArmed (s : State) : Prop :=
  exists t, In t (timers (browser s)) /\ cb t = CbTick /\
            timerCleanup (effects s) = Some (tid t).

(** The early return of the hum effect (line 204), on committed values. *)
Definition humIdle (d : Deps) : bool :=
  negb (d_started d) || isP1 (d_key d) || d_isComplete d.

(** What the last commit left behind: no phase timer and no hum timer unless
    a run is on, the phase timer while one is. *)
Definition Armed (s : State) : Prop :=
  (d_started (deps (effects s)) = false -> timerCleanup (effects s) = None) /\
  (humIdle (deps (effects s)) = true -> omCleanup (effects s) = None) /\
  (d_started (deps (effects s)) = true -> tickArmed s).

(** What a timer is for: the phase clock, the hum cycle, the fade of a hum. *)
Definition sameJob (a b : Callback) : bool :=
  match a, b with
  | CbTick, CbTick => true
  | (CbStartOmCycle | CbPlayOm), (CbStartOmCycle | CbPlayOm) => true
  | (CbFadeTimeout | CbFadeStep _), (CbFadeTimeout | CbFadeStep _) => true
  | _, _ => false
  end.

Definition isFade (c : Callback) : bool :=
  match c with
  | CbFadeTimeout | CbFadeStep _ => true
  | _ => false
  end.

(** An upper bound on the firings a fade timer has left: the timeout, then
    the steps of the interval up to [fadeSteps]. *)
Definition fadeLeft (c : Callback) : nat :=
  match c with
  | CbFadeTimeout => 21
  | CbFadeStep k => Z.to_nat (Z.max 1 (fadeSteps - k))
  | _ => 0
  end.

Definition timersLeft (l : list Timer) : nat :=
  list_sum (map (fun t => fadeLeft (cb t)) l).

(** Every call on an audio element made since [s] is a [pause()]. *)
Definition onlyPauses (s s' : State) : Prop :=
  forall c, In c (calls (browser s')) ->
            In c (calls (browser s)) \/ snd c = CallPause.

(** ** What is heard *)

Definition whenSome (P : Audio -> Prop) (o : option Audio) : Prop :=
  match o with
  | Some a => P a
  | None => True
  end.

(** The hum is not sounding. *)
Definition humPaused (s : State) : Prop :=
  whenSome (fun a => paused a = true) (omAudioRef (refs s)).

(** The volumes the source sets: none on the ambience, 0.1 on the chime,
    0.2 and the fade below it on the hum. *)
Definition volumesOk (s : State) : Prop :=
  whenSome (fun a => (volume a == 1)%Q) (audioRef (refs s)) /\
  whenSome (fun a => (0 <= volume a <= 2 # 10)%Q) (omAudioRef (refs s)) /\
  whenSome (fun a => (volume a == 1 # 10)%Q) (chimeAudioRef (refs s)).

(** The number of [play()] calls on the chime so far. *)
Definition chimePlays (s : State) : nat :=
  List.length
    (filter (fun c => match c with
                      | (_, Chime, CallPlay) => true
                      | _ => false
                      end) (calls (browser s))).

(** A paused element is at position 0. *)
Definition rewound (a : Audio) : Prop := paused a = true -> currentTime a = 0.

Definition allRewound (s : State) : Prop :=
  whenSome rewound (audioRef (refs s)) /\
  whenSome rewound (omAudioRef (refs s)) /\
  whenSome rewound (chimeAudioRef (refs s)).

(** The element [o] is paused at position [t]. *)
Definition pausedAt (o : option Audio) (t : Z) : Prop :=
  exists a, o = Some a /\ paused a = true /\ currentTime a = t.

(** [a'] is not left paused off position 0, unless [o] was paused at that
    very position. *)
Definition rewoundSince (o : option Audio) (a' : Audio) : Prop :=
  paused a' = true -> currentTime a' = 0 \/ pausedAt o (currentTime a').

Definition allRewoundSince (s0 s : State) : Prop :=
  whenSome (rewoundSince (audioRef (refs s0))) (audioRef (refs s)) /\
  whenSome (rewoundSince (omAudioRef (refs s0))) (omAudioRef (refs s)) /\
  whenSome (rewoundSince (chimeAudioRef (refs s0))) (chimeAudioRef (refs s)).

(** Code of the source runs from [s]: click handlers, timer callbacks and
    the effects of renders, in any number and order.  The clock stands
    still meanwhile, and the browser does nothing to the elements. *)
Inductive sourceRun (s : State) : State -> Prop :=
| run_none : sourceRun s s
| run_handler c s' : sourceRun s s' -> sourceRun s (handler c s')
| run_callback c s' : sourceRun s s' -> sourceRun s (runCallback c s')
| run_commit s' : sourceRun s s' -> sourceRun s (commit s').

(** Without a hum effect in force the hum is not sounding. *)
Definition humQuiet (s : State) : Prop :=
  omCleanup (effects s) = None -> humPaused s.

(** [pause()] followed by [currentTime = 0]. *)
Definition stop (a : Audio) : Audio := set_currentTime 0 (pause a).

(** The ambience as the last commit left it: it exists and loops once a run
    was started, its mute flag mirrors [ambienceOn], it is paused on the
    start screen and sounding during a run with the ambience on. *)
Definition ambienceKept (s : State) : Prop :=
  (started (hooks s) = true -> audioRef (refs s) <> None) /\
  whenSome (fun a => loop a = true /\
                     muted a = negb (d_ambienceOn (deps (effects s))))
    (audioRef (refs s)) /\
  (started (hooks s) = false ->
   whenSome (fun a => paused a = true) (audioRef (refs s))) /\
  (started (hooks s) = true -> d_started (deps (effects s)) = true ->
   d_isComplete (deps (effects s)) = false ->
   d_ambienceOn (deps (effects s)) = true ->
   whenSome (fun a => paused a = false) (audioRef (refs s))).

(** A call of [play()] on the ambience. *)
Definition playsAmbience (x : Z * Handle * AudioCall) : Prop :=
  snd (fst x) = Ambience /\ snd x = CallPlay.

(** A timer of the hum cycle is pending. *)
Definition humArmed (s : State) : Prop :=
  exists u, In u (timers (browser s)) /\ (cb u = CbStartOmCycle \/ cb u = CbPlayOm).

(** While the hum effect is in force its cycle is armed. *)
Definition humKept (s : State) : Prop :=
  humIdle (deps (effects s)) = false -> humArmed s.

(** ** The time display (lines 357-359)

    [min], [sec] and [timeStr] are computed at every render; the element that
    showed [timeStr] is commented out in the markup. *)

From Stdlib Require DecimalString.

Module TimeStr.

(** [Math.floor((remaining / 1000) / 60)] *)
Definition min (remaining : Z) : Z := Qfloor (inject_Z remaining / 1000 / 60).

(** [Math.floor((remaining / 1000) % 60)] *)
Definition sec (remaining : Z) : Z := Qfloor (js_rem (inject_Z remaining / 1000) 60).

(** [Number.prototype.toString] on an integer. *)
Definition toString (n : Z) : string :=
  DecimalString.NilZero.string_of_int (Z.to_int n).

Fixpoint zeros (n : nat) : string :=
  match n with
  | O => EmptyString
  | S k => ("0" ++ zeros k)%string
  end.

(** [s.padStart(targetLength, "0")] *)
Definition padStart (targetLength : nat) (s : string) : string :=
  (zeros (targetLength - String.length s) ++ s)%string.

(** [`${min}:${sec.toString().padStart(2, "0")}`] *)
Definition timeStr (remaining : Z) : string :=
  (toString (min remaining) ++ ":" ++ padStart 2 (toString (sec remaining)))%string.

End TimeStr.

(** The per-phase duration is one of the three on offer or the initial
    60 s, and the remaining time a whole number of seconds. *)
Definition wholeSeconds (h : Hooks) : Prop :=
  In (phaseDurationMs h) [24000; 60000; 120000] /\ (remaining h) mod 1000 = 0.

(** Neither the ambience nor the chime is sounding. *)
Definition quietPair (s : State) : Prop :=
  whenSome (fun a => paused a = true) (audioRef (refs s)) /\
  whenSome (fun a => paused a = true) (chimeAudioRef (refs s)).

(** Once the completion has been rendered, the ambience and the chime are
    not sounding. *)
Definition doneQuiet (s : State) : Prop :=
  d_isComplete (deps (effects s)) = true -> isComplete (hooks s) = true ->
  quietPair s.

(** Renders, timers and clicks are unfolded by name only. *)
Arguments commit : simpl never.
Arguments settle : simpl never.
Arguments dispatch : simpl never.
Arguments fire : simpl never.
Arguments click : simpl never.
Arguments advanceClock : simpl never.
Arguments tickUpdater : simpl never.

(** * Properties *)

(** ** Rational comparisons *)

Lemma Qltb_lt (x y : Q) : Qltb x y = true <-> (x < y)%Q.
Proof.
  unfold Qltb. rewrite negb_true_iff. split.
  - intros H. apply Qnot_le_lt. intros Hle.
    apply Qle_bool_iff in Hle. congruence.
  - intros H. destruct (Qle_bool y x) eqn:E; [|reflexivity].
    apply Qle_bool_iff in E. exfalso. exact (Qlt_not_le _ _ H E).
Qed.

Lemma Qltb_ge (x y : Q) : Qltb x y = false <-> (y <= x)%Q.
Proof.
  unfold Qltb. rewrite negb_false_iff. apply Qle_bool_iff.
Qed.

Lemma Qmax_r (x y : Q) : (x <= y)%Q -> Qmax x y = y.
Proof. intros H. unfold Qmax. apply Qle_bool_iff in H. now rewrite H. Qed.

Lemma Qmax_l (x y : Q) : (y < x)%Q -> Qmax x y = x.
Proof.
  intros H. unfold Qmax. destruct (Qle_bool x y) eqn:E; [|reflexivity].
  apply Qle_bool_iff in E. exfalso. exact (Qlt_not_le _ _ H E).
Qed.

Lemma Qmin_l (x y : Q) : (x <= y)%Q -> Qmin x y = x.
Proof. intros H. unfold Qmin. apply Qle_bool_iff in H. now rewrite H. Qed.

Lemma Qmin_r (x y : Q) : (y < x)%Q -> Qmin x y = y.
Proof.
  intros H. unfold Qmin. destruct (Qle_bool x y) eqn:E; [|reflexivity].
  apply Qle_bool_iff in E. exfalso. exact (Qlt_not_le _ _ H E).
Qed.

(** ** The breathing prompt *)

Section BreathPromptFacts.

Import BreathPrompt.

Variables now cycleTime : Z.

(** The elapsed seconds are the elapsed milliseconds reduced by the 12 s
    cycle (with JavaScript's sign convention), over 1000. *)
Lemma elapsedSeconds_rem :
  (elapsedSeconds now cycleTime
   == inject_Z (Z.rem (now - cycleTime) 12000) / 1000)%Q.
Proof.
  unfold elapsedSeconds, js_rem, Qtrunc.
  generalize (now - cycleTime). intros d.
  replace (Qnum (inject_Z d / 1000 / 12)) with d
    by (unfold Qdiv, Qmult, Qinv, inject_Z; simpl; ring).
  replace (Zpos (Qden (inject_Z d / 1000 / 12))) with 12000 by reflexivity.
  rewrite (Z.rem_eq d 12000) by lia.
  unfold Z.sub. rewrite inject_Z_plus, inject_Z_opp, inject_Z_mult.
  change (inject_Z 12000) with (12 * 1000)%Q. field.
Qed.

Lemma isIn_rem : isIn now cycleTime = (Z.rem (now - cycleTime) 12000 <? 4000).
Proof.
  unfold isIn.
  destruct (Z.ltb_spec (Z.rem (now - cycleTime) 12000) 4000) as [H|H].
  - apply Qltb_lt. rewrite elapsedSeconds_rem.
    apply Qlt_shift_div_r; [reflexivity|].
    change (4 * 1000)%Q with (inject_Z 4000). now rewrite <- Zlt_Qlt.
  - apply Qltb_ge. rewrite elapsedSeconds_rem.
    apply Qle_shift_div_l; [reflexivity|].
    change (4 * 1000)%Q with (inject_Z 4000). now rewrite <- Zle_Qle.
Qed.

End BreathPromptFacts.

Lemma rem_after_anchor (t0 d : Z) :
  0 <= d -> Z.rem (t0 + d - t0) 12000 = d mod 12000.
Proof.
  intros H. replace (t0 + d - t0) with d by ring.
  apply Z.rem_mod_nonneg; lia.
Qed.

(** C6.  With [e] the time since the cycle anchor reduced by the 12 s cycle
    (in seconds), [e < 4] is exactly the inhale sub-state, shown as
    "breathe in...", and [4 <= e] exactly the exhale sub-state, shown as
    "breathe out..."; this is the text rendered once an anchor is set.
    3999 ms after the anchor the sub-state is inhale, 5000 ms after it
    exhale. *)
Theorem breath_substate_from_elapsed :
  forall now cycleTime : Z,
    let e := BreathPrompt.elapsedSeconds now cycleTime in
    (e == inject_Z (Z.rem (now - cycleTime) 12000) / 1000)%Q /\
    ((e < 4)%Q <->
       BreathPrompt.subState now cycleTime = BreathPrompt.Inhale /\
       BreathPrompt.cycleText now cycleTime = "breathe in..."%string) /\
    ((4 <= e)%Q <->
       BreathPrompt.subState now cycleTime = BreathPrompt.Exhale /\
       BreathPrompt.cycleText now cycleTime = "breathe out..."%string) /\
    (BreathPrompt.text now (Some cycleTime) =
       if cycleTime =? 0 then "breathe in..."%string
       else BreathPrompt.cycleText now cycleTime) /\
    BreathPrompt.subState (cycleTime + 3999) cycleTime = BreathPrompt.Inhale /\
    BreathPrompt.subState (cycleTime + 5000) cycleTime = BreathPrompt.Exhale.
Proof.
  intros now ct e. subst e.
  split; [apply elapsedSeconds_rem|].
  unfold BreathPrompt.subState, BreathPrompt.cycleText.
  repeat split.
  - apply Qltb_lt in H. fold (BreathPrompt.isIn now ct) in H. now rewrite H.
  - apply Qltb_lt in H. fold (BreathPrompt.isIn now ct) in H. now rewrite H.
  - intros [H _]. apply Qltb_lt. fold (BreathPrompt.isIn now ct).
    destruct (BreathPrompt.isIn now ct); [reflexivity|discriminate].
  - apply Qltb_ge in H. fold (BreathPrompt.isIn now ct) in H. now rewrite H.
  - apply Qltb_ge in H. fold (BreathPrompt.isIn now ct) in H. now rewrite H.
  - intros [H _]. apply Qltb_ge. fold (BreathPrompt.isIn now ct).
    destruct (BreathPrompt.isIn now ct); [discriminate|reflexivity].
  - rewrite isIn_rem, rem_after_anchor by lia. reflexivity.
  - rewrite isIn_rem, rem_after_anchor by lia. reflexivity.
Qed.

(** ** The fade envelope *)

Ltac Q_to_Z :=
  unfold Qle, Qlt, Qdiv, Qmult, Qinv, inject_Z; cbn -[Z.mul]; lia.

Lemma clamp_high (x : Q) :
  (6 # 10 <= x)%Q -> (Qmax 0 (Qmin (6 # 10) x) == 6 # 10)%Q.
Proof.
  intros H. rewrite (Qmin_l _ _ H). reflexivity.
Qed.

Lemma clamp_mid (x : Q) :
  (0 <= x)%Q -> (x <= 6 # 10)%Q -> (Qmax 0 (Qmin (6 # 10) x) == x)%Q.
Proof.
  intros H0 H1.
  destruct (Qlt_le_dec x (6 # 10)) as [Hlt|Hge].
  - rewrite (Qmin_r _ _ Hlt). now rewrite (Qmax_r _ _ H0).
  - rewrite (Qmin_l _ _ Hge). change (Qmax 0 (6 # 10)) with (6 # 10)%Q. lra.
Qed.

Section FadeEnvelope.

Import BreathPrompt.

Variables now cycleTime : Z.

Let r : Z := Z.rem (now - cycleTime) 12000.
Let e : Q := elapsedSeconds now cycleTime.

Lemma e_is_r : (e == inject_Z r / 1000)%Q.
Proof. apply elapsedSeconds_rem. Qed.

Lemma e_lt_iff (k : Z) : (inject_Z k < e)%Q <-> 1000 * k < r.
Proof. rewrite e_is_r. Q_to_Z. Qed.

Lemma rawOpacity_cases :
  (r < 4000 -> r <= 3000 -> rawOpacity now cycleTime = 1%Q) /\
  (r < 4000 -> 3000 < r -> (rawOpacity now cycleTime == 4 - e)%Q) /\
  (4000 <= r -> r <= 11000 -> rawOpacity now cycleTime = 1%Q) /\
  (4000 <= r -> 11000 < r -> (rawOpacity now cycleTime == 12 - e)%Q).
Proof.
  unfold rawOpacity. fold e. rewrite isIn_rem. fold r.
  repeat split; intros Ha Hb.
  - apply Z.ltb_lt in Ha. rewrite Ha.
    replace (Qltb 3 e) with false; [reflexivity|].
    symmetry. apply Qltb_ge. apply Qnot_lt_le. intros H.
    apply (e_lt_iff 3) in H. lia.
  - apply Z.ltb_lt in Ha. rewrite Ha.
    replace (Qltb 3 e) with true; [field|].
    symmetry. apply Qltb_lt. apply (e_lt_iff 3). lia.
  - apply Z.ltb_ge in Ha. rewrite Ha.
    replace (Qltb 11 e) with false; [reflexivity|].
    symmetry. apply Qltb_ge. apply Qnot_lt_le. intros H.
    apply (e_lt_iff 11) in H. lia.
  - apply Z.ltb_ge in Ha. rewrite Ha.
    replace (Qltb 11 e) with true; [field|].
    symmetry. apply Qltb_lt. apply (e_lt_iff 11). lia.
Qed.

Lemma opacity_envelope :
  (r <= 3400 \/ 4000 <= r <= 11400 -> (opacity now cycleTime == 6 # 10)%Q) /\
  (3400 <= r < 4000 -> (opacity now cycleTime == 4 - e)%Q) /\
  (11400 <= r -> (opacity now cycleTime == 12 - e)%Q).
Proof.
  destruct rawOpacity_cases as (R1 & R2 & R3 & R4).
  assert (Hr : -12000 < r < 12000).
  { unfold r. pose proof (Z.rem_bound_abs (now - cycleTime) 12000 ltac:(lia)). lia. }
  unfold opacity.
  repeat split.
  - intros [H|H].
    + destruct (Z_le_gt_dec r 3000) as [H3|H3].
      * rewrite R1 by lia. reflexivity.
      * apply clamp_high. rewrite R2 by lia.
        assert (e <= 34 # 10)%Q by (rewrite e_is_r; Q_to_Z). lra.
    + destruct (Z_le_gt_dec r 11000) as [H3|H3].
      * rewrite R3 by lia. reflexivity.
      * apply clamp_high. rewrite R4 by lia.
        assert (e <= 114 # 10)%Q by (rewrite e_is_r; Q_to_Z). lra.
  - intros H.
    assert (34 # 10 <= e)%Q by (rewrite e_is_r; Q_to_Z).
    assert (e <= 4)%Q by (rewrite e_is_r; Q_to_Z).
    rewrite clamp_mid; rewrite R2 by lia; [reflexivity|lra|lra].
  - intros H.
    assert (114 # 10 <= e)%Q by (rewrite e_is_r; Q_to_Z).
    assert (e <= 12)%Q by (rewrite e_is_r; Q_to_Z).
    rewrite clamp_mid; rewrite R4 by lia; [reflexivity|lra|lra].
Qed.

End FadeEnvelope.

(** C7, as the code has it.  The value the prompt computes for its opacity
    is the linear ramp clamped from above: it is 0.6 up to 0.4 s into the
    last second of the inhale (3 s to 4 s) and of the exhale (11 s to 12 s),
    and over the remaining 0.6 s it falls linearly, as [4 - e] and [12 - e],
    to zero.  At 3.5 s into the inhale it is 0.5. *)
Theorem opacity_is_clamped_ramp :
  forall now cycleTime : Z,
    let r := Z.rem (now - cycleTime) 12000 in
    let e := BreathPrompt.elapsedSeconds now cycleTime in
    (r <= 3400 \/ 4000 <= r <= 11400 ->
       (BreathPrompt.opacity now cycleTime == 6 # 10)%Q) /\
    (3400 <= r < 4000 -> (BreathPrompt.opacity now cycleTime == 4 - e)%Q) /\
    (11400 <= r -> (BreathPrompt.opacity now cycleTime == 12 - e)%Q) /\
    (BreathPrompt.opacity (cycleTime + 3500) cycleTime == 1 # 2)%Q /\
    (BreathPrompt.opacity cycleTime cycleTime == 6 # 10)%Q.
Proof.
  intros now ct r e.
  pose proof (opacity_envelope now ct) as E. cbv zeta in E.
  destruct E as (E1 & E2 & E3).
  repeat split; try assumption.
  - pose proof (opacity_envelope (ct + 3500) ct) as F. cbv zeta in F.
    destruct F as (_ & F & _).
    rewrite rem_after_anchor in F by lia.
    rewrite (F ltac:(change (3500 mod 12000) with 3500; lia)).
    rewrite elapsedSeconds_rem, rem_after_anchor by lia. reflexivity.
  - pose proof (opacity_envelope ct ct) as F. cbv zeta in F.
    destruct F as (F & _ & _).
    apply F. left. replace (ct - ct) with 0 by ring. change (Z.rem 0 12000) with 0. lia.
Qed.

(** C7, as the claim has it, fails: 3.5 s into the inhale the opacity is
    0.5, not 0.6 * (1 - 0.5) = 0.3; and 3.2 s into the inhale, inside the
    last second, it is still at 0.6. *)
Lemma opacity_at_3500_is_not_03 :
  (BreathPrompt.opacity 3500 0 == 1 # 2)%Q /\
  ~ (BreathPrompt.opacity 3500 0 == 3 # 10)%Q /\
  (BreathPrompt.opacity 3200 0 == 6 # 10)%Q.
Proof.
  repeat split; try reflexivity. intros H. discriminate H.
Qed.

(** ** Effects and the clock *)

Ltac break_match :=
  match goal with
  | |- context [match ?x with _ => _ end] => destruct x eqn:?
  end.

Ltac frame :=
  intros;
  unfold stopAudio, playAudio, onAudio, setTimer, clearTimer; cbn;
  repeat (break_match; cbn); try reflexivity.

Lemma clockOf_stopAudio hd get set s :
  (forall a r, phaseIndexRef (set a r) = phaseIndexRef r) ->
  (forall a r, isTransitioningRef (set a r) = isTransitioningRef r) ->
  clockOf (stopAudio hd get set s) = clockOf s.
Proof.
  intros H1 H2. unfold stopAudio, clockOf.
  destruct (get (refs s)); cbn; [|reflexivity]. now rewrite H1, H2.
Qed.

Lemma clockOf_playAudio hd get set s :
  (forall a r, phaseIndexRef (set a r) = phaseIndexRef r) ->
  (forall a r, isTransitioningRef (set a r) = isTransitioningRef r) ->
  clockOf (playAudio hd get set s) = clockOf s.
Proof.
  intros H1 H2. unfold playAudio, onAudio, clockOf.
  destruct (get (refs s)); cbn; [|reflexivity]. now rewrite H1, H2.
Qed.

Lemma clockOf_completionEffect h s : clockOf (completionEffect h s) = clockOf s.
Proof.
  unfold completionEffect. destruct (isComplete h); [|reflexivity].
  rewrite !clockOf_stopAudio; reflexivity.
Qed.

Lemma clockOf_keepAmbienceEffect h s : clockOf (keepAmbienceEffect h s) = clockOf s.
Proof.
  unfold keepAmbienceEffect. repeat (break_match; try reflexivity).
  apply clockOf_playAudio; reflexivity.
Qed.

Lemma clockOf_chimeEffect h s : clockOf (chimeEffect h s) = clockOf s.
Proof. unfold chimeEffect. frame. Qed.

Lemma clockOf_omEffect h s : clockOf (omEffect h s) = clockOf s.
Proof. unfold omEffect. frame. Qed.

Lemma clockOf_omEffectCleanup s : clockOf (omEffectCleanup s) = clockOf s.
Proof.
  unfold omEffectCleanup. destruct (omCleanup (effects s)) as [[a b]|]; [|reflexivity].
  rewrite clockOf_stopAudio; reflexivity.
Qed.

Lemma clockOf_timerEffect h s : clockOf (timerEffect h s) = clockOf s.
Proof. unfold timerEffect. frame. Qed.

Lemma clockOf_timerEffectCleanup s : clockOf (timerEffectCleanup s) = clockOf s.
Proof. reflexivity. Qed.

Lemma clockOf_muteEffect h s : clockOf (muteEffect h s) = clockOf s.
Proof.
  unfold muteEffect. destruct (audioRef (refs s)) eqn:E; [|reflexivity].
  break_match; [|reflexivity]. rewrite clockOf_playAudio; reflexivity.
Qed.

Lemma clockOf_runIf_frame b f s :
  (forall x, clockOf (f x) = clockOf x) -> clockOf (runIf b f s) = clockOf s.
Proof. intros H. destruct b; [apply H|reflexivity]. Qed.

Ltac name_stage f x n :=
  match goal with
  | |- context [runIf ?b f x] => set (n := runIf b f x)
  end.

(** A commit acts on the clock as [commitClock]. *)
Lemma clockOf_commit s : clockOf (commit s) = commitClock (clockOf s).
Proof.
  unfold commit. cbv zeta.
  set (h := hooks s).
  name_stage omEffectCleanup s f1.
  assert (E1 : clockOf f1 = clockOf s)
    by (apply clockOf_runIf_frame, clockOf_omEffectCleanup).
  name_stage timerEffectCleanup f1 f2.
  assert (E2 : clockOf f2 = clockOf s)
    by (unfold f2; rewrite clockOf_runIf_frame; [exact E1|apply clockOf_timerEffectCleanup]).
  name_stage (completionEffect h) f2 f3.
  assert (E3 : clockOf f3 = clockOf s)
    by (unfold f3; rewrite clockOf_runIf_frame; [exact E2|apply clockOf_completionEffect]).
  name_stage (keepAmbienceEffect h) f3 f4.
  assert (E4 : clockOf f4 = clockOf s)
    by (unfold f4; rewrite clockOf_runIf_frame; [exact E3|apply clockOf_keepAmbienceEffect]).
  name_stage (syncRefEffect h) f4 f5.
  assert (E5 : clockOf f5 =
               (hooks s,
                if changedIndex s then phaseIndex h else phaseIndexRef (refs s),
                if changedIndex s then false else isTransitioningRef (refs s),
                deps (effects s))).
  { unfold f5, runIf. destruct (changedIndex s).
    - unfold clockOf in E4 |- *. cbn. congruence.
    - exact E4. }
  name_stage (chimeEffect h) f5 f6.
  assert (E6 : clockOf f6 = clockOf f5)
    by (apply clockOf_runIf_frame, clockOf_chimeEffect).
  name_stage (omEffect h) f6 f7.
  assert (E7 : clockOf f7 = clockOf f5)
    by (unfold f7; rewrite clockOf_runIf_frame; [exact E6|apply clockOf_omEffect]).
  name_stage (timerEffect h) f7 f8.
  assert (E8 : clockOf f8 = clockOf f5)
    by (unfold f8; rewrite clockOf_runIf_frame; [exact E7|apply clockOf_timerEffect]).
  match goal with
  | |- context [runIf ?b (resetRemainingEffect h) f8] =>
      set (b9 := b); set (f9 := runIf b9 (resetRemainingEffect h) f8)
  end.
  name_stage (muteEffect h) f9 f10.
  assert (E10 : clockOf f10 = clockOf f9)
    by (apply clockOf_runIf_frame, clockOf_muteEffect).
  transitivity (hooks f9, phaseIndexRef (refs f9), isTransitioningRef (refs f9), depsOf h).
  { unfold clockOf in E10 |- *. cbn. congruence. }
  assert (E9 : clockOf f9 =
               (if b9 && started h then setRemaining (phaseDurationMs h) (hooks s)
                else hooks s,
                if changedIndex s then phaseIndex h else phaseIndexRef (refs s),
                if changedIndex s then false else isTransitioningRef (refs s),
                deps (effects s))).
  { rewrite E5 in E8. unfold f9, runIf, resetRemainingEffect.
    unfold clockOf in E8 |- *.
    destruct b9, (started h); cbn; congruence. }
  unfold clockOf in E9. unfold clockOf, commitClock.
  injection E9 as Ha Hb Hc Hd. rewrite Ha, Hb, Hc.
  unfold b9, changedIndex, changedStarted, changedDuration. reflexivity.
Qed.

(** ** Callbacks and the clock *)

Lemma clockOf_advanceClock t s : clockOf (advanceClock t s) = clockOf s.
Proof. unfold advanceClock. destruct (_ <=? _); reflexivity. Qed.

Lemma clockOf_upd_browser f s : clockOf (upd_browser f s) = clockOf s.
Proof. reflexivity. Qed.

Lemma clockOf_playOm s : clockOf (playOm s) = clockOf s.
Proof. unfold playOm. frame. Qed.

Lemma clockOf_playOmForExhale s : clockOf (playOmForExhale s) = clockOf s.
Proof.
  unfold playOmForExhale, setTimer. cbn.
  change (clockOf (playOm s) = clockOf s). apply clockOf_playOm.
Qed.

Lemma clockOf_fadeTimeoutCb s : clockOf (fadeTimeoutCb s) = clockOf s.
Proof. unfold fadeTimeoutCb. frame. Qed.

Lemma clockOf_fadeStepCb k s : clockOf (fadeStepCb k s) = clockOf s.
Proof. unfold fadeStepCb. frame. Qed.

(** The tick reads and writes nothing but the clock. *)
Lemma clockOf_tickUpdater_ext s1 s2 :
  clockOf s1 = clockOf s2 -> clockOf (tickUpdater s1) = clockOf (tickUpdater s2).
Proof.
  unfold clockOf, tickUpdater. intros H. injection H as Hh Hr Ht Hd.
  rewrite Hh, Hr, Ht.
  destruct (_ && _); [destruct (_ <? _)|]; cbn; congruence.
Qed.

(** A timer other than the phase timer leaves the clock alone; the phase
    timer acts on it as [tickUpdater]. *)
Lemma clockOf_dispatch t s :
  clockOf (dispatch t s) =
  match cb t with
  | CbTick => clockOf (tickUpdater s)
  | _ => clockOf s
  end.
Proof.
  unfold dispatch. rewrite clockOf_upd_browser.
  set (s1 := match period t with
             | None => upd_browser (clearTimer (Some (tid t))) (advanceClock (due t) s)
             | Some _ => advanceClock (due t) s
             end).
  assert (E : clockOf s1 = clockOf s).
  { unfold s1. destruct (period t); [|rewrite clockOf_upd_browser];
      apply clockOf_advanceClock. }
  destruct (cb t); cbn [runCallback].
  - now apply clockOf_tickUpdater_ext.
  - now rewrite clockOf_playOmForExhale.
  - now rewrite clockOf_playOm.
  - now rewrite clockOf_fadeTimeoutCb.
  - now rewrite clockOf_fadeStepCb.
Qed.

(** ** The invariant *)

Lemma PHASES_last : PHASES_length - 1 = 4.
Proof. reflexivity. Qed.

Lemma Inv_ext s1 s2 : clockOf s1 = clockOf s2 -> Inv s1 -> Inv s2.
Proof.
  unfold clockOf, Inv. intros H. injection H as Hh Hr Ht Hd.
  cbv zeta. now rewrite Hh, Hr, Ht, Hd.
Qed.

Lemma quiescent_ext s1 s2 : clockOf s1 = clockOf s2 -> quiescent s1 -> quiescent s2.
Proof.
  unfold clockOf, quiescent. intros H. injection H as Hh Hr Ht Hd. congruence.
Qed.

Lemma Inv_init : Inv init.
Proof. unfold Inv. cbn. repeat split; lia. Qed.

Lemma quiescent_init : quiescent init.
Proof. reflexivity. Qed.

Lemma commit_cells s :
  hooks (commit s) =
    (if (changedIndex s || changedStarted s || changedDuration s) && started (hooks s)
     then setRemaining (phaseDurationMs (hooks s)) (hooks s) else hooks s) /\
  phaseIndexRef (refs (commit s)) =
    (if changedIndex s then phaseIndex (hooks s) else phaseIndexRef (refs s)) /\
  isTransitioningRef (refs (commit s)) =
    (if changedIndex s then false else isTransitioningRef (refs s)) /\
  deps (effects (commit s)) = depsOf (hooks s).
Proof.
  pose proof (clockOf_commit s) as E.
  unfold clockOf in E. cbv beta iota zeta delta [commitClock] in E.
  repeat split.
  - exact (f_equal (fun x => fst (fst (fst x))) E).
  - exact (f_equal (fun x => snd (fst (fst x))) E).
  - exact (f_equal (fun x => snd (fst x)) E).

Qed.

Lemma Inv_commit s : Inv s -> Inv (commit s).
Proof.
  intros (H1 & H2 & H3 & H4). destruct (commit_cells s) as (Eh & Er & Et & Ed).
  assert (Ex : phaseIndex (hooks (commit s)) = phaseIndex (hooks s) /\
               phaseDurationMs (hooks (commit s)) = phaseDurationMs (hooks s) /\
               (started (hooks (commit s)) = true ->
                0 <= remaining (hooks (commit s)) <= phaseDurationMs (hooks s))).
  { rewrite Eh. destruct (_ && _) eqn:Eb; cbn; repeat split; intros;
      try lia; specialize (H3 ltac:(assumption)); lia. }
  destruct Ex as (Ei & ED & Erem).
  unfold Inv. cbv zeta. rewrite Er, Et, Ed, Ei, ED.
  repeat split; try lia; try (apply Erem; assumption).
  - unfold changedIndex.
    destruct (Z.eqb_spec (d_phaseIndex (deps (effects s))) (phaseIndex (hooks s)));
      cbn; [apply H4; assumption|reflexivity].
  - unfold changedIndex.
    destruct (Z.eqb_spec (d_phaseIndex (deps (effects s))) (phaseIndex (hooks s)));
      cbn; [apply H4; assumption|reflexivity].
Qed.

Lemma Inv_tickUpdater s : quiescent s -> Inv s -> Inv (tickUpdater s).
Proof.
  unfold quiescent, Inv, tickUpdater. cbv zeta. rewrite PHASES_last.
  intros Q (H1 & H2 & H3 & H4).
  assert (Hd : d_phaseIndex (deps (effects s)) = phaseIndex (hooks s))
    by (rewrite Q; reflexivity).
  destruct (H4 Hd) as [Hr Ht]. rewrite Hr, Ht. cbn [negb].
  rewrite andb_true_r.
  destruct (Z.leb_spec (remaining (hooks s)) 1000);
    [destruct (Z.ltb_spec (phaseIndex (hooks s)) 4)|]; cbn;
    repeat split; intros; try lia; try assumption;
    try (specialize (H3 ltac:(assumption)); lia).
Qed.

Lemma Inv_handler c s :
  quiescent s -> enabled c (hooks s) = true -> Inv s -> Inv (handler c s).
Proof.
  unfold quiescent, Inv. cbv zeta. rewrite PHASES_last.
  intros Q En (H1 & H2 & H3 & H4).
  assert (Hd : d_phaseIndex (deps (effects s)) = phaseIndex (hooks s))
    by (rewrite Q; reflexivity).
  destruct (H4 Hd) as [Hr Ht].
  destruct c as [m| |]; cbn in *.
  - destruct m; cbn; repeat split; intros; try lia; congruence.
  - unfold returnToStart, stopAudio. cbn.
    destruct (audioRef (refs s)); cbn; repeat split; intros; try lia; try discriminate;
      congruence.
  - repeat split; try lia; try tauto.
Qed.

(** A commit changes no cell but [remaining]. *)
Lemma commit_keeps s :
  started (hooks (commit s)) = started (hooks s) /\
  phaseIndex (hooks (commit s)) = phaseIndex (hooks s) /\
  phaseDurationMs (hooks (commit s)) = phaseDurationMs (hooks s) /\
  ambienceOn (hooks (commit s)) = ambienceOn (hooks s).
Proof.
  destruct (commit_cells s) as (Eh & _). rewrite Eh.
  destruct (_ && _); repeat split.
Qed.

(** After one commit the second finds no dependency of the ref effect or of
    the reset changed. *)
Lemma settle_cells s :
  hooks (settle s) = hooks (commit s) /\
  phaseIndexRef (refs (settle s)) = phaseIndexRef (refs (commit s)) /\
  isTransitioningRef (refs (settle s)) = isTransitioningRef (refs (commit s)) /\
  deps (effects (settle s)) = depsOf (hooks (commit s)).
Proof.
  unfold settle.
  destruct (commit_cells (commit s)) as (Eh & Er & Et & Ed).
  destruct (commit_cells s) as (_ & _ & _ & Ed0).
  destruct (commit_keeps s) as (Ks & Ki & KD & _).
  assert (Ci : changedIndex (commit s) = false).
  { unfold changedIndex. rewrite Ed0, Ki. cbn. now rewrite Z.eqb_refl. }
  assert (Cs : changedStarted (commit s) = false).
  { unfold changedStarted. rewrite Ed0, Ks. cbn. now rewrite eqb_reflx. }
  assert (CD : changedDuration (commit s) = false).
  { unfold changedDuration. rewrite Ed0, KD. cbn. now rewrite Z.eqb_refl. }
  rewrite Ci, Cs, CD in Eh. rewrite Ci in Er, Et. cbn in Eh.
  repeat split; assumption.
Qed.

(** Two commits bring the component to rest. *)
Lemma quiescent_settle s : quiescent (settle s).
Proof.
  destruct (settle_cells s) as (Eh & _ & _ & Ed).
  unfold quiescent. now rewrite Ed, Eh.
Qed.

Lemma Inv_settle s : Inv s -> Inv (settle s).
Proof. intros H. unfold settle. now apply Inv_commit, Inv_commit. Qed.

Lemma quiescent_advanceClock t s : quiescent s -> quiescent (advanceClock t s).
Proof. apply quiescent_ext. symmetry. apply clockOf_advanceClock. Qed.

Lemma Inv_dispatch t s : quiescent s -> Inv s -> Inv (dispatch t s).
Proof.
  intros Q H. pose proof (clockOf_dispatch t s) as E.
  destruct (cb t).
  - apply (Inv_ext (tickUpdater s)); [now symmetry|now apply Inv_tickUpdater].
  - apply (Inv_ext s); [now symmetry|assumption].
  - apply (Inv_ext s); [now symmetry|assumption].
  - apply (Inv_ext s); [now symmetry|assumption].
  - apply (Inv_ext s); [now symmetry|assumption].
Qed.

Lemma Inv_step s s' : Inv s -> step s s' -> Inv s'.
Proof.
  intros H St. destruct St.
  - apply (Inv_ext s); [symmetry; apply clockOf_advanceClock|assumption].
  - now apply Inv_handler.
  - now apply Inv_dispatch.
  - now apply Inv_commit.
Qed.

Lemma Inv_reachable s : reachable s -> Inv s.
Proof.
  induction 1 as [|s s' _ IH St]; [apply Inv_init|exact (Inv_step _ _ IH St)].
Qed.

Lemma reachable_settle s : reachable s -> reachable (settle s).
Proof.
  intros H. unfold settle.
  apply reach_step with (commit s); [|apply step_commit].
  apply reach_step with s; [assumption|apply step_commit].
Qed.

Lemma reachable_fire t s :
  reachable s -> quiescent s -> In t (timers (browser s)) -> reachable (fire t s).
Proof.
  intros H Q Hin. apply reachable_settle.
  apply reach_step with s; [assumption|now apply step_timer].
Qed.

Lemma reachable_click c s :
  reachable s -> quiescent s -> enabled c (hooks s) = true -> reachable (click c s).
Proof.
  intros H Q En. apply reachable_settle.
  apply reach_step with s; [assumption|now apply step_click].
Qed.

Lemma nextTimer_In l t : nextTimer l = Some t -> In t l.
Proof.
  revert t. induction l as [|u l IH]; intros t; cbn; [discriminate|].
  destruct (nextTimer l) as [v|].
  - destruct (due v <? due u); intros E; injection E as <-.
    + right. now apply IH.
    + now left.
  - intros E. injection E as <-. now left.
Qed.

(** A run of the event loop only passes through states of [reachable], and
    ends at rest. *)
Lemma elapseTo_reachable fuel t s s' :
  reachable s -> quiescent s -> elapseTo fuel t s = Some s' ->
  reachable s' /\ quiescent s'.
Proof.
  revert s. induction fuel as [|fuel IH]; intros s R Q; cbn.
  - destruct (nextTimer (timers (browser s))) as [tm|].
    + destruct (due tm <=? t); [discriminate|].
      intros E. injection E as <-. split.
      * apply reach_step with s; [assumption|apply step_wait].
      * now apply quiescent_advanceClock.
    + intros E. injection E as <-. split.
      * apply reach_step with s; [assumption|apply step_wait].
      * now apply quiescent_advanceClock.
  - destruct (nextTimer (timers (browser s))) as [tm|] eqn:En.
    + destruct (due tm <=? t).
      * apply IH.
        -- apply reachable_fire; [assumption|assumption|now apply nextTimer_In].
        -- apply quiescent_settle.
      * intros E. injection E as <-. split.
        -- apply reach_step with s; [assumption|apply step_wait].
        -- now apply quiescent_advanceClock.
    + intros E. injection E as <-. split.
      * apply reach_step with s; [assumption|apply step_wait].
      * now apply quiescent_advanceClock.
Qed.

Lemma session_reachable m t s :
  session m t = Some s -> reachable s /\ quiescent s.
Proof.
  apply elapseTo_reachable.
  - apply reachable_click; [apply reach_init|apply quiescent_init|reflexivity].
  - apply quiescent_settle.
Qed.

(** ** One tick of the phase timer *)

Lemma clockOf_settle s : clockOf (settle s) = commitClock (commitClock (clockOf s)).
Proof. unfold settle. now rewrite !clockOf_commit. Qed.

Lemma clockOf_fire_tick t s :
  cb t = CbTick ->
  clockOf (fire t s) = commitClock (commitClock (clockOf (tickUpdater s))).
Proof.
  intros E. unfold fire. rewrite clockOf_settle.
  pose proof (clockOf_dispatch t s) as D. rewrite E in D. now rewrite D.
Qed.

(** A tick that finds a running component at rest: above the tick size the
    remaining time drops by 1000; at or below it the index advances by one
    and the remaining time is reset, or, in the last phase, the remaining
    time becomes 0.  The component is at rest again, guard open. *)
Lemma fire_tick t s :
  cb t = CbTick -> quiescent s -> Inv s -> started (hooks s) = true ->
  let h := hooks s in
  let h' :=
    if remaining h <=? 1000 then
      if phaseIndex h <? 4
      then setRemaining (phaseDurationMs h) (setPhaseIndex (phaseIndex h + 1) h)
      else setRemaining 0 h
    else setRemaining (remaining h - 1000) h in
  clockOf (fire t s) = (h', phaseIndex h', false, depsOf h').
Proof.
  intros E Q (H1 & H2 & H3 & H4) St. cbv zeta.
  rewrite (clockOf_fire_tick _ _ E).
  unfold quiescent in Q.
  assert (Hd : d_phaseIndex (deps (effects s)) = phaseIndex (hooks s))
    by (rewrite Q; reflexivity).
  destruct (H4 Hd) as [Hr Ht]. specialize (H3 St). clear H4 Hd.
  unfold clockOf, tickUpdater. rewrite Hr, Ht, PHASES_last. cbn [negb].
  rewrite andb_true_r.
  destruct s as [[st pi D rem amb] rf [d oc tc] b]. cbn in *. subst d st.
  destruct (Z.leb_spec rem 1000) as [Hle|Hgt].
  - destruct (Z.ltb_spec pi 4) as [Hlt|Hge]; cbn.
    + replace (pi =? pi + 1) with false by (symmetry; apply Z.eqb_neq; lia).
      cbn. rewrite ?Z.eqb_refl. cbn. rewrite ?Z.eqb_refl. reflexivity.
    + rewrite ?Z.eqb_refl. cbn. rewrite ?Z.eqb_refl. cbn.
      replace (Z.max 0 (rem - 1000)) with 0 by lia. now rewrite Hr, Ht.
  - cbn. rewrite ?Z.eqb_refl. cbn. rewrite ?Z.eqb_refl. cbn. now rewrite Hr, Ht.
Qed.

(** ** Runs of ticks *)

Lemma tickTimer_spec s t :
  tickTimer s = Some t -> In t (timers (browser s)) /\ cb t = CbTick.
Proof.
  unfold tickTimer. intros H. apply find_some in H. destruct H as [Hin Hc].
  split; [assumption|]. unfold isTick in Hc. destruct (cb t); congruence.
Qed.

Lemma tickN_ticks k s s' : tickN k s = Some s' -> ticks k s s'.
Proof.
  revert s'. induction k as [|k IH]; intros s'; cbn.
  - intros E. injection E as <-. constructor.
  - destruct (tickN k s) as [x|]; [|discriminate].
    destruct (tickTimer x) as [t|] eqn:Et; [|discriminate].
    intros E. injection E as <-.
    destruct (tickTimer_spec _ _ Et).
    apply ticks_S; [apply IH; reflexivity|assumption|assumption].
Qed.

Lemma clock_cells s h r g d :
  clockOf s = (h, r, g, d) ->
  hooks s = h /\ phaseIndexRef (refs s) = r /\
  isTransitioningRef (refs s) = g /\ deps (effects s) = d.
Proof.
  unfold clockOf. intros E.
  repeat split.
  - exact (f_equal (fun x => fst (fst (fst x))) E).
  - exact (f_equal (fun x => snd (fst (fst x))) E).
  - exact (f_equal (fun x => snd (fst x)) E).
  - exact (f_equal snd E).
Qed.

(** What one tick does to the cells, and that it leaves the component
    running, at rest and within the invariant. *)
Lemma fire_tick_hooks t s :
  cb t = CbTick -> quiescent s -> Inv s -> started (hooks s) = true ->
  hooks (fire t s) =
    (if remaining (hooks s) <=? 1000 then
       if phaseIndex (hooks s) <? 4
       then setRemaining (phaseDurationMs (hooks s))
              (setPhaseIndex (phaseIndex (hooks s) + 1) (hooks s))
       else setRemaining 0 (hooks s)
     else setRemaining (remaining (hooks s) - 1000) (hooks s)) /\
  quiescent (fire t s) /\ Inv (fire t s) /\
  started (hooks (fire t s)) = true /\
  phaseDurationMs (hooks (fire t s)) = phaseDurationMs (hooks s).
Proof.
  intros E Q I St.
  pose proof (fire_tick t s E Q I St) as F. cbv zeta in F.
  apply clock_cells in F. destruct F as (Fh & _ & _ & _).
  split; [exact Fh|]. split; [apply quiescent_settle|].
  split; [apply Inv_settle, Inv_dispatch; assumption|].
  rewrite Fh. destruct (_ <=? _); [destruct (_ <? _)|]; cbn; auto.
Qed.

Lemma ticks_keep k s s' :
  ticks k s s' ->
  quiescent s -> Inv s -> started (hooks s) = true ->
  quiescent s' /\ Inv s' /\ started (hooks s') = true /\
  phaseDurationMs (hooks s') = phaseDurationMs (hooks s) /\
  phaseIndex (hooks s) <= phaseIndex (hooks s').
Proof.
  induction 1 as [|k x x' t _ IH Hin Hc]; intros Hq Hi Hs.
  - split; [assumption|]. split; [assumption|]. split; [assumption|].
    split; [reflexivity|lia].
  - destruct (IH Hq Hi Hs) as (Q & I & St & HD & Hle).
    destruct (fire_tick_hooks t x' Hc Q I St) as (Fh & Q' & I' & St' & HD').
    split; [assumption|]. split; [assumption|]. split; [assumption|].
    split; [congruence|].
    rewrite Fh. destruct (_ <=? _); [destruct (_ <? _)|]; cbn; lia.
Qed.

Lemma ticks_remaining k s s' :
  ticks k s s' ->
  quiescent s -> Inv s -> started (hooks s) = true ->
  remaining (hooks s) = phaseDurationMs (hooks s) ->
  phaseIndex (hooks s') = phaseIndex (hooks s) ->
  remaining (hooks s') = Z.max 0 (phaseDurationMs (hooks s) - Z.of_nat k * 1000).
Proof.
  induction 1 as [|k x x' t T IH Hin Hc]; intros Hq Hi Hs Hrem Hidx.
  - destruct Hi as (_ & HD & _). cbn. lia.
  - destruct (ticks_keep _ _ _ T Hq Hi Hs) as (Q & I & St & HD & Hle).
    destruct (fire_tick_hooks t x' Hc Q I St) as (Fh & _).
    pose proof I as (I1 & I2 & I3 & _). specialize (I3 St).
    rewrite Fh in Hidx |- *. rewrite Nat2Z.inj_succ.
    destruct (Z.leb_spec (remaining (hooks x')) 1000) as [Hle1|Hgt1];
      [destruct (Z.ltb_spec (phaseIndex (hooks x')) 4) as [Hlt|Hge]|];
      cbn in Hidx |- *; try lia;
      specialize (IH Hq Hi Hs Hrem ltac:(lia)); lia.
Qed.

(** ** Checking a run at given times *)

Lemma Zrange_In a n k : a <= k < a + Z.of_nat n -> In k (Zrange a n).
Proof.
  revert a. induction n as [|n IH]; intros a H; [lia|].
  cbn [Zrange]. destruct (Z.eq_dec a k) as [->|Hne]; [now left|].
  right. apply IH. lia.
Qed.

Lemma session_at_time m t s (P : State -> Prop) :
  session m t = Some s -> P s -> at_time m t P.
Proof.
  unfold at_time, session. intros E H. exists 4000%nat, s. split; assumption.
Qed.

(** ** The event loop, cut at an intermediate time *)

Lemma advanceAudio_twice d1 d2 a :
  advanceAudio d2 (advanceAudio d1 a) = advanceAudio (d1 + d2) a.
Proof.
  unfold advanceAudio. destruct (paused a) eqn:E; [now rewrite E|].
  cbn. rewrite E. unfold set_currentTime. cbn. f_equal. lia.
Qed.

Lemma advanceAudio_twice_opt d1 d2 a :
  option_map (advanceAudio d2) (option_map (advanceAudio d1) a)
  = option_map (advanceAudio (d1 + d2)) a.
Proof. destruct a; cbn; [now rewrite advanceAudio_twice|reflexivity]. Qed.

Lemma advanceClock_twice a b s :
  a <= b -> advanceClock b (advanceClock a s) = advanceClock b s.
Proof.
  intros Hab. unfold advanceClock.
  destruct (Z.leb_spec (a - now (browser s)) 0) as [H1|H1]; [reflexivity|].
  cbn [browser now refs hooks effects nextTimerId timers calls
       audioRef omAudioRef chimeAudioRef phaseIndexRef isTransitioningRef].
  destruct (Z.leb_spec (b - a) 0) as [H2|H2].
  - assert (b = a) by lia. subst b.
    destruct (Z.leb_spec (a - now (browser s)) 0); [lia|reflexivity].
  - destruct (Z.leb_spec (b - now (browser s)) 0); [lia|].
    rewrite !advanceAudio_twice_opt.
    replace (a - now (browser s) + (b - a)) with (b - now (browser s)) by ring.
    reflexivity.
Qed.

Lemma timers_advanceClock t s :
  timers (browser (advanceClock t s)) = timers (browser s).
Proof. unfold advanceClock. destruct (_ <=? _); reflexivity. Qed.

Lemma fire_after_wait tm t s :
  t <= due tm -> fire tm (advanceClock t s) = fire tm s.
Proof.
  intros H. unfold fire, dispatch. now rewrite (advanceClock_twice _ _ _ H).
Qed.

(** Waiting first, to a time by which nothing is due, changes nothing. *)
Lemma elapseTo_after_wait fuel t1 t2 s :
  t1 <= t2 ->
  match nextTimer (timers (browser s)) with
  | Some tm => t1 <= due tm
  | None => True
  end ->
  elapseTo fuel t2 (advanceClock t1 s) = elapseTo fuel t2 s.
Proof.
  intros H12 Hn.
  destruct fuel as [|fuel]; cbn [elapseTo]; rewrite timers_advanceClock;
    destruct (nextTimer (timers (browser s))) as [tm|];
    rewrite ?(advanceClock_twice _ _ _ H12); try reflexivity;
    destruct (due tm <=? t2); try reflexivity.
  now rewrite fire_after_wait.
Qed.

Lemma elapseTo_more_fuel f k t s r :
  elapseTo f t s = Some r -> elapseTo (f + k) t s = Some r.
Proof.
  revert s. induction f as [|f IH]; intros s.
  - cbn [elapseTo]. destruct k; cbn [Nat.add elapseTo];
      destruct (nextTimer (timers (browser s))) as [tm|]; try (intros E; exact E);
      destruct (due tm <=? t); try discriminate; intros E; exact E.
  - cbn [Nat.add elapseTo].
    destruct (nextTimer (timers (browser s))) as [tm|]; [|intros E; exact E].
    destruct (due tm <=? t); [apply IH|intros E; exact E].
Qed.

(** A run to [t2] can be cut at any earlier time [t1]. *)
Lemma elapseTo_cut f1 f2 t1 t2 s s1 r :
  t1 <= t2 ->
  elapseTo f1 t1 s = Some s1 -> elapseTo f2 t2 s1 = Some r ->
  elapseTo (f1 + f2) t2 s = Some r.
Proof.
  intros H12. revert s. induction f1 as [|f1 IH]; intros s E1 E2.
  - cbn [elapseTo] in E1.
    destruct (nextTimer (timers (browser s))) as [tm|] eqn:En.
    + destruct (Z.leb_spec (due tm) t1) as [Hd|Hd]; [discriminate|].
      injection E1 as <-. rewrite elapseTo_after_wait in E2;
        [exact E2|exact H12|rewrite En; lia].
    + injection E1 as <-. rewrite elapseTo_after_wait in E2;
        [exact E2|exact H12|now rewrite En].
  - cbn [elapseTo] in E1.
    destruct (nextTimer (timers (browser s))) as [tm|] eqn:En.
    + destruct (Z.leb_spec (due tm) t1) as [Hd|Hd].
      * cbn [Nat.add elapseTo]. rewrite En.
        destruct (Z.leb_spec (due tm) t2) as [_|Hd2]; [|lia].
        now apply IH.
      * injection E1 as <-. rewrite elapseTo_after_wait in E2;
          [|exact H12|rewrite En; lia].
        rewrite Nat.add_comm. now apply elapseTo_more_fuel.
    + injection E1 as <-. rewrite elapseTo_after_wait in E2;
        [|exact H12|now rewrite En].
      rewrite Nat.add_comm. now apply elapseTo_more_fuel.
Qed.

(** Every check of a pass that succeeded holds of the run at its time. *)
Lemma checkRun_sound fuel cs :
  forall lo s s0 F,
    elapseTo F lo s0 = Some s -> checkRun fuel lo s cs = true ->
    forall t P, In (t, P) cs ->
                exists F' s', elapseTo F' t s0 = Some s' /\ P s' = true.
Proof.
  induction cs as [|[t1 P1] cs IH]; intros lo s s0 F E0 H t P Hin; [destruct Hin|].
  cbn [checkRun] in H. apply andb_prop in H. destruct H as [Hlo H].
  apply Z.leb_le in Hlo.
  destruct (elapseTo fuel t1 s) as [s1|] eqn:E1; [|discriminate].
  apply andb_prop in H. destruct H as [HP H].
  pose proof (elapseTo_cut _ _ _ _ _ _ _ Hlo E0 E1) as E01.
  destruct Hin as [Hin|Hin].
  - injection Hin as <- <-. now exists (F + fuel)%nat, s1.
  - exact (IH t1 s1 s0 (F + fuel)%nat E01 H t P Hin).
Qed.

Lemma start_at_0 m :
  elapseTo 1 0 (click (ClickStart m) init) = Some (click (ClickStart m) init).
Proof. destruct m; vm_compute; reflexivity. Qed.

(** The same for a run from the start screen. *)
Lemma checkRun_at_time m fuel cs (Pb : State -> bool) (P : State -> Prop) t :
  checkRun fuel 0 (click (ClickStart m) init) cs = true ->
  (forall s, Pb s = true -> P s) ->
  In (t, Pb) cs -> at_time m t P.
Proof.
  intros H HP Hin.
  destruct (checkRun_sound fuel cs 0 _ _ 1%nat (start_at_0 m) H t Pb Hin)
    as (F & s & E & Hs).
  exists F, s. split; [exact E|now apply HP].
Qed.

(** ** The session clock *)

Lemma click_start_hooks m s :
  hooks (click (ClickStart m) s) =
  mkHooks true 0 (perPhase m) (perPhase m) (ambienceOn (hooks s)).
Proof.
  unfold click. destruct (settle_cells (handler (ClickStart m) s)) as (-> & _).
  destruct (commit_cells (handler (ClickStart m) s)) as (-> & _).
  destruct (_ && _); reflexivity.
Qed.

(** C1.  Starting a run of [m] minutes sets the index to 0 and both the
    per-phase duration and the remaining time to the duration chosen.  From
    any running state whose remaining time is the (positive) per-phase
    duration, [k] ticks of the phase timer during which the index has not
    moved leave [max 0 (phaseDurationMs - k * 1000)].  On the three runs the
    start screen offers, the state at time [k * 1000], while that is short
    of the phase length, has index 0 and [perPhase m - k * 1000] left. *)
Theorem tick_arithmetic :
  (forall m s0,
      let s := click (ClickStart m) s0 in
      started (hooks s) = true /\ phaseIndex (hooks s) = 0 /\
      phaseDurationMs (hooks s) = perPhase m /\ remaining (hooks s) = perPhase m) /\
  (forall s k s',
      quiescent s -> Inv s -> started (hooks s) = true ->
      0 < phaseDurationMs (hooks s) ->
      remaining (hooks s) = phaseDurationMs (hooks s) ->
      ticks k s s' ->
      phaseIndex (hooks s') = phaseIndex (hooks s) ->
      remaining (hooks s') =
        Z.max 0 (phaseDurationMs (hooks s) - Z.of_nat k * 1000)) /\
  (forall m k,
      0 <= k -> k * 1000 < perPhase m ->
      at_time m (k * 1000)
        (fun s => phaseIndex (hooks s) = 0 /\
                  remaining (hooks s) = perPhase m - k * 1000)).
Proof.
  split; [|split].
  - intros m s0 s. subst s. rewrite click_start_hooks. repeat split.
  - intros s k s' Q I St _ Hrem T Hidx. now apply ticks_remaining.
  - intros m k H0 Hk.
    assert (C : checkRun 5 0 (click (ClickStart m) init) (tickChecks m) = true)
      by (destruct m; vm_compute; reflexivity).
    apply (checkRun_at_time m 5 (tickChecks m) (snd (tickCheck m k))
             (fun s => phaseIndex (hooks s) = 0 /\
                       remaining (hooks s) = perPhase m - k * 1000)
             (k * 1000) C).
    + intros s E. cbn in E. apply andb_prop in E. destruct E as [E1 E2].
      split; [now apply Z.eqb_eq|now apply Z.eqb_eq].
    + apply (in_map (tickCheck m)). apply Zrange_In.
      destruct m; cbn in *; lia.
Qed.

(** The 2-minute run: 23 ticks after the start 1000 ms are left. *)
Lemma tick_arithmetic_witness :
  exists s', tickN 23 (click (ClickStart M2) init) = Some s' /\
             remaining (hooks s') = 1000.
Proof.
  destruct (tickN 23 (click (ClickStart M2) init)) as [s'|] eqn:E;
    [|vm_compute in E; discriminate].
  exists s'. split; [reflexivity|].
  pose proof (proj1 (proj2 tick_arithmetic) (click (ClickStart M2) init) 23%nat s')
    as H.
  cbv beta in H. rewrite click_start_hooks in H. cbn in H.
  rewrite H; [reflexivity| | | | | | | ].
  - apply quiescent_settle.
  - apply Inv_settle. apply Inv_handler; [apply quiescent_init|reflexivity|apply Inv_init].
  - reflexivity.
  - lia.
  - reflexivity.
  - now apply tickN_ticks.
  - assert (F : option_map (fun x => phaseIndex (hooks x))
                  (tickN 23 (click (ClickStart M2) init)) = Some 0)
      by (vm_compute; reflexivity).
    rewrite E in F. cbn in F. now injection F.
Defined.

(** C3.  In every state a run passes through, intermediate renders
    included, the remaining time lies between 0 and the per-phase duration,
    and the index is one of the five phases. *)
Theorem clock_invariant :
  forall s,
    reachable s -> started (hooks s) = true ->
    0 <= remaining (hooks s) <= phaseDurationMs (hooks s) /\
    0 <= phaseIndex (hooks s) < PHASES_length /\
    PHASES_length = 5.
Proof.
  intros s R St. destruct (Inv_reachable s R) as (H1 & H2 & H3 & _).
  rewrite PHASES_last in H1. change PHASES_length with 5.
  repeat split; try lia; apply (H3 St).
Qed.

(** The 2-minute run, 50 s in. *)
Lemma clock_invariant_witness :
  exists s, session M2 50000 = Some s /\
            0 <= remaining (hooks s) <= phaseDurationMs (hooks s) /\
            0 <= phaseIndex (hooks s) < PHASES_length /\
            PHASES_length = 5.
Proof.
  destruct (session M2 50000) as [s|] eqn:E; [|vm_compute in E; discriminate].
  exists s. split; [reflexivity|].
  apply (clock_invariant s).
  - apply (session_reachable M2 50000). exact E.
  - assert (F : option_map (fun x => started (hooks x)) (session M2 50000) = Some true)
      by (vm_compute; reflexivity).
    rewrite E in F. cbn in F. now injection F.
Defined.

(** ** The transition guard *)

(** While the guard is closed the updater leaves the index and the guard
    alone. *)
Lemma tickUpdater_guarded s :
  isTransitioningRef (refs s) = true ->
  phaseIndex (hooks (tickUpdater s)) = phaseIndex (hooks s) /\
  isTransitioningRef (refs (tickUpdater s)) = true.
Proof.
  intros H. unfold tickUpdater. rewrite H. cbn [negb]. rewrite andb_false_r.
  split; [reflexivity|exact H].
Qed.

(** The updater advances the index by at most one, and closes the guard
    when it does. *)
Lemma tickUpdater_advance s :
  phaseIndex (hooks (tickUpdater s)) = phaseIndex (hooks s) \/
  (phaseIndex (hooks (tickUpdater s)) = phaseIndex (hooks s) + 1 /\
   isTransitioningRef (refs (tickUpdater s)) = true).
Proof.
  unfold tickUpdater.
  destruct (_ && _); [destruct (_ <? _)|]; cbn; auto.
Qed.

(** However often the updater runs before the ref effect reopens the guard,
    the index advances at most once. *)
Lemma guard_single_advance n s :
  phaseIndex (hooks (Nat.iter n tickUpdater s)) = phaseIndex (hooks s) \/
  (phaseIndex (hooks (Nat.iter n tickUpdater s)) = phaseIndex (hooks s) + 1 /\
   isTransitioningRef (refs (Nat.iter n tickUpdater s)) = true).
Proof.
  induction n as [|n IH]; [now left|].
  change (Nat.iter (S n) tickUpdater s) with (tickUpdater (Nat.iter n tickUpdater s)).
  destruct IH as [IH|[IH Hg]].
  - destruct (tickUpdater_advance (Nat.iter n tickUpdater s)) as [H|[H Hg]].
    + left. congruence.
    + right. split; [congruence|assumption].
  - destruct (tickUpdater_guarded _ Hg) as [H Hg'].
    right. split; [congruence|assumption].
Qed.

(** C2.  In every state the component reaches at rest, a tick that finds
    the remaining time at or below the tick size while a next phase exists
    advances the index by exactly one and resets the remaining time to the
    per-phase duration; any other tick leaves the index alone.  The index
    never decreases under a tick and never exceeds [PHASES.length - 1].
    Between two runs of the ref effect the guard lets the updater advance
    the index at most once, however often it runs.  On the three runs the
    start screen offers this happens at every phase boundary: at time
    [k * 1000], short of the end of the fifth phase, the index is the number
    of phase lengths gone by and the remaining time is what is left of the
    phase under way, the whole per-phase duration at a boundary. *)
Theorem phase_advancement :
  (forall t s,
      cb t = CbTick -> quiescent s -> reachable s -> started (hooks s) = true ->
      let h := hooks s in
      let h' := hooks (fire t s) in
      (remaining h <= 1000 -> phaseIndex h < PHASES_length - 1 ->
       phaseIndex h' = phaseIndex h + 1 /\ remaining h' = phaseDurationMs h) /\
      (1000 < remaining h \/ phaseIndex h = PHASES_length - 1 ->
       phaseIndex h' = phaseIndex h) /\
      phaseIndex h <= phaseIndex h' <= phaseIndex h + 1 /\
      phaseIndex h' <= PHASES_length - 1 /\
      (forall n,
          phaseIndex (hooks (Nat.iter n tickUpdater s)) <= phaseIndex h + 1)) /\
  (forall m k,
      0 <= k -> k * 1000 < 5 * perPhase m ->
      at_time m (k * 1000)
        (fun s => phaseIndex (hooks s) = k * 1000 / perPhase m /\
                  remaining (hooks s) = perPhase m - (k * 1000) mod perPhase m)).
Proof.
  split.
  - intros t s E Q R St h h'. subst h h'.
    pose proof (Inv_reachable s R) as I.
    destruct (fire_tick_hooks t s E Q I St) as (Fh & _ & I' & _).
    destruct I as (I1 & _). destruct I' as (I1' & _).
    rewrite PHASES_last in *. rewrite Fh in *.
    destruct (Z.leb_spec (remaining (hooks s)) 1000) as [Hle|Hgt];
      [destruct (Z.ltb_spec (phaseIndex (hooks s)) 4) as [Hlt|Hge]|];
      cbn in *; (repeat split; try lia);
      intros n; destruct (guard_single_advance n s) as [H|[H _]]; lia.
  - intros m k H0 Hk.
    assert (C : checkRun 50 0 (click (ClickStart m) init) (phaseChecks m) = true)
      by (destruct m; vm_compute; reflexivity).
    apply (checkRun_at_time m 50 (phaseChecks m) (snd (phaseCheck m k))
             (fun s => phaseIndex (hooks s) = k * 1000 / perPhase m /\
                       remaining (hooks s) = perPhase m - (k * 1000) mod perPhase m)
             (k * 1000) C).
    + intros s E. cbn in E. apply andb_prop in E. destruct E as [E1 E2].
      split; [now apply Z.eqb_eq|now apply Z.eqb_eq].
    + apply (in_map (phaseCheck m)). apply Zrange_In.
      destruct m; cbn in *; lia.
Qed.

(** The 2-minute run: the tick after 23 s moves it to the second phase, the
    tick after 47 s to the third, each with the whole 24 s to go. *)
Lemma phase_advancement_witness :
  exists s1 t1 s2 t2,
    session M2 23000 = Some s1 /\ tickTimer s1 = Some t1 /\
    session M2 47000 = Some s2 /\ tickTimer s2 = Some t2 /\
    phaseIndex (hooks s1) = 0 /\
    phaseIndex (hooks (fire t1 s1)) = 1 /\
    remaining (hooks (fire t1 s1)) = 24000 /\
    phaseIndex (hooks s2) = 1 /\
    phaseIndex (hooks (fire t2 s2)) = 2 /\
    remaining (hooks (fire t2 s2)) = 24000.
Proof.
  destruct (session M2 23000) as [s1|] eqn:E1; [|vm_compute in E1; discriminate].
  destruct (session M2 47000) as [s2|] eqn:E2; [|vm_compute in E2; discriminate].
  destruct (tickTimer s1) as [t1|] eqn:Et1.
  2:{ assert (F : option_map tickTimer (session M2 23000) <> Some None)
        by (vm_compute; discriminate).
      rewrite E1 in F. cbn in F. congruence. }
  destruct (tickTimer s2) as [t2|] eqn:Et2.
  2:{ assert (F : option_map tickTimer (session M2 47000) <> Some None)
        by (vm_compute; discriminate).
      rewrite E2 in F. cbn in F. congruence. }
  assert (F1 : option_map (fun x => hooks x) (session M2 23000)
               = Some (mkHooks true 0 24000 1000 true))
    by (vm_compute; reflexivity).
  assert (F2 : option_map (fun x => hooks x) (session M2 47000)
               = Some (mkHooks true 1 24000 1000 true))
    by (vm_compute; reflexivity).
  rewrite E1 in F1. cbn in F1. injection F1 as F1.
  rewrite E2 in F2. cbn in F2. injection F2 as F2.
  destruct (session_reachable _ _ _ E1) as [R1 Q1].
  destruct (session_reachable _ _ _ E2) as [R2 Q2].
  destruct (tickTimer_spec _ _ Et1) as [_ Hc1].
  destruct (tickTimer_spec _ _ Et2) as [_ Hc2].
  pose proof (proj1 phase_advancement t1 s1 Hc1 Q1 R1) as P1.
  pose proof (proj1 phase_advancement t2 s2 Hc2 Q2 R2) as P2.
  cbv zeta in P1, P2. rewrite F1 in P1. rewrite F2 in P2. cbn in P1, P2.
  destruct (P1 eq_refl) as (P1a & _).
  destruct (P2 eq_refl) as (P2a & _).
  destruct (P1a ltac:(lia) ltac:(reflexivity)) as [Pa Pb].
  destruct (P2a ltac:(lia) ltac:(reflexivity)) as [Pc Pd].
  exists s1, t1, s2, t2. rewrite F1, F2. cbn. repeat split; assumption.
Defined.

(** C10.  On every phase transition the tick hands React a state in which
    the index has advanced while the remaining time is 0; the reset of the
    remaining time only comes with the effects of that render.  When the
    phase entered is the last one this intermediate state satisfies the
    completion predicate, which the state before it and the state after the
    reset do not. *)
Theorem transient_zero_remaining :
  forall t s,
    cb t = CbTick -> In t (timers (browser s)) ->
    reachable s -> quiescent s -> started (hooks s) = true ->
    remaining (hooks s) <= 1000 -> phaseIndex (hooks s) < PHASES_length - 1 ->
    let s1 := dispatch t s in
    step s s1 /\ reachable s1 /\ step s1 (commit s1) /\
    phaseIndex (hooks s1) = phaseIndex (hooks s) + 1 /\
    remaining (hooks s1) = 0 /\
    remaining (hooks (commit s1)) = phaseDurationMs (hooks s) /\
    (phaseIndex (hooks s) + 1 = PHASES_length - 1 ->
     isComplete (hooks s1) = true /\
     changedComplete s1 = true /\
     isComplete (hooks (commit s1)) = false).
Proof.
  intros t s E Hin R Q St Hrem Hidx s1.
  pose proof (Inv_reachable s R) as I.
  assert (S1 : step s s1) by now apply step_timer.
  split; [exact S1|]. split; [now apply reach_step with s|].
  split; [apply step_commit|].
  pose proof (clockOf_dispatch t s) as C. rewrite E in C. fold s1 in C.
  unfold clockOf in C.
  assert (Ch : hooks s1 = hooks (tickUpdater s))
    by exact (f_equal (fun x => fst (fst (fst x))) C).
  assert (Cd : deps (effects s1) = deps (effects (tickUpdater s)))
    by exact (f_equal snd C).
  destruct I as (I1 & I2 & I3 & I4). specialize (I3 St).
  unfold quiescent in Q.
  assert (Hd : d_phaseIndex (deps (effects s)) = phaseIndex (hooks s))
    by (rewrite Q; reflexivity).
  destruct (I4 Hd) as [Hr Ht].
  rewrite PHASES_last in *.
  assert (Th : hooks (tickUpdater s) =
               setRemaining 0 (setPhaseIndex (phaseIndex (hooks s) + 1) (hooks s))).
  { unfold tickUpdater. rewrite Hr, Ht, PHASES_last. cbn [negb].
    rewrite andb_true_r.
    destruct (Z.leb_spec (remaining (hooks s)) 1000); [|lia].
    destruct (Z.ltb_spec (phaseIndex (hooks s)) 4); [|lia].
    cbn. f_equal. lia. }
  assert (Td : deps (effects (tickUpdater s)) = deps (effects s)).
  { unfold tickUpdater. destruct (_ && _); [destruct (_ <? _)|]; reflexivity. }
  assert (Ci : changedIndex s1 = true).
  { unfold changedIndex. rewrite Cd, Td, Ch, Th, Q. cbn.
    apply negb_true_iff, Z.eqb_neq. lia. }
  destruct (commit_cells s1) as (Eh & _).
  rewrite Ci, Ch, Th in Eh. cbn in Eh. rewrite St in Eh. cbn in Eh.
  rewrite Ch, Th, Eh. cbn.
  repeat split.
  - unfold isComplete. cbn. rewrite St. change (PHASES_length - 1) with 4.
    replace (phaseIndex (hooks s) + 1 =? 4) with true by (symmetry; apply Z.eqb_eq; lia).
    reflexivity.
  - assert (Hc0 : isComplete (hooks s) = false).
    { unfold isComplete. change (PHASES_length - 1) with 4.
      replace (phaseIndex (hooks s) =? 4) with false
        by (symmetry; apply Z.eqb_neq; lia).
      now rewrite andb_false_r. }
    unfold changedComplete. rewrite Cd, Td, Ch, Th, Q.
    cbn [d_isComplete depsOf]. rewrite Hc0.
    unfold isComplete. cbn. rewrite St.
    change (PHASES_length - 1) with 4.
    replace (phaseIndex (hooks s) + 1 =? 4) with true by (symmetry; apply Z.eqb_eq; lia).
    reflexivity.
  - unfold isComplete. cbn. rewrite St.
    replace (phaseDurationMs (hooks s) =? 0) with false
      by (symmetry; apply Z.eqb_neq; lia).
    apply andb_false_r.
Qed.

(** The 2-minute run at 95 s, one tick before the last phase: the tick
    hands React a state that satisfies the completion predicate. *)
Lemma transient_zero_remaining_witness :
  exists s t, session M2 95000 = Some s /\ tickTimer s = Some t /\
              phaseIndex (hooks (dispatch t s)) = 4 /\
              remaining (hooks (dispatch t s)) = 0 /\
              isComplete (hooks (dispatch t s)) = true /\
              remaining (hooks (commit (dispatch t s))) = 24000.
Proof.
  destruct (session M2 95000) as [s|] eqn:E; [|vm_compute in E; discriminate].
  destruct (tickTimer s) as [t|] eqn:Et.
  2:{ assert (F : option_map tickTimer (session M2 95000) <> Some None)
        by (vm_compute; discriminate).
      rewrite E in F. cbn in F. congruence. }
  assert (F : option_map (fun x => hooks x) (session M2 95000)
              = Some (mkHooks true 3 24000 1000 true))
    by (vm_compute; reflexivity).
  rewrite E in F. cbn in F. injection F as F.
  destruct (session_reachable _ _ _ E) as [R Q].
  destruct (tickTimer_spec _ _ Et) as [Hin Hc].
  pose proof (transient_zero_remaining t s Hc Hin R Q) as P.
  cbv zeta in P. rewrite F in P. cbn in P.
  destruct (P eq_refl ltac:(lia) ltac:(reflexivity))
    as (_ & _ & _ & P1 & P2 & P3 & P4).
  destruct (P4 eq_refl) as (P5 & _).
  exists s, t. repeat split; assumption.
Defined.

(** ** Completion *)

Lemma option_key_eqb_refl k : option_key_eqb k k = true.
Proof. destruct k as [[]|]; reflexivity. Qed.

(** At rest a commit finds nothing to do. *)
Lemma commit_quiescent s : quiescent s -> commit s = s.
Proof.
  unfold quiescent. intros Q. unfold commit. cbv zeta.
  unfold changedStarted, changedIndex, changedKey, changedDuration,
    changedComplete, changedAmbience.
  rewrite Q. cbn [d_started d_phaseIndex d_key d_phaseDurationMs d_isComplete
                    d_ambienceOn depsOf].
  rewrite !eqb_reflx, !Z.eqb_refl, option_key_eqb_refl. cbn [negb orb runIf].
  rewrite <- Q. destruct s as [h r [d oc tc] b]. reflexivity.
Qed.

Lemma settle_quiescent s : quiescent s -> settle s = s.
Proof.
  intros Q. unfold settle. rewrite (commit_quiescent s Q). now apply commit_quiescent.
Qed.

Lemma stopped_stop a : stopped (Some (set_currentTime 0 (pause a))).
Proof. split; reflexivity. Qed.

Lemma completionEffect_stops h s :
  isComplete h = true -> allStopped (completionEffect h s).
Proof.
  intros H. unfold completionEffect. rewrite H.
  unfold allStopped, stopAudio.
  destruct (audioRef (refs s)) as [a|] eqn:Ea;
    destruct (omAudioRef (refs s)) as [o|] eqn:Eo;
    destruct (chimeAudioRef (refs s)) as [c|] eqn:Ec;
    cbn; rewrite ?Ea, ?Eo, ?Ec; cbn; rewrite ?Ea, ?Eo, ?Ec; cbn;
    rewrite ?Ea, ?Eo, ?Ec; cbn; repeat split.
Qed.

Lemma keepAmbienceEffect_complete h s :
  isComplete h = true -> keepAmbienceEffect h s = s.
Proof.
  intros H. unfold keepAmbienceEffect. rewrite H. cbn [negb].
  rewrite andb_false_r. now destruct (audioRef (refs s)).
Qed.

Lemma refs_omEffect h s : refs (omEffect h s) = refs s.
Proof. unfold omEffect. frame. Qed.

Lemma allStopped_muteEffect h s :
  isComplete h = true -> allStopped s -> allStopped (muteEffect h s).
Proof.
  intros H. unfold muteEffect, allStopped. rewrite H. cbn [negb].
  rewrite andb_false_r.
  destruct (audioRef (refs s)) as [a|] eqn:Ea; cbn; rewrite ?Ea; cbn; tauto.
Qed.

Lemma allStopped_refs s1 s2 : refs s1 = refs s2 -> allStopped s1 -> allStopped s2.
Proof. unfold allStopped. now intros ->. Qed.

(** A render in which only [isComplete] changed, to true, stops the three
    elements and leaves the cells alone. *)
Lemma commit_on_completion s :
  changedStarted s = false -> changedIndex s = false -> changedKey s = false ->
  changedDuration s = false -> changedAmbience s = false ->
  changedComplete s = true -> isComplete (hooks s) = true ->
  allStopped (commit s) /\ hooks (commit s) = hooks s.
Proof.
  intros C1 C2 C3 C4 C5 C6 H.
  split.
  - unfold commit. cbv zeta. rewrite C1, C2, C3, C4, C5, C6.
    cbn [orb runIf].
    apply (allStopped_refs
             (muteEffect (hooks s)
                (omEffect (hooks s)
                   (keepAmbienceEffect (hooks s)
                      (completionEffect (hooks s) (omEffectCleanup s)))))); [reflexivity|].
    apply allStopped_muteEffect; [assumption|].
    apply (allStopped_refs
             (keepAmbienceEffect (hooks s)
                (completionEffect (hooks s) (omEffectCleanup s))));
      [symmetry; apply refs_omEffect|].
    rewrite keepAmbienceEffect_complete by assumption.
    now apply completionEffect_stops.
  - destruct (commit_cells s) as (Eh & _). rewrite Eh, C1, C2, C4. reflexivity.
Qed.

Lemma advanceAudio_paused dt a : paused a = true -> advanceAudio dt a = a.
Proof. intros H. unfold advanceAudio. now rewrite H. Qed.

Lemma stopped_advance dt a :
  stopped a -> option_map (advanceAudio dt) a = a.
Proof.
  destruct a as [x|]; [|reflexivity]. intros [H _]. cbn.
  now rewrite advanceAudio_paused.
Qed.

(** Stopped elements do not move with the clock. *)
Lemma advanceClock_stopped t s :
  allStopped s ->
  hooks (advanceClock t s) = hooks s /\ refs (advanceClock t s) = refs s /\
  effects (advanceClock t s) = effects s.
Proof.
  intros (Ha & Ho & Hc). unfold advanceClock.
  destruct (_ <=? _); [repeat split|]. cbn.
  rewrite !stopped_advance by assumption.
  repeat split. now destruct (refs s).
Qed.

Lemma effects_tickUpdater s : effects (tickUpdater s) = effects s.
Proof.
  unfold tickUpdater.
  destruct ((remaining (hooks s) <=? 1000) && negb (isTransitioningRef (refs s)));
    [destruct (phaseIndexRef (refs s) <? PHASES_length - 1)|]; reflexivity.
Qed.

(** In the complete state, guard open, the updater changes nothing. *)
Lemma tickUpdater_complete s :
  remaining (hooks s) = 0 -> phaseIndexRef (refs s) = PHASES_length - 1 ->
  isTransitioningRef (refs s) = false -> tickUpdater s = s.
Proof.
  intros Hr Hp Ht. unfold tickUpdater. rewrite Hr, Hp, Ht. cbn.
  destruct s as [[st pi D rem amb] r e b]. cbn in *. now subst rem.
Qed.

Lemma dispatch_tick_complete t s :
  cb t = CbTick -> quiescent s -> Inv s ->
  phaseIndex (hooks s) = PHASES_length - 1 -> remaining (hooks s) = 0 ->
  allStopped s ->
  hooks (dispatch t s) = hooks s /\ refs (dispatch t s) = refs s /\
  effects (dispatch t s) = effects s.
Proof.
  intros E Q (_ & _ & _ & I4) Hp Hr Hs.
  assert (Hd : d_phaseIndex (deps (effects s)) = phaseIndex (hooks s))
    by (rewrite Q; reflexivity).
  destruct (I4 Hd) as [Hx Ht].
  destruct (advanceClock_stopped (due t) s Hs) as (Ah & Ar & Ae).
  unfold dispatch. rewrite E. cbn [runCallback].
  set (x := match period t with
            | None => upd_browser (clearTimer (Some (tid t))) (advanceClock (due t) s)
            | Some _ => advanceClock (due t) s
            end).
  assert (X : hooks x = hooks s /\ refs x = refs s /\ effects x = effects s)
    by (unfold x; destruct (period t); cbn; auto).
  destruct X as (Xh & Xr & Xe).
  rewrite tickUpdater_complete; cbn; rewrite ?Xh, ?Xr; auto.
  rewrite Hx, Hp. reflexivity.
Qed.

Lemma fire_tick_complete t s :
  cb t = CbTick -> quiescent s -> Inv s ->
  phaseIndex (hooks s) = PHASES_length - 1 -> remaining (hooks s) = 0 ->
  allStopped s ->
  hooks (fire t s) = hooks s /\ refs (fire t s) = refs s /\
  effects (fire t s) = effects s.
Proof.
  intros E Q I Hp Hr Hs.
  destruct (dispatch_tick_complete t s E Q I Hp Hr Hs) as (Dh & Dr & De).
  unfold fire. rewrite settle_quiescent; [auto|].
  unfold quiescent. now rewrite De, Dh.
Qed.

Lemma Inv_same s1 s2 :
  hooks s1 = hooks s2 -> refs s1 = refs s2 -> effects s1 = effects s2 ->
  Inv s1 -> Inv s2.
Proof. intros Eh Er Ee. apply Inv_ext. unfold clockOf. now rewrite Eh, Er, Ee. Qed.

(** Once complete and stopped, ticks change neither cells, refs nor the
    bookkeeping of the effects. *)
Lemma ticks_complete k s s' :
  ticks k s s' ->
  quiescent s -> Inv s ->
  phaseIndex (hooks s) = PHASES_length - 1 -> remaining (hooks s) = 0 ->
  allStopped s ->
  hooks s' = hooks s /\ refs s' = refs s /\ effects s' = effects s.
Proof.
  induction 1 as [|k x x' t _ IH Hin Hc]; intros Q I Hp Hr Hs; [auto|].
  destruct (IH Q I Hp Hr Hs) as (Eh & Er & Ee).
  destruct (fire_tick_complete t x' Hc) as (Fh & Fr & Fe).
  - unfold quiescent. rewrite Ee, Eh. exact Q.
  - now apply (Inv_same x).
  - now rewrite Eh.
  - now rewrite Eh.
  - now apply (allStopped_refs x).
  - repeat split; congruence.
Qed.

(** The end of the last phase.  The tick that takes the remaining time of
    the last phase from above 0 to 0 completes the session: the completion
    predicate holds, ambience, hum and chime are paused at position 0, and
    whatever further ticks the phase timer delivers change neither a state
    cell nor a ref, the audio elements included. *)
Theorem completion_is_terminal :
  forall t s,
    cb t = CbTick -> quiescent s -> Inv s -> started (hooks s) = true ->
    phaseIndex (hooks s) = PHASES_length - 1 ->
    0 < remaining (hooks s) <= 1000 ->
    let s' := fire t s in
    remaining (hooks s') = 0 /\ isComplete (hooks s') = true /\
    allStopped s' /\
    (forall k s'',
        ticks k s' s'' ->
        hooks s'' = hooks s' /\ refs s'' = refs s' /\ effects s'' = effects s').
Proof.
  intros t s E Q I St Hp Hrem s'.
  assert (Hh : hooks s' = setRemaining 0 (hooks s)).
  { destruct (fire_tick_hooks t s E Q I St) as (Fh & _). unfold s'. rewrite Fh.
    rewrite PHASES_last in Hp. rewrite Hp.
    destruct (Z.leb_spec (remaining (hooks s)) 1000); [reflexivity|lia]. }
  assert (Hc : isComplete (hooks s') = true).
  { rewrite Hh. unfold isComplete. cbn. rewrite St, Hp, Z.eqb_refl. reflexivity. }
  assert (Hs : allStopped s').
  { pose proof (clockOf_dispatch t s) as C. rewrite E in C.
    apply eq_sym, clock_cells in C. destruct C as (Ch & Cr & Cg & Cd).
    pose proof I as (_ & _ & _ & I4).
    assert (Hd : d_phaseIndex (deps (effects s)) = phaseIndex (hooks s))
      by (rewrite Q; reflexivity).
    destruct (I4 Hd) as [Hx Ht].
    assert (Th : hooks (tickUpdater s) = setRemaining 0 (hooks s)).
    { unfold tickUpdater. rewrite Hx, Ht, Hp. cbn [negb]. rewrite andb_true_r.
      destruct (Z.leb_spec (remaining (hooks s)) 1000); [|lia].
      rewrite Z.ltb_irrefl. cbn. f_equal. lia. }
    pose proof (effects_tickUpdater s) as Td.
    assert (Hc0 : isComplete (hooks s) = false).
    { unfold isComplete.
      replace (remaining (hooks s) =? 0) with false
        by (symmetry; apply Z.eqb_neq; lia).
      apply andb_false_r. }
    set (d := dispatch t s) in *.
    assert (Hcd : isComplete (hooks d) = true) by (rewrite <- Ch, Th, <- Hh; exact Hc).
    destruct (commit_on_completion d) as (A & B).
    - unfold changedStarted. rewrite <- Cd, Td, <- Ch, Th, Q. cbn.
      now rewrite eqb_reflx.
    - unfold changedIndex. rewrite <- Cd, Td, <- Ch, Th, Q. cbn.
      now rewrite Z.eqb_refl.
    - unfold changedKey. rewrite <- Cd, Td, <- Ch, Th, Q. cbn.
      change (currentKey (setRemaining 0 (hooks s))) with (currentKey (hooks s)).
      now rewrite option_key_eqb_refl.
    - unfold changedDuration. rewrite <- Cd, Td, <- Ch, Th, Q. cbn.
      now rewrite Z.eqb_refl.
    - unfold changedAmbience. rewrite <- Cd, Td, <- Ch, Th, Q. cbn.
      now rewrite eqb_reflx.
    - unfold changedComplete. rewrite <- Cd, Td, Q. cbn [d_isComplete depsOf].
      now rewrite Hc0, Hcd.
    - exact Hcd.
    - unfold s', fire, settle. fold d.
      rewrite (commit_quiescent (commit d)); [exact A|].
      unfold quiescent. destruct (commit_cells d) as (_ & _ & _ & Ed).
      now rewrite Ed, B. }
  split; [now rewrite Hh|]. split; [exact Hc|]. split; [exact Hs|].
  intros k s'' T.
  apply (ticks_complete k s' s'' T).
  - apply quiescent_settle.
  - apply Inv_settle, Inv_dispatch; assumption.
  - rewrite Hh. exact Hp.
  - now rewrite Hh.
  - exact Hs.
Qed.

(** The 2-minute run at 119 s: the next tick completes it, and ten more
    ticks change nothing. *)
Lemma completion_is_terminal_witness :
  exists s t s'',
    session M2 119000 = Some s /\ tickTimer s = Some t /\
    isComplete (hooks (fire t s)) = true /\ allStopped (fire t s) /\
    tickN 10 (fire t s) = Some s'' /\
    hooks s'' = hooks (fire t s) /\ refs s'' = refs (fire t s).
Proof.
  destruct (session M2 119000) as [s|] eqn:E; [|vm_compute in E; discriminate].
  destruct (tickTimer s) as [t|] eqn:Et.
  2:{ assert (F : option_map tickTimer (session M2 119000) <> Some None)
        by (vm_compute; discriminate).
      rewrite E in F. cbn in F. congruence. }
  assert (F : option_map (fun x => hooks x) (session M2 119000)
              = Some (mkHooks true 4 24000 1000 true))
    by (vm_compute; reflexivity).
  rewrite E in F. cbn in F. injection F as F.
  assert (G : option_map
                (fun x => match tickTimer x with
                          | Some u => match tickN 10 (fire u x) with
                                      | Some _ => true
                                      | None => false
                                      end
                          | None => false
                          end) (session M2 119000) = Some true)
    by (vm_compute; reflexivity).
  rewrite E in G. cbv beta iota delta [option_map] in G. rewrite Et in G.
  destruct (tickN 10 (fire t s)) as [s''|] eqn:En; [|discriminate].
  destruct (session_reachable _ _ _ E) as [R Q].
  destruct (tickTimer_spec _ _ Et) as [Hin Hc].
  pose proof (completion_is_terminal t s Hc Q (Inv_reachable s R)) as P.
  cbv zeta in P. rewrite F in P. cbn in P.
  destruct (P eq_refl eq_refl ltac:(lia)) as (_ & P2 & P3 & P4).
  destruct (P4 10%nat s'' (tickN_ticks _ _ _ En)) as (P5 & P6 & _).
  exists s, t, s''. repeat split; try assumption; apply P3.
Defined.

(** After completion the interval of the phase timer is still armed: its
    callback keeps running once a second and finds nothing to change. *)
Lemma tick_timer_armed_after_completion :
  option_map (fun s => (isComplete (hooks s), option_map cb (tickTimer s)))
    (session M2 125000)
  = Some (true, Some CbTick).
Proof. vm_compute. reflexivity. Qed.

(** The completion effect runs on the render that opens the last phase: in
    the 2-minute run the ambience is paused at 96 s and started again by
    the two ambience effects of the next render. *)
Lemma ambience_restarts_at_last_transition :
  option_map
    (fun s => rev (map snd
                     (filter (fun c => match c with
                                       | (t, Ambience, _) => t =? 96000
                                       | _ => false
                                       end) (calls (browser s)))))
    (session M2 96000)
  = Some [CallPause; CallPlay; CallPlay].
Proof. vm_compute. reflexivity. Qed.

(** C5.  The completion predicate holds for the first time when the last
    phase is reached, not when it ends.  In the 2-minute run the tick at
    96 s hands React a render with the last index and a remaining time of 0:
    [isComplete] is true and has changed, so the completion effect runs.
    The effects of the same render reset the remaining time, and at rest
    the session is not complete: 24 s remain, the ambience and the chime are
    sounding, and 4 s later the phase timer has taken the remaining time
    down to 20 s. *)
Lemma completion_at_last_transition :
  exists s t,
    session M2 95000 = Some s /\ tickTimer s = Some t /\
    reachable (dispatch t s) /\
    phaseIndex (hooks (dispatch t s)) = PHASES_length - 1 /\
    remaining (hooks (dispatch t s)) = 0 /\
    isComplete (hooks (dispatch t s)) = true /\
    changedComplete (dispatch t s) = true /\
    reachable (fire t s) /\ quiescent (fire t s) /\
    isComplete (hooks (fire t s)) = false /\
    remaining (hooks (fire t s)) = 24000 /\
    (exists a, audioRef (refs (fire t s)) = Some a /\ paused a = false) /\
    (exists a, chimeAudioRef (refs (fire t s)) = Some a /\ paused a = false) /\
    ~ allStopped (fire t s) /\
    option_map hooks (session M2 100000) = Some (mkHooks true 4 24000 20000 true).
Proof.
  destruct (session M2 95000) as [s|] eqn:E; [|vm_compute in E; discriminate].
  destruct (tickTimer s) as [t|] eqn:Et.
  2:{ assert (F : option_map tickTimer (session M2 95000) <> Some None)
        by (vm_compute; discriminate).
      rewrite E in F. cbn in F. congruence. }
  assert (G : option_map
                (fun x =>
                   match tickTimer x with
                   | Some u =>
                       (phaseIndex (hooks (dispatch u x)) =? PHASES_length - 1)
                       && (remaining (hooks (dispatch u x)) =? 0)
                       && isComplete (hooks (dispatch u x))
                       && changedComplete (dispatch u x)
                       && negb (isComplete (hooks (fire u x)))
                       && (remaining (hooks (fire u x)) =? 24000)
                       && match audioRef (refs (fire u x)) with
                          | Some a => negb (paused a)
                          | None => false
                          end
                       && match chimeAudioRef (refs (fire u x)) with
                          | Some a => negb (paused a)
                          | None => false
                          end
                   | None => false
                   end) (session M2 95000) = Some true)
    by (vm_compute; reflexivity).
  rewrite E in G. cbv beta iota delta [option_map] in G. rewrite Et in G.
  destruct (_ && _) eqn:B in G; [clear G|discriminate G].
  apply andb_prop in B. destruct B as [B B8].
  apply andb_prop in B. destruct B as [B B7].
  apply andb_prop in B. destruct B as [B B6].
  apply andb_prop in B. destruct B as [B B5].
  apply andb_prop in B. destruct B as [B B4].
  apply andb_prop in B. destruct B as [B B3].
  apply andb_prop in B. destruct B as [B1 B2].
  apply Z.eqb_eq in B1, B2, B6. apply negb_true_iff in B5.
  destruct (session_reachable _ _ _ E) as [R Q].
  destruct (tickTimer_spec _ _ Et) as [Hin Hc].
  assert (Ha : exists a, audioRef (refs (fire t s)) = Some a /\ paused a = false).
  { destruct (audioRef (refs (fire t s))) as [a|]; [|discriminate B7].
    exists a. split; [reflexivity|now apply negb_true_iff]. }
  assert (Hch : exists a, chimeAudioRef (refs (fire t s)) = Some a /\ paused a = false).
  { destruct (chimeAudioRef (refs (fire t s))) as [a|]; [|discriminate B8].
    exists a. split; [reflexivity|now apply negb_true_iff]. }
  exists s, t.
  split; [reflexivity|]. split; [exact Et|].
  split; [apply reach_step with s; [assumption|now apply step_timer]|].
  split; [exact B1|]. split; [exact B2|]. split; [exact B3|]. split; [exact B4|].
  split; [now apply reachable_fire|]. split; [apply quiescent_settle|].
  split; [exact B5|]. split; [exact B6|]. split; [exact Ha|]. split; [exact Hch|].
  split.
  - intros (A & _). destruct Ha as (a & Ea & Pa). rewrite Ea in A.
    destruct A as [A _]. congruence.
  - vm_compute. reflexivity.
Qed.

(** ** Progress *)

Lemma per_phase_share : (100 / inject_Z PHASES_length == 20)%Q.
Proof. reflexivity. Qed.

Lemma inject_Z_pos (d : Z) : 0 < d -> (0 < inject_Z d)%Q.
Proof. intros H. change 0%Q with (inject_Z 0). now rewrite <- Zlt_Qlt. Qed.

Lemma fraction_bounds (r d : Z) :
  0 < d -> 0 <= r <= d -> (0 <= inject_Z r / inject_Z d <= 1)%Q.
Proof.
  intros Hd [H0 H1].
  pose proof (inject_Z_pos d Hd) as Hq.
  split.
  - apply Qle_shift_div_l; [exact Hq|]. rewrite Qmult_0_l.
    change 0%Q with (inject_Z 0). rewrite <- Zle_Qle. exact H0.
  - apply Qle_shift_div_r; [exact Hq|]. rewrite Qmult_1_l.
    rewrite <- Zle_Qle. exact H1.
Qed.

Lemma fraction_mono (r r' d : Z) :
  0 < d -> r' <= r -> (inject_Z r' / inject_Z d <= inject_Z r / inject_Z d)%Q.
Proof.
  intros Hd H.
  pose proof (inject_Z_pos d Hd) as Hq.
  apply Qmult_le_compat_r.
  - rewrite <- Zle_Qle. exact H.
  - apply Qlt_le_weak, Qinv_lt_0_compat, Hq.
Qed.

Lemma fraction_zero (r d : Z) :
  0 < d -> (inject_Z r / inject_Z d == 0)%Q -> r = 0.
Proof.
  intros Hd H.
  pose proof (inject_Z_pos d Hd) as Hq.
  assert (E : (inject_Z r == inject_Z r / inject_Z d * inject_Z d)%Q).
  { field. intros C. rewrite C in Hq. discriminate Hq. }
  rewrite H, Qmult_0_l in E. now apply (inject_Z_injective r 0).
Qed.

(** The value of [progress] on the cells of a run: [Math.min] never cuts. *)
Lemma progress_value h :
  0 <= phaseIndex h <= 4 -> 0 < phaseDurationMs h ->
  0 <= remaining h <= phaseDurationMs h ->
  (progress h ==
   20 * inject_Z (phaseIndex h)
   + 20 * (1 - inject_Z (remaining h) / inject_Z (phaseDurationMs h)))%Q.
Proof.
  intros Hi Hd Hr.
  pose proof (fraction_bounds _ _ Hd Hr) as [F0 F1].
  assert (I0 : (inject_Z (phaseIndex h) <= 4)%Q)
    by (change 4%Q with (inject_Z 4); rewrite <- Zle_Qle; lia).
  unfold progress. cbv zeta.
  set (x := (inject_Z (remaining h) / inject_Z (phaseDurationMs h))%Q) in *.
  set (e := (inject_Z (phaseIndex h) * (100 / inject_Z PHASES_length)
             + (1 - x) * (100 / inject_Z PHASES_length))%Q).
  assert (Ee : (e == 20 * inject_Z (phaseIndex h) + 20 * (1 - x))%Q).
  { unfold e. rewrite per_phase_share. ring. }
  destruct (Qlt_le_dec e 100) as [Hlt|Hge].
  - rewrite (Qmin_r _ _ Hlt). exact Ee.
  - rewrite (Qmin_l _ _ Hge). rewrite Ee in Hge. lra.
Qed.

Lemma inject_Z_le (a b : Z) : a <= b -> (inject_Z a <= inject_Z b)%Q.
Proof. intros H. now rewrite <- Zle_Qle. Qed.

(** [progress] in the states of a run: it is the share of the completed
    phases, 20 for each, plus 20 times the fraction of the current phase
    that has elapsed; it lies between 0 and 100 and is 100 exactly when the
    completion predicate holds.  From one state at rest to the next, across
    a tick and its renders, it does not decrease. *)
Theorem progress_properties :
  forall s,
    reachable s -> started (hooks s) = true ->
    let h := hooks s in
    (progress h ==
     20 * inject_Z (phaseIndex h)
     + 20 * (1 - inject_Z (remaining h) / inject_Z (phaseDurationMs h)))%Q /\
    (0 <= progress h <= 100)%Q /\
    ((progress h == 100)%Q <-> isComplete h = true) /\
    (forall t,
        cb t = CbTick -> quiescent s ->
        (progress h <= progress (hooks (fire t s)))%Q).
Proof.
  intros s R St h. subst h.
  set (h := hooks s) in *.
  pose proof (Inv_reachable s R) as I.
  pose proof I as (I1 & I2 & I3 & _). specialize (I3 St).
  rewrite PHASES_last in I1. fold h in I1, I2, I3.
  pose proof (progress_value h I1 I2 I3) as V.
  pose proof (fraction_bounds _ _ I2 I3) as [F0 F1].
  pose proof (inject_Z_le _ _ (proj1 I1)) as J0.
  pose proof (inject_Z_le _ _ (proj2 I1)) as J1.
  change (inject_Z 0) with 0%Q in J0. change (inject_Z 4) with 4%Q in J1.
  split; [exact V|]. split; [rewrite V; split; lra|]. split.
  - split.
    + intros E. rewrite V in E.
      assert (E4 : (4 <= inject_Z (phaseIndex h))%Q) by lra.
      change 4%Q with (inject_Z 4) in E4. rewrite <- Zle_Qle in E4.
      assert (Hi : phaseIndex h = 4) by lia.
      rewrite Hi in E. change (inject_Z 4) with 4%Q in E.
      assert (Ex : (inject_Z (remaining h) / inject_Z (phaseDurationMs h) == 0)%Q)
        by lra.
      apply fraction_zero in Ex; [|exact I2].
      unfold isComplete. rewrite St, Hi, Ex. reflexivity.
    + unfold isComplete. rewrite St. cbn [andb]. intros E.
      apply andb_prop in E. destruct E as [Ei Er].
      apply Z.eqb_eq in Ei, Er. rewrite PHASES_last in Ei.
      rewrite V, Ei, Er. change (inject_Z 4) with 4%Q.
      change (inject_Z 0) with 0%Q. unfold Qdiv. rewrite Qmult_0_l. reflexivity.
  - intros t Ht Q.
    destruct (fire_tick_hooks t s Ht Q I St) as (Fh & _ & I' & St' & _).
    pose proof I' as (K1 & K2 & K3 & _). specialize (K3 St').
    rewrite PHASES_last in K1.
    rewrite V, (progress_value _ K1 K2 K3). rewrite Fh. fold h.
    destruct (Z.leb_spec (remaining h) 1000) as [Hle|Hgt];
      [destruct (Z.ltb_spec (phaseIndex h) 4) as [Hlt|Hge]|]; cbn.
    + rewrite inject_Z_plus. change (inject_Z 1) with 1%Q.
      assert (Hone : (inject_Z (phaseDurationMs h) / inject_Z (phaseDurationMs h) == 1)%Q).
      { field. intros C. pose proof (inject_Z_pos _ I2) as P. rewrite C in P.
        discriminate P. }
      rewrite Hone. lra.
    + change (inject_Z 0) with 0%Q. unfold Qdiv at 2. rewrite Qmult_0_l. lra.
    + pose proof (fraction_mono (remaining h) (remaining h - 1000)
                    (phaseDurationMs h) I2 ltac:(lia)).
      lra.
Qed.

(** The 2-minute run, 50 s in. *)
Lemma progress_properties_witness :
  exists s, session M2 50000 = Some s /\
            (0 <= progress (hooks s) <= 100)%Q.
Proof.
  destruct (session M2 50000) as [s|] eqn:E; [|vm_compute in E; discriminate].
  exists s. split; [reflexivity|].
  apply (progress_properties s).
  - apply (session_reachable M2 50000). exact E.
  - assert (F : option_map (fun x => started (hooks x)) (session M2 50000) = Some true)
      by (vm_compute; reflexivity).
    rewrite E in F. cbn in F. now injection F.
Defined.

(** C4.  Over a run [progress] is not monotone from render to render.  The
    tick that ends a phase advances the index and leaves the reset of the
    remaining time to the effect of lines 331-337, one render later.  In the
    2-minute run the tick at 24 s hands React a render with 40 percent of
    progress (second phase, nothing remaining), and the next render shows
    20 percent.  The tick at 96 s hands React a render with 100 percent and
    the completion predicate true, and the next render shows 80 percent of
    a session that has 24 s to go. *)
Lemma progress_drops_after_transition :
  (exists s t,
      session M2 23000 = Some s /\ tickTimer s = Some t /\
      reachable (dispatch t s) /\ started (hooks (dispatch t s)) = true /\
      step (dispatch t s) (commit (dispatch t s)) /\
      (progress (hooks (dispatch t s)) == 40)%Q /\
      (progress (hooks (commit (dispatch t s))) == 20)%Q /\
      (progress (hooks (commit (dispatch t s))) < progress (hooks (dispatch t s)))%Q) /\
  (exists s t,
      session M2 95000 = Some s /\ tickTimer s = Some t /\
      reachable (dispatch t s) /\ started (hooks (dispatch t s)) = true /\
      step (dispatch t s) (commit (dispatch t s)) /\
      (progress (hooks (dispatch t s)) == 100)%Q /\
      isComplete (hooks (dispatch t s)) = true /\
      (progress (hooks (commit (dispatch t s))) == 80)%Q /\
      isComplete (hooks (commit (dispatch t s))) = false /\
      remaining (hooks (commit (dispatch t s))) = 24000).
Proof.
  split.
  - destruct (session M2 23000) as [s|] eqn:E; [|vm_compute in E; discriminate].
    destruct (tickTimer s) as [t|] eqn:Et.
    2:{ assert (F : option_map tickTimer (session M2 23000) <> Some None)
          by (vm_compute; discriminate).
        rewrite E in F. cbn in F. congruence. }
    assert (G : option_map
                  (fun x => match tickTimer x with
                            | Some u =>
                                (started (hooks (dispatch u x)),
                                 Qeq_bool (progress (hooks (dispatch u x))) 40,
                                 Qeq_bool (progress (hooks (commit (dispatch u x)))) 20)
                            | None => (false, false, false)
                            end) (session M2 23000) = Some (true, true, true))
      by (vm_compute; reflexivity).
    rewrite E in G. cbv beta iota delta [option_map] in G. rewrite Et in G.
    injection G as G1 G2 G3.
    apply Qeq_bool_iff in G2, G3.
    destruct (session_reachable _ _ _ E) as [R Q].
    destruct (tickTimer_spec _ _ Et) as [Hin Hc].
    exists s, t. repeat split; try assumption.
    + apply reach_step with s; [assumption|now apply step_timer].
    + apply step_commit.
    + rewrite G2, G3. reflexivity.
  - destruct (session M2 95000) as [s|] eqn:E; [|vm_compute in E; discriminate].
    destruct (tickTimer s) as [t|] eqn:Et.
    2:{ assert (F : option_map tickTimer (session M2 95000) <> Some None)
          by (vm_compute; discriminate).
        rewrite E in F. cbn in F. congruence. }
    assert (G : option_map
                  (fun x => match tickTimer x with
                            | Some u =>
                                started (hooks (dispatch u x))
                                && Qeq_bool (progress (hooks (dispatch u x))) 100
                                && isComplete (hooks (dispatch u x))
                                && Qeq_bool (progress (hooks (commit (dispatch u x)))) 80
                                && negb (isComplete (hooks (commit (dispatch u x))))
                                && (remaining (hooks (commit (dispatch u x))) =? 24000)
                            | None => false
                            end) (session M2 95000) = Some true)
      by (vm_compute; reflexivity).
    rewrite E in G. cbv beta iota delta [option_map] in G. rewrite Et in G.
    destruct (_ && _) eqn:B in G; [clear G|discriminate G].
    apply andb_prop in B. destruct B as [B B6].
    apply andb_prop in B. destruct B as [B B5].
    apply andb_prop in B. destruct B as [B B4].
    apply andb_prop in B. destruct B as [B B3].
    apply andb_prop in B. destruct B as [B1 B2].
    apply Qeq_bool_iff in B2, B4. apply negb_true_iff in B5. apply Z.eqb_eq in B6.
    destruct (session_reachable _ _ _ E) as [R Q].
    destruct (tickTimer_spec _ _ Et) as [Hin Hc].
    exists s, t. repeat split; try assumption.
    + apply reach_step with s; [assumption|now apply step_timer].
    + apply step_commit.
Qed.

(** ** The hum cue *)

Lemma omIsb_spec p x v s : omIsb p x v s = true -> omIs p x v s.
Proof.
  unfold omIsb, omIs. destruct (omAudioRef (refs s)) as [a|]; [|discriminate].
  intros H. apply andb_prop in H. destruct H as [H Hv].
  apply andb_prop in H. destruct H as [Hp Hx].
  repeat split.
  - now apply eqb_prop.
  - now apply Z.eqb_eq.
  - now apply Qeq_bool_iff.
Qed.

Lemma omVolumeb_spec v s : omVolumeb v s = true -> omVolume v s.
Proof.
  unfold omVolumeb, omVolume. destruct (omAudioRef (refs s)) as [a|]; [|discriminate].
  apply Qeq_bool_iff.
Qed.

(** The runs the start screen offers, each checked in one pass. *)
Lemma hum_envelopes_checked m :
  checkRun 200 0 (click (ClickStart m) init) (runChecks m) = true.
Proof. destruct m; vm_compute; reflexivity. Qed.

Lemma hum_times_checked m p :
  1 <= p <= 4 ->
  option_map (omPlaysIn m p) (session m ((p + 1) * perPhase m))
  = Some (humTimes m p).
Proof.
  intros Hp.
  assert (C : p = 1 \/ p = 2 \/ p = 3 \/ p = 4) by lia.
  destruct C as [C|[C|[C|C]]]; subst p; destruct m; vm_compute; reflexivity.
Qed.

Lemma in_humTimes m p j :
  0 <= j < perPhase m / 12000 ->
  In (p * perPhase m + 4000 + 12000 * j) (humTimes m p).
Proof.
  intros Hj. unfold humTimes.
  apply (in_map (fun j => p * perPhase m + 4000 + 12000 * j)).
  apply Zrange_In. lia.
Qed.

Lemma in_runChecks m p t0 c :
  1 <= p <= 4 -> In t0 (humTimes m p) -> In c (humChecks t0) ->
  In c (runChecks m).
Proof.
  intros Hp Ht Hc. unfold runChecks.
  apply in_flat_map. exists p. split.
  - cbn. lia.
  - apply in_flat_map. exists t0. now split.
Qed.

Lemma hum_fire_times m p :
  1 <= p <= 4 ->
  at_time m ((p + 1) * perPhase m) (fun s => omPlaysIn m p s = humTimes m p).
Proof.
  intros Hp. pose proof (hum_times_checked m p Hp) as H1.
  destruct (session m ((p + 1) * perPhase m)) as [s|] eqn:Es; [|discriminate].
  apply (session_at_time _ _ s _ Es).
  cbv beta iota delta [option_map] in H1. now injection H1.
Qed.

Lemma hum_envelope m p t0 :
  1 <= p <= 4 -> In t0 (humTimes m p) ->
  at_time m t0 (omIs false 0 (2 # 10)) /\
  at_time m (t0 + 7000) (omIs false 7000 (2 # 10)) /\
  (forall i, 0 <= i <= 20 ->
             at_time m (t0 + 7000 + 50 * i)
               (omVolume ((2 # 10) * (1 - inject_Z i / 20))%Q)) /\
  at_time m (t0 + 8000) (omIs true 0 0).
Proof.
  intros Hp Ht.
  pose proof (hum_envelopes_checked m) as H.
  split; [|split; [|split]].
  - apply (checkRun_at_time m 200 (runChecks m)
             (omIsb false 0 (2 # 10)) (omIs false 0 (2 # 10)) t0 H
             (omIsb_spec false 0 (2 # 10))).
    apply (in_runChecks m p t0 _ Hp Ht). left. reflexivity.
  - apply (checkRun_at_time m 200 (runChecks m)
             (omIsb false 7000 (2 # 10)) (omIs false 7000 (2 # 10)) (t0 + 7000) H
             (omIsb_spec false 7000 (2 # 10))).
    apply (in_runChecks m p t0 _ Hp Ht). right. left. reflexivity.
  - intros i Hi.
    apply (checkRun_at_time m 200 (runChecks m)
             (snd (fadeCheck t0 i))
             (omVolume ((2 # 10) * (1 - inject_Z i / 20))%Q)
             (t0 + 7000 + 50 * i) H
             (omVolumeb_spec ((2 # 10) * (1 - inject_Z i / 20))%Q)).
    apply (in_runChecks m p t0 (fadeCheck t0 i) Hp Ht). right. right.
    apply in_or_app. left.
    apply (in_map (fadeCheck t0)). apply Zrange_In. cbn. lia.
  - apply (checkRun_at_time m 200 (runChecks m)
             (omIsb true 0 0) (omIs true 0 0) (t0 + 8000) H
             (omIsb_spec true 0 0)).
    apply (in_runChecks m p t0 _ Hp Ht). right. right.
    apply in_or_app. right. left. reflexivity.
Qed.

(** C8.  In every phase but the first, of each of the three runs, the hum
    is played at 4 s into the phase and then every 12 s while the phase
    lasts, and at no other time of the phase.  Each hum starts at position 0
    with volume 0.2 and still plays so 7 s later; from then on the volume is
    [0.2 * (1 - i / 20)] after the [i]-th of 20 steps 50 ms apart; 8 s after
    its start the hum is paused at position 0 with volume 0. *)
Theorem hum_schedule :
  forall m p,
    1 <= p <= 4 ->
    let D := perPhase m in
    let T := p * D in
    at_time m (T + D)
      (fun s => omPlaysIn m p s =
                map (fun j => T + 4000 + 12000 * j) (Zrange 0 (Z.to_nat (D / 12000)))) /\
    (forall j,
        0 <= j < D / 12000 ->
        let t0 := T + 4000 + 12000 * j in
        at_time m t0 (omIs false 0 (2 # 10)) /\
        at_time m (t0 + 7000) (omIs false 7000 (2 # 10)) /\
        (forall i, 0 <= i <= 20 ->
                   at_time m (t0 + 7000 + 50 * i)
                     (omVolume ((2 # 10) * (1 - inject_Z i / 20))%Q)) /\
        at_time m (t0 + 8000) (omIs true 0 0)).
Proof.
  intros m p Hp D T. subst D T.
  split.
  - replace (p * perPhase m + perPhase m) with ((p + 1) * perPhase m) by ring.
    exact (hum_fire_times m p Hp).
  - intros j Hj t0. subst t0.
    exact (hum_envelope m p _ Hp (in_humTimes m p j Hj)).
Qed.

(** The second phase of the 2-minute run: hums at 28 s and 40 s. *)
Lemma hum_schedule_witness :
  at_time M2 48000 (fun s => omPlaysIn M2 1 s = [28000; 40000]) /\
  at_time M2 28000 (omIs false 0 (2 # 10)) /\
  at_time M2 35500 (omVolume ((2 # 10) * (1 - inject_Z 10 / 20))%Q) /\
  at_time M2 36000 (omIs true 0 0).
Proof.
  pose proof (hum_schedule M2 1 ltac:(lia)) as [H1 H2]. cbv zeta in H2.
  destruct (H2 0 ltac:(cbn; lia)) as (A & _ & C & D).
  split; [exact H1|]. split; [exact A|]. split; [|exact D].
  exact (C 10 ltac:(lia)).
Defined.

(** The first phase has no hum. *)
Lemma no_hum_in_first_phase m :
  at_time m (perPhase m - 1) (fun s => omPlays s = []).
Proof.
  assert (F : option_map omPlays (session m (perPhase m - 1)) = Some [])
    by (destruct m; vm_compute; reflexivity).
  destruct (session m (perPhase m - 1)) as [s|] eqn:Es; [|discriminate].
  apply (session_at_time _ _ s _ Es).
  cbv beta iota delta [option_map] in F. now injection F.
Qed.

(** ** Cancellation *)

(** C9, on the code.  The 2-minute run is left by the back button at 29 s,
    one second into the first hum.  The cleanups cancel the phase timer and
    the hum interval and stop the hum, but the fade timeout armed by that
    hum stays queued: it fires at 35 s, and at 35.05 s its interval has
    lowered the volume of the stopped element from 0.2 to 0.19; the cells
    are not touched.  Within the run, the tick at 48 s opens the third
    phase with a step of the fade interval still queued. *)
Lemma fade_timer_outlives_stop :
  let left := option_map (click ClickBack) (session M2 29000) in
  let later := match left with
               | Some s => elapseTo 100 35050 s
               | None => None
               end in
  let hum := fun s => option_map
                        (fun a => (paused a, currentTime a, Qred (volume a)))
                        (omAudioRef (refs s)) in
  option_map (fun s => (started (hooks s), tickTimer s, map cb (timers (browser s))))
    left = Some (false, None, [CbFadeTimeout]) /\
  option_map hum left = Some (Some (true, 0, (1 # 5)%Q)) /\
  option_map hum later = Some (Some (true, 0, (19 # 100)%Q)) /\
  option_map hooks later = option_map hooks left /\
  option_map
    (fun s => match tickTimer s with
              | Some t =>
                  (phaseIndex (hooks s), phaseIndex (hooks (fire t s)),
                   filter isFadeStep (timers (browser (fire t s))))
              | None => (0, 0, [])
              end) (session M2 47999)
  = Some (1, 2, [mkTimer 7 (CbFadeStep 19) 48000 (Some 50)]).
Proof.
  cbv zeta. repeat split; vm_compute; reflexivity.
Qed.

(** ** The timer queue as a list *)

Lemma In_without x l t : In t (without x l) <-> In t l /\ tid t <> x.
Proof.
  unfold without. rewrite filter_In, negb_true_iff, Nat.eqb_neq. tauto.
Qed.

Lemma NoDup_without x l : NoDup (map tid l) -> NoDup (map tid (without x l)).
Proof.
  induction l as [|t l IH]; cbn; [constructor|].
  intros H. inversion H as [|? ? Hn Hd]; subst.
  destruct (Nat.eqb (tid t) x); cbn; [now apply IH|].
  constructor; [|now apply IH].
  intros Hin. apply Hn. apply in_map_iff in Hin. destruct Hin as (u & Eu & Hu).
  apply In_without in Hu. apply in_map_iff. exists u. tauto.
Qed.

Lemma noFadeStep_spec l :
  forallb (fun u => negb (isFadeStep u)) l = true <->
  (forall u, In u l -> isFadeStep u = false).
Proof.
  rewrite forallb_forall. split; intros H u Hu; specialize (H u Hu).
  - now apply negb_true_iff.
  - now apply negb_true_iff.
Qed.

Lemma held_sub k l l' t :
  (forall u, In u l' -> In u l) -> held k l t -> held k l' t.
Proof.
  intros Hs. unfold held. destruct (cb t); auto.
  intros (A & B & C). repeat split; auto.
  apply noFadeStep_spec. intros u Hu. rewrite noFadeStep_spec in C. auto.
Qed.

Lemma SchedOn_without k n l x : SchedOn k n l -> SchedOn k n (without x l).
Proof.
  intros (N & F & B). split; [now apply NoDup_without|]. split; [|exact B].
  intros t Ht. apply In_without in Ht. destruct Ht as [Ht _].
  destruct (F t Ht) as (F1 & F2 & F3).
  split; [exact F1|]. split; [|exact F3].
  apply (held_sub k l); [|exact F2]. intros u Hu. now apply In_without in Hu.
Qed.

(** The variables may change as long as every pending timer stays held. *)
Lemma SchedOn_change k k' n l :
  SchedOn k n l -> slotsBelow k' n ->
  (forall t, In t l -> held k l t -> owned k t -> held k' l t /\ owned k' t) ->
  SchedOn k' n l.
Proof.
  intros (N & F & B) B' H. split; [exact N|]. split; [|exact B'].
  intros t Ht. destruct (F t Ht) as (F1 & F2 & F3).
  destruct (H t Ht F2 F3). auto.
Qed.

Lemma slotsBelow_S k n : slotsBelow k n -> slotsBelow k (S n).
Proof.
  intros (A & B & C & D & E).
  repeat split; intros; [apply A in H|apply B in H|apply C in H|apply D in H|apply E in H];
    lia.
Qed.

Lemma NoDup_snoc l t :
  NoDup (map tid l) -> (forall u, In u l -> tid u <> tid t) ->
  NoDup (map tid (l ++ [t])).
Proof.
  intros N H. rewrite map_app. cbn.
  apply NoDup_app; [exact N|constructor; [intros []|constructor]|].
  intros x Hx [Ex|[]]. apply in_map_iff in Hx. destruct Hx as (u & Eu & Hu).
  apply (H u Hu). congruence.
Qed.

(** A timer armed with the next id joins the queue, and the variable that
    receives its id may change with it. *)
Lemma SchedOn_arm k k' n l t :
  SchedOn k n l ->
  (forall u, In u l -> held k l u -> owned k u -> held k' l u /\ owned k' u) ->
  tid t = n ->
  held k' (l ++ [t]) t -> owned k' t -> slotsBelow k' (S n) ->
  (isFadeStep t = true -> forall u, In u l -> cb u <> CbFadeTimeout) ->
  SchedOn k' (S n) (l ++ [t]).
Proof.
  intros (N & F & B) K Et Ht Ot B' Hf.
  split; [|split; [|exact B']].
  - apply NoDup_snoc; [exact N|]. intros u Hu. destruct (F u Hu) as (F1 & _). lia.
  - intros u Hu. apply in_app_or in Hu. destruct Hu as [Hu|[<-|[]]].
    + destruct (F u Hu) as (F1 & F2 & F3).
      destruct (K u Hu F2 F3) as [K2 K3].
      split; [lia|]. split; [|exact K3].
      revert K2. unfold held. destruct (cb u) eqn:Eu; auto.
      intros (A & P & C). repeat split; auto.
      rewrite forallb_app, C. cbn. rewrite andb_true_r.
      destruct (isFadeStep t) eqn:Ef; [|reflexivity].
      exfalso. exact (Hf eq_refl u Hu Eu).
    + split; [lia|]. auto.
Qed.

(** A pending interval is queued again under its id, with a callback of its
    kind. *)
Lemma SchedOn_requeue k n l t t' :
  SchedOn k n l -> In t l -> tid t' = tid t -> period t' = period t ->
  (cb t' = cb t \/
   exists a b, cb t = CbFadeStep a /\ cb t' = CbFadeStep b /\ 0 <= b) ->
  SchedOn k n (without (tid t) l ++ [t']).
Proof.
  intros S Ht Et Ep Ec. pose proof S as (N & F & B).
  destruct (F t Ht) as (F1 & F2 & F3).
  assert (Hfs : isFadeStep t' = isFadeStep t).
  { unfold isFadeStep. destruct Ec as [->|(a & b & -> & -> & _)]; reflexivity. }
  split; [|split; [|exact B]].
  - apply NoDup_snoc; [now apply NoDup_without|].
    intros u Hu. apply In_without in Hu. rewrite Et. tauto.
  - intros u Hu. apply in_app_or in Hu. destruct Hu as [Hu|[<-|[]]].
    + apply In_without in Hu. destruct Hu as [Hu Hne].
      destruct (F u Hu) as (G1 & G2 & G3).
      split; [exact G1|]. split; [|exact G3].
      revert G2. unfold held. destruct (cb u) eqn:Eu; auto.
      intros (A & P & C). repeat split; auto.
      rewrite noFadeStep_spec in C |- *. intros v Hv.
      apply in_app_or in Hv. destruct Hv as [Hv|[<-|[]]].
      * apply In_without in Hv. apply C. tauto.
      * rewrite Hfs. now apply C.
    + rewrite Et. split; [exact F1|]. split.
      * revert F2. unfold held. rewrite Et, Ep.
        destruct Ec as [->|(a & b & Ea & -> & Hb)].
        -- destruct (cb t) eqn:Eu; auto.
           intros (A & P & C). repeat split; auto.
           rewrite noFadeStep_spec in C |- *. intros v Hv.
           apply in_app_or in Hv. destruct Hv as [Hv|[<-|[]]].
           ++ apply In_without in Hv. apply C. tauto.
           ++ rewrite Hfs. unfold isFadeStep. now rewrite Eu.
        -- rewrite Ea. intros (A & P & _). auto.
      * revert F3. unfold owned. rewrite Et.
        intros (O1 & O2 & O3 & O4 & O5).
        destruct Ec as [->|(a & b & Ea & Eb & Hb)]; [rewrite Hfs; tauto|].
        rewrite Hfs. rewrite Eb. rewrite Ea in O1, O2, O3, O4.
        repeat split; auto; intros; exfalso.
        -- specialize (O1 H). discriminate.
        -- specialize (O2 _ H). discriminate.
        -- specialize (O3 _ H). discriminate.
        -- specialize (O4 H). discriminate.
Qed.

(** ** What leaves the timers alone *)

Lemma Sched_ext s1 s2 : schedOf s1 = schedOf s2 -> Sched s1 -> Sched s2.
Proof.
  unfold schedOf, Sched. intros E.
  assert (E1 : slotsOf s1 = slotsOf s2) by exact (f_equal (fun x => fst (fst x)) E).
  assert (E2 : nextTimerId (browser s1) = nextTimerId (browser s2))
    by exact (f_equal (fun x => snd (fst x)) E).
  assert (E3 : timers (browser s1) = timers (browser s2)) by exact (f_equal snd E).
  now rewrite E1, E2, E3.
Qed.

Ltac sched_frame :=
  intros; unfold schedOf, slotsOf, fadeTimeoutId, fadeIntervalId,
    stopAudio, playAudio, onAudio; cbn;
  repeat (break_match; cbn); try reflexivity.

Lemma schedOf_stopAudio_ambience s :
  schedOf (stopAudio Ambience audioRef set_audioRef s) = schedOf s.
Proof. sched_frame. Qed.

Lemma schedOf_stopAudio_chime s :
  schedOf (stopAudio Chime chimeAudioRef set_chimeAudioRef s) = schedOf s.
Proof. sched_frame. Qed.

Lemma schedOf_stopAudio_om s :
  schedOf (stopAudio Om omAudioRef set_omAudioRef s) = schedOf s.
Proof.
  unfold schedOf, slotsOf, fadeTimeoutId, fadeIntervalId, stopAudio.
  destruct (omAudioRef (refs s)) as [a|] eqn:E; cbn; rewrite ?E; reflexivity.
Qed.

Lemma schedOf_playAudio_ambience s :
  schedOf (playAudio Ambience audioRef set_audioRef s) = schedOf s.
Proof. sched_frame. Qed.

Lemma schedOf_completionEffect h s : schedOf (completionEffect h s) = schedOf s.
Proof.
  unfold completionEffect. destruct (isComplete h); [|reflexivity].
  now rewrite schedOf_stopAudio_chime, schedOf_stopAudio_om,
    schedOf_stopAudio_ambience.
Qed.

Lemma schedOf_keepAmbienceEffect h s : schedOf (keepAmbienceEffect h s) = schedOf s.
Proof.
  unfold keepAmbienceEffect. repeat (break_match; try reflexivity).
  apply schedOf_playAudio_ambience.
Qed.

Lemma schedOf_syncRefEffect h s : schedOf (syncRefEffect h s) = schedOf s.
Proof. reflexivity. Qed.

Lemma schedOf_chimeEffect h s : schedOf (chimeEffect h s) = schedOf s.
Proof. unfold chimeEffect. sched_frame. Qed.

Lemma schedOf_resetRemainingEffect h s :
  schedOf (resetRemainingEffect h s) = schedOf s.
Proof. unfold resetRemainingEffect. destruct (started h); reflexivity. Qed.

Lemma schedOf_muteEffect h s : schedOf (muteEffect h s) = schedOf s.
Proof.
  unfold muteEffect. destruct (audioRef (refs s)) eqn:E; [|reflexivity].
  break_match; [|reflexivity]. now rewrite schedOf_playAudio_ambience.
Qed.

Lemma schedOf_set_deps d s : schedOf (upd_effects (set_deps d) s) = schedOf s.
Proof. reflexivity. Qed.

Lemma schedOf_tickUpdater s : schedOf (tickUpdater s) = schedOf s.
Proof.
  unfold tickUpdater.
  destruct ((remaining (hooks s) <=? 1000) && negb (isTransitioningRef (refs s)));
    [destruct (phaseIndexRef (refs s) <? PHASES_length - 1)|]; reflexivity.
Qed.

Lemma schedOf_advanceClock t s : schedOf (advanceClock t s) = schedOf s.
Proof.
  unfold advanceClock. destruct (_ <=? _); [reflexivity|].
  unfold schedOf, slotsOf, fadeTimeoutId, fadeIntervalId. cbn.
  destruct (omAudioRef (refs s)) as [a|]; [|reflexivity]. cbn.
  unfold advanceAudio. destruct (paused a); reflexivity.
Qed.

Lemma schedOf_handler c s : schedOf (handler c s) = schedOf s.
Proof.
  destruct c as [m| |]; cbn [handler].
  - reflexivity.
  - unfold returnToStart.
    now rewrite schedOf_stopAudio_ambience.
  - reflexivity.
Qed.

Lemma schedOf_runIf b f s :
  (forall x, schedOf (f x) = schedOf x) -> schedOf (runIf b f s) = schedOf s.
Proof. intros H. destruct b; [apply H|reflexivity]. Qed.

(** ** The two effects that own timers *)

Lemma timers_clearTimer id b :
  timers (clearTimer id b) =
  match id with
  | Some x => without x (timers b)
  | None => timers b
  end.
Proof. destruct id; reflexivity. Qed.

Lemma nextTimerId_clearTimer id b : nextTimerId (clearTimer id b) = nextTimerId b.
Proof. destruct id; reflexivity. Qed.

Lemma SchedOn_clear k n l id :
  SchedOn k n l ->
  SchedOn k n (match id with Some x => without x l | None => l end).
Proof. destruct id; [apply SchedOn_without|auto]. Qed.

Lemma In_clear id l t :
  In t (match id with Some x => without x l | None => l end) ->
  In t l /\ id <> Some (tid t).
Proof.
  destruct id as [x|].
  - intros H. apply In_without in H. destruct H as [H1 H2]. split; [exact H1|].
    intros E. injection E as E. congruence.
  - intros H. split; [assumption|discriminate].
Qed.

(** The cleanup of the hum effect leaves no timer of the hum cycle. *)
Lemma Sched_omEffectCleanup s :
  Sched s ->
  Sched (omEffectCleanup s) /\ omCleanup (effects (omEffectCleanup s)) = None.
Proof.
  intros S. unfold omEffectCleanup.
  destruct (omCleanup (effects s)) as [[sid oid]|] eqn:E; [|now split].
  set (x := mkState _ _ _ _).
  assert (X : Sched x /\ omCleanup (effects x) = None).
  { split; [|reflexivity]. unfold Sched, x. cbn [browser nextTimerId timers].
    rewrite !timers_clearTimer, !nextTimerId_clearTimer.
    apply (SchedOn_change (slotsOf s)).
    - apply SchedOn_clear. apply (SchedOn_clear _ _ _ (Some sid)). exact S.
    - destruct S as (_ & _ & B). unfold slotsBelow in *. unfold slotsOf in *.
      cbn in *. destruct B as (B1 & B2 & B3 & B4 & B5).
      repeat split; auto; discriminate.
    - intros t Ht Hh Ho. apply In_clear in Ht. destruct Ht as [Ht Hne].
      apply In_without in Ht. destruct Ht as [Ht Hsid].
      unfold held, owned, slotsOf in *. cbn in *. rewrite E in *.
      split.
      + destruct (cb t); auto.
        * destruct Hh as [Hh _]. injection Hh. intros. congruence.
        * destruct Hh as [[z Hh] _]. injection Hh. intros. congruence.
      + destruct Ho as (O1 & O2 & O3 & O4 & O5).
        repeat split; auto; discriminate. }
  destruct X as [X1 X2]. split.
  - apply (Sched_ext x); [symmetry; apply schedOf_stopAudio_om|exact X1].
  - pose proof (schedOf_stopAudio_om x) as F.
    apply (f_equal (fun v => sl_om (fst (fst v)))) in F. cbn in F. now rewrite F.
Qed.

(** The cleanup of the phase timer leaves no phase timer. *)
Lemma Sched_timerEffectCleanup s :
  Sched s ->
  Sched (timerEffectCleanup s) /\
  timerCleanup (effects (timerEffectCleanup s)) = None.
Proof.
  intros S. split; [|reflexivity].
  unfold Sched, timerEffectCleanup. cbn [browser nextTimerId timers effects].
  rewrite timers_clearTimer, nextTimerId_clearTimer.
  apply (SchedOn_change (slotsOf s)).
  - apply SchedOn_clear. exact S.
  - destruct S as (_ & _ & B). unfold slotsBelow, slotsOf in *. cbn in *.
    destruct B as (B1 & B2 & B3 & B4 & B5). repeat split; auto; discriminate.
  - intros t Ht Hh Ho. apply In_clear in Ht. destruct Ht as [Ht Hne].
    unfold held, owned, slotsOf in *. cbn in *. split.
    + destruct (cb t); auto. destruct Hh as [Hh _]. congruence.
    + destruct Ho as (O1 & O2 & O3 & O4 & O5). repeat split; auto; discriminate.
Qed.

Ltac slots :=
  unfold held, owned, slotsBelow, slotsOf, fadeTimeoutId, fadeIntervalId in *;
  cbn in *.

(** The hum effect arms its timeout only after its cleanup ran. *)
Lemma Sched_omEffect h s :
  Sched s -> omCleanup (effects s) = None ->
  Sched (omEffect h s) /\
  timerCleanup (effects (omEffect h s)) = timerCleanup (effects s).
Proof.
  intros S E. unfold omEffect.
  destruct (negb (started h) || isP1 (currentKey h) || isComplete h).
  - split; [|reflexivity]. apply (Sched_ext s); [|exact S].
    unfold schedOf, slotsOf. cbn. now rewrite E.
  - split; [|reflexivity]. unfold Sched. cbn.
    pose proof S as (N & F & B).
    apply (SchedOn_arm (slotsOf s)); [exact S| | | | | |].
    + intros u Hu Hh Ho. destruct (F u Hu) as (F1 & _). slots. rewrite E in *.
      split.
      * destruct (cb u); auto; destruct Hh as [Hh _];
          [discriminate|destruct Hh; discriminate].
      * destruct Ho as (O1 & O2 & O3 & O4 & O5). repeat split; auto.
        -- intros o Q. injection Q as Q1 Q2. lia.
        -- discriminate.
    + reflexivity.
    + slots. auto.
    + slots. destruct B as (B1 & B2 & B3 & B4 & B5). repeat split; auto.
      * intros Q. apply B1 in Q. lia.
      * discriminate.
      * intros Q. apply B4 in Q. lia.
      * intros Q. apply B5 in Q. lia.
    + apply slotsBelow_S in B. slots. destruct B as (B1 & B2 & B3 & B4 & B5).
      repeat split; auto.
      * intros x o Q. injection Q as Q1 Q2. lia.
      * discriminate.
    + discriminate.
Qed.

(** The phase timer is armed only after its cleanup ran. *)
Lemma Sched_timerEffect h s :
  Sched s -> timerCleanup (effects s) = None ->
  Sched (timerEffect h s) /\
  omCleanup (effects (timerEffect h s)) = omCleanup (effects s).
Proof.
  intros S E. unfold timerEffect.
  destruct (negb (started h)).
  - split; [|reflexivity]. apply (Sched_ext s); [|exact S].
    unfold schedOf, slotsOf. cbn. now rewrite E.
  - split; [|reflexivity]. unfold Sched. cbn.
    pose proof S as (N & F & B).
    apply (SchedOn_arm (slotsOf s)); [exact S| | | | | |].
    + intros u Hu Hh Ho. destruct (F u Hu) as (F1 & _). slots. rewrite E in *.
      split.
      * destruct (cb u); auto; destruct Hh as [Hh _]; discriminate.
      * destruct Ho as (O1 & O2 & O3 & O4 & O5). repeat split; auto.
        intros Q. injection Q as Q. lia.
    + reflexivity.
    + slots. auto.
    + slots. destruct B as (B1 & B2 & B3 & B4 & B5). repeat split; auto.
      * intros o Q. apply B2 in Q. lia.
      * intros sid Q. apply B3 in Q. lia.
      * intros Q. apply B4 in Q. lia.
      * intros Q. apply B5 in Q. lia.
    + apply slotsBelow_S in B. slots. destruct B as (B1 & B2 & B3 & B4 & B5).
      repeat split; auto.
      intros x Q. injection Q as Q. lia.
    + discriminate.
Qed.

(** ** The hum and its fade *)

Lemma In_clearL id l t : In t (clearL id l) <-> In t l /\ id <> Some (tid t).
Proof.
  destruct id as [x|]; cbn.
  - rewrite In_without. split.
    + intros [H1 H2]. split; [exact H1|]. intros E. injection E as E. congruence.
    + intros [H1 H2]. split; [exact H1|]. intros E. apply H2. now rewrite E.
  - split; [intros H; split; [exact H|discriminate]|tauto].
Qed.

Lemma SchedOn_clearL k n l id : SchedOn k n l -> SchedOn k n (clearL id l).
Proof. destruct id; [apply SchedOn_without|auto]. Qed.

Lemma timers_clearTimer' id b : timers (clearTimer id b) = clearL id (timers b).
Proof. destruct id; reflexivity. Qed.

Lemma now_clearTimer id b : now (clearTimer id b) = now b.
Proof. destruct id; reflexivity. Qed.

(** [playOm] on the timers: both fade timers are cleared, a fade timeout is
    armed. *)
Lemma schedOf_playOm s :
  exists d,
    schedOf (playOm s) =
    (mkSlots (timerCleanup (effects s)) (omCleanup (effects s))
       (Some (nextTimerId (browser s))) (fadeIntervalId s),
     S (nextTimerId (browser s)),
     clearL (fadeIntervalId s) (clearL (fadeTimeoutId s) (timers (browser s)))
       ++ [mkTimer (nextTimerId (browser s)) CbFadeTimeout d None]).
Proof.
  exists (now (browser s) + fadeStart).
  unfold playOm, schedOf, slotsOf, fadeTimeoutId, fadeIntervalId, setTimer.
  cbn. rewrite !nextTimerId_clearTimer, !timers_clearTimer', !now_clearTimer. cbn.
  destruct (omAudioRef (refs s)); cbn; reflexivity.
Qed.

Lemma SchedOn_playOm k n l d :
  SchedOn k n l ->
  SchedOn (mkSlots (sl_tick k) (sl_om k) (Some n) (sl_fadeI k)) (S n)
    (clearL (sl_fadeI k) (clearL (sl_fadeT k) l) ++ [mkTimer n CbFadeTimeout d None]).
Proof.
  intros S.
  assert (S' : SchedOn k n (clearL (sl_fadeI k) (clearL (sl_fadeT k) l)))
    by now do 2 apply SchedOn_clearL.
  pose proof S' as (N & F & B).
  assert (NF : forall u, In u (clearL (sl_fadeI k) (clearL (sl_fadeT k) l)) ->
                         isFadeStep u = false /\ cb u <> CbFadeTimeout).
  { intros u Hu. destruct (F u Hu) as (F1 & F2 & F3).
    apply In_clearL in Hu. destruct Hu as [Hu H1].
    apply In_clearL in Hu. destruct Hu as [Hu H2].
    unfold isFadeStep, held in *. destruct (cb u); split; try reflexivity;
      try discriminate; exfalso; intuition congruence. }
  apply (SchedOn_arm k); [exact S'| | | | | |].
  - intros u Hu Hh Ho. destruct (F u Hu) as (F1 & _).
    destruct (NF u Hu) as [NF1 NF2]. unfold isFadeStep in NF1. slots. split.
    + destruct (cb u); auto; try congruence; try discriminate.
    + destruct Ho as (O1 & O2 & O3 & O4 & O5). repeat split; auto.
      intros Q. injection Q as Q. lia.
  - reflexivity.
  - slots. repeat split.
    rewrite forallb_app. cbn. rewrite andb_true_r. apply noFadeStep_spec.
    intros u Hu. now apply NF.
  - slots. destruct B as (B1 & B2 & B3 & B4 & B5). repeat split; auto.
    + intros Q. apply B1 in Q. lia.
    + intros o Q. apply B2 in Q. lia.
    + intros sid Q. apply B3 in Q. lia.
    + intros Q. apply B5 in Q. lia.
  - apply slotsBelow_S in B. slots. destruct B as (B1 & B2 & B3 & B4 & B5).
    repeat split; auto. intros x Q. injection Q as Q. lia.
  - discriminate.
Qed.

Lemma Sched_playOm s : Sched s -> Sched (playOm s).
Proof.
  intros S. destruct (schedOf_playOm s) as [d E].
  unfold Sched.
  change (slotsOf (playOm s)) with (fst (fst (schedOf (playOm s)))).
  change (nextTimerId (browser (playOm s))) with (snd (fst (schedOf (playOm s)))).
  change (timers (browser (playOm s))) with (snd (schedOf (playOm s))).
  rewrite E. cbn [fst snd]. exact (SchedOn_playOm _ _ _ d S).
Qed.

Lemma Sched_view s k n l :
  schedOf s = (k, n, l) -> SchedOn k n l -> Sched s.
Proof.
  intros E H. unfold Sched.
  change (slotsOf s) with (fst (fst (schedOf s))).
  change (nextTimerId (browser s)) with (snd (fst (schedOf s))).
  change (timers (browser s)) with (snd (schedOf s)).
  now rewrite E.
Qed.

(** [playOmForExhale] on the timers, after [playOm]: the hum interval is
    armed and its id kept for the cleanup. *)
Lemma schedOf_playOmForExhale s :
  exists d,
    schedOf (playOmForExhale s) =
    (mkSlots (timerCleanup (effects (playOm s)))
       (match omCleanup (effects (playOm s)) with
        | Some (sid, _) => Some (sid, Some (nextTimerId (browser (playOm s))))
        | None => None
        end)
       (fadeTimeoutId (playOm s)) (fadeIntervalId (playOm s)),
     S (nextTimerId (browser (playOm s))),
     timers (browser (playOm s))
       ++ [mkTimer (nextTimerId (browser (playOm s))) CbPlayOm d (Some 12000)]).
Proof.
  exists (now (browser (playOm s)) + 12000). reflexivity.
Qed.

Lemma SchedOn_armOm k n l sid d :
  SchedOn k n l -> sl_om k = Some (sid, None) ->
  (forall u, In u l -> tid u <> sid) ->
  SchedOn (mkSlots (sl_tick k) (Some (sid, Some n)) (sl_fadeT k) (sl_fadeI k)) (S n)
    (l ++ [mkTimer n CbPlayOm d (Some 12000)]).
Proof.
  intros S E Hs. pose proof S as (N & F & B).
  apply (SchedOn_arm k); [exact S| | | | | |].
  - intros u Hu Hh Ho. destruct (F u Hu) as (F1 & _). specialize (Hs u Hu).
    slots. rewrite E in *. split.
    + destruct (cb u); auto.
      * destruct Hh as [Hh _]. injection Hh as Hh. congruence.
      * destruct Hh as [[z Hh] _]. discriminate.
    + destruct Ho as (O1 & O2 & O3 & O4 & O5). repeat split; auto.
      * intros o Q. injection Q as Q1 Q2. congruence.
      * intros z Q. injection Q as Q1 Q2. lia.
  - reflexivity.
  - slots. split; [eauto|reflexivity].
  - slots. rewrite E in *. destruct B as (B1 & B2 & B3 & B4 & B5).
    repeat split; auto.
    + intros Q. apply B1 in Q. lia.
    + intros o Q. injection Q as Q1 Q2. specialize (B2 sid None eq_refl). lia.
    + intros Q. apply B4 in Q. lia.
    + intros Q. apply B5 in Q. lia.
  - apply slotsBelow_S in B. slots. rewrite E in *.
    destruct B as (B1 & B2 & B3 & B4 & B5). repeat split; auto.
    + intros x o Q. injection Q as Q1 Q2. specialize (B2 sid None eq_refl). lia.
    + intros x y Q. injection Q as Q1 Q2. lia.
  - discriminate.
Qed.

Lemma Sched_playOmForExhale s sid :
  Sched s -> omCleanup (effects s) = Some (sid, None) ->
  (forall u, In u (timers (browser s)) -> tid u <> sid) ->
  Sched (playOmForExhale s).
Proof.
  intros S E Hs. destruct (schedOf_playOmForExhale s) as [d Ed].
  apply (Sched_view _ _ _ _ Ed).
  destruct (schedOf_playOm s) as [d1 E1].
  pose proof (Sched_playOm s S) as S1.
  assert (Ee : omCleanup (effects (playOm s)) = Some (sid, None)).
  { pose proof (f_equal (fun v => sl_om (fst (fst v))) E1) as Q.
    cbn [schedOf slotsOf sl_om fst snd] in Q. now rewrite Q. }
  rewrite Ee.
  apply (SchedOn_armOm (slotsOf (playOm s))); [exact S1|exact Ee|].
  intros u Hu.
  pose proof (f_equal snd E1) as Q. cbn [snd schedOf] in Q. rewrite Q in Hu.
  apply in_app_or in Hu. destruct Hu as [Hu|[<-|[]]].
  - apply In_clearL in Hu. destruct Hu as [Hu _].
    apply In_clearL in Hu. destruct Hu as [Hu _]. now apply Hs.
  - cbn. destruct S as (_ & _ & B). destruct B as (_ & B2 & _).
    specialize (B2 sid None). unfold slotsOf in B2. cbn in B2.
    specialize (B2 E). lia.
Qed.

(** The fade timeout arms the fade interval. *)
Lemma schedOf_fadeTimeoutCb s :
  schedOf (fadeTimeoutCb s) = schedOf s \/
  exists d,
    schedOf (fadeTimeoutCb s) =
    (mkSlots (timerCleanup (effects s)) (omCleanup (effects s)) (fadeTimeoutId s)
       (Some (nextTimerId (browser s))),
     S (nextTimerId (browser s)),
     timers (browser s)
       ++ [mkTimer (nextTimerId (browser s)) (CbFadeStep 0) d (Some 50)]).
Proof.
  unfold fadeTimeoutCb. destruct (omAudioRef (refs s)) as [a|] eqn:E; [|now left].
  right. exists (now (browser s) + 50).
  unfold schedOf, slotsOf, fadeTimeoutId, fadeIntervalId. cbn. rewrite E. reflexivity.
Qed.

Lemma SchedOn_armFade k n l d :
  SchedOn k n l ->
  (forall u, In u l -> isFadeStep u = false /\ cb u <> CbFadeTimeout) ->
  SchedOn (mkSlots (sl_tick k) (sl_om k) (sl_fadeT k) (Some n)) (S n)
    (l ++ [mkTimer n (CbFadeStep 0) d (Some 50)]).
Proof.
  intros S NF. pose proof S as (N & F & B).
  apply (SchedOn_arm k); [exact S| | | | | |].
  - intros u Hu Hh Ho. destruct (F u Hu) as (F1 & _).
    destruct (NF u Hu) as [NF1 NF2]. unfold isFadeStep in NF1. slots. split.
    + destruct (cb u); auto; try congruence; try discriminate.
    + destruct Ho as (O1 & O2 & O3 & O4 & O5). repeat split; auto.
      intros Q. injection Q as Q. lia.
  - reflexivity.
  - slots. repeat split. lia.
  - slots. destruct B as (B1 & B2 & B3 & B4 & B5). repeat split; auto.
    + intros Q. apply B1 in Q. lia.
    + intros o Q. apply B2 in Q. lia.
    + intros sid Q. apply B3 in Q. lia.
    + intros Q. apply B4 in Q. lia.
  - apply slotsBelow_S in B. slots. destruct B as (B1 & B2 & B3 & B4 & B5).
    repeat split; auto. intros x Q. injection Q as Q. lia.
  - intros _ u Hu. now apply NF.
Qed.

Lemma Sched_fadeTimeoutCb s :
  Sched s ->
  (forall u, In u (timers (browser s)) ->
             isFadeStep u = false /\ cb u <> CbFadeTimeout) ->
  Sched (fadeTimeoutCb s).
Proof.
  intros S NF. destruct (schedOf_fadeTimeoutCb s) as [E|[d E]].
  - apply (Sched_ext s); [now symmetry|exact S].
  - apply (Sched_view _ _ _ _ E).
    exact (SchedOn_armFade (slotsOf s) _ _ d S NF).
Qed.

(** A fade step clears at most the fade interval. *)
Lemma schedOf_fadeStepCb step s :
  schedOf (fadeStepCb step s) = schedOf s \/
  schedOf (fadeStepCb step s) =
  (slotsOf s, nextTimerId (browser s),
   clearL (fadeIntervalId s) (timers (browser s))).
Proof.
  unfold fadeStepCb. destruct (omAudioRef (refs s)) as [a|] eqn:E; [|now left].
  destruct (fadeSteps <=? step + 1).
  - right. unfold schedOf, slotsOf, fadeTimeoutId, fadeIntervalId. cbn.
    rewrite E, nextTimerId_clearTimer, timers_clearTimer'. reflexivity.
  - left. unfold schedOf, slotsOf, fadeTimeoutId, fadeIntervalId. cbn.
    rewrite E. reflexivity.
Qed.

Lemma Sched_fadeStepCb step s : Sched s -> Sched (fadeStepCb step s).
Proof.
  intros S. destruct (schedOf_fadeStepCb step s) as [E|E].
  - apply (Sched_ext s); [now symmetry|exact S].
  - apply (Sched_view _ _ _ _ E). now apply SchedOn_clearL.
Qed.

(** ** A timer fires *)

Lemma unique_tid k n l t u :
  SchedOn k n l -> In t l -> In u l -> tid u = tid t -> u = t.
Proof.
  intros (N & _ & _). revert N. induction l as [|x l IH]; cbn; [tauto|].
  intros N Ht Hu E. inversion N as [|? ? Hn Hd]; subst.
  destruct Ht as [->|Ht], Hu as [->|Hu]; auto.
  - exfalso. apply Hn. rewrite <- E. now apply in_map.
  - exfalso. apply Hn. rewrite E. now apply in_map.
Qed.

Lemma slotsOf_upd_browser f s : slotsOf (upd_browser f s) = slotsOf s.
Proof. reflexivity. Qed.

(** An interval is queued again only if it is still pending, and then under
    the variable that held it. *)
Lemma Sched_rearm t s :
  Sched s ->
  (forall u, In u (timers (browser s)) -> tid u = tid t -> u = t) ->
  Sched (upd_browser (rearm t) s).
Proof.
  intros S U. unfold Sched. rewrite slotsOf_upd_browser.
  unfold upd_browser, rearm. cbn [browser].
  destruct (period t) as [p|] eqn:Ep; [|exact S].
  destruct (existsb _ _) eqn:Ex; [|exact S].
  apply existsb_exists in Ex. destruct Ex as (u & Hu & Eu).
  apply Nat.eqb_eq in Eu. pose proof (U u Hu Eu) as ->.
  cbn [nextTimerId timers].
  pose proof S as (_ & F & _). destruct (F t Hu) as (_ & Hh & _).
  apply (SchedOn_requeue _ _ _ t); [exact S|exact Hu|reflexivity|cbn; now rewrite Ep|].
  cbn [cb]. unfold held in Hh. destruct (cb t) as [| | | |a] eqn:Ec; cbn; auto.
  right. exists a, (a + 1). repeat split. lia.
Qed.

Lemma timers_schedOf s1 s2 :
  schedOf s1 = schedOf s2 -> timers (browser s1) = timers (browser s2).
Proof. intros E. exact (f_equal snd E). Qed.

Lemma timers_view s k n l : schedOf s = (k, n, l) -> timers (browser s) = l.
Proof. intros E. exact (f_equal snd E). Qed.

Lemma nextTimerId_view s k n l :
  schedOf s = (k, n, l) -> nextTimerId (browser s) = n.
Proof. intros E. exact (f_equal (fun v => snd (fst v)) E). Qed.

Lemma Sched_dispatch t s :
  Sched s -> In t (timers (browser s)) -> Sched (dispatch t s).
Proof.
  intros S Ht. unfold dispatch.
  pose proof (schedOf_advanceClock (due t) s) as E0.
  set (s0 := advanceClock (due t) s) in *.
  assert (S0 : Sched s0) by (apply (Sched_ext s); [now symmetry|exact S]).
  assert (H0 : In t (timers (browser s0)))
    by now rewrite (timers_schedOf _ _ E0).
  clearbody s0. clear S Ht E0.
  pose proof S0 as (N & F & B). destruct (F t H0) as (F1 & Hh & Ho).
  unfold held in Hh. destruct (cb t) as [| | | |a] eqn:Ec; cbn [runCallback].
  - (* the phase timer *)
    destruct Hh as [_ Hp]. rewrite Hp.
    pose proof (schedOf_tickUpdater s0) as E.
    apply Sched_rearm.
    + apply (Sched_ext s0); [now symmetry|exact S0].
    + rewrite (timers_schedOf _ _ E). intros u Hu.
      now apply (unique_tid _ _ _ _ _ S0).
  - (* the timeout that starts the hum cycle *)
    destruct Hh as [Hk Hp]. rewrite Hp.
    apply Sched_rearm.
    + apply (Sched_playOmForExhale _ (tid t)).
      * unfold Sched, upd_browser. cbn. now apply SchedOn_without.
      * exact Hk.
      * cbn. intros u Hu. apply In_without in Hu. tauto.
    + unfold rearm. intros u Hu Eu.
      destruct (schedOf_playOmForExhale
                  (upd_browser (clearTimer (Some (tid t))) s0)) as [d Ed].
      rewrite (timers_view _ _ _ _ Ed) in Hu.
      set (s1 := upd_browser (clearTimer (Some (tid t))) s0) in *.
      destruct (schedOf_playOm s1) as [d1 E1].
      apply in_app_or in Hu. destruct Hu as [Hu|[<-|[]]].
      * rewrite (timers_view _ _ _ _ E1) in Hu.
        apply in_app_or in Hu. destruct Hu as [Hu|[<-|[]]].
        -- apply In_clearL in Hu. destruct Hu as [Hu _].
           apply In_clearL in Hu. destruct Hu as [Hu _].
           cbn in Hu. apply In_without in Hu. tauto.
        -- cbn in Eu. lia.
      * cbn [tid] in Eu.
        rewrite (nextTimerId_view _ _ _ _ E1) in Eu. cbn in Eu. lia.
  - (* the hum interval *)
    destruct Hh as [_ Hp]. rewrite Hp.
    apply Sched_rearm; [now apply Sched_playOm|].
    intros u Hu Eu. destruct (schedOf_playOm s0) as [d1 E1].
    rewrite (timers_view _ _ _ _ E1) in Hu.
    apply in_app_or in Hu. destruct Hu as [Hu|[<-|[]]].
    + apply In_clearL in Hu. destruct Hu as [Hu _].
      apply In_clearL in Hu. destruct Hu as [Hu _].
      now apply (unique_tid _ _ _ _ _ S0).
    + cbn in Eu. lia.
  - (* the fade timeout *)
    destruct Hh as (Hk & Hp & Hn). rewrite Hp.
    set (s1 := upd_browser (clearTimer (Some (tid t))) s0).
    assert (S1 : Sched s1).
    { unfold Sched, s1, upd_browser. cbn. now apply SchedOn_without. }
    assert (NF : forall u, In u (timers (browser s1)) ->
                           isFadeStep u = false /\ cb u <> CbFadeTimeout).
    { intros u Hu. cbn in Hu. apply In_without in Hu. destruct Hu as [Hu Hne].
      split; [now apply (proj1 (noFadeStep_spec _) Hn)|].
      intros Eu. apply Hne. destruct (F u Hu) as (_ & Hh & _).
      unfold held in Hh. rewrite Eu in Hh. destruct Hh as [Hh _]. congruence. }
    apply Sched_rearm; [now apply Sched_fadeTimeoutCb|].
    intros u Hu Eu. exfalso.
    destruct (schedOf_fadeTimeoutCb s1) as [E|[d E]].
    + rewrite (timers_schedOf _ _ E) in Hu. cbn in Hu.
      apply In_without in Hu. tauto.
    + rewrite (timers_view _ _ _ _ E) in Hu.
      apply in_app_or in Hu. destruct Hu as [Hu|[<-|[]]].
      * cbn in Hu. apply In_without in Hu. tauto.
      * cbn in Eu. lia.
  - (* a step of the fade *)
    destruct Hh as (Hk & Hp & Ha). rewrite Hp.
    apply Sched_rearm; [now apply Sched_fadeStepCb|].
    intros u Hu Eu. destruct (schedOf_fadeStepCb a s0) as [E|E].
    + rewrite (timers_schedOf _ _ E) in Hu. now apply (unique_tid _ _ _ _ _ S0).
    + rewrite (timers_view _ _ _ _ E) in Hu.
      apply In_clearL in Hu. destruct Hu as [Hu _].
      now apply (unique_tid _ _ _ _ _ S0).
Qed.

(** ** Commits *)

Lemma Stage_ext b1 b2 s1 s2 : schedOf s1 = schedOf s2 -> Stage b1 b2 s1 -> Stage b1 b2 s2.
Proof.
  intros E (S & A & B).
  pose proof (f_equal (fun v => sl_om (fst (fst v))) E) as E1.
  pose proof (f_equal (fun v => sl_tick (fst (fst v))) E) as E2.
  cbn in E1, E2.
  split; [now apply (Sched_ext s1)|]. split; intros; [rewrite <- E1|rewrite <- E2]; auto.
Qed.

Lemma Stage_runIf b1 b2 b f s :
  (forall x, schedOf (f x) = schedOf x) ->
  Stage b1 b2 s -> Stage b1 b2 (runIf b f s).
Proof.
  intros H. apply Stage_ext. symmetry. now apply schedOf_runIf.
Qed.

Lemma Sched_commit s : Sched s -> Sched (commit s).
Proof.
  intros S. unfold commit.
  set (b1 := changedStarted s || changedKey s || changedComplete s).
  set (b2 := changedStarted s || changedDuration s).
  set (h := hooks s).
  generalize (changedStarted s || changedComplete s || changedAmbience s).
  generalize (changedIndex s || changedStarted s || changedDuration s).
  generalize (changedIndex s || changedStarted s).
  generalize (changedAmbience s || changedStarted s || changedComplete s).
  generalize (changedComplete s) (changedIndex s).
  intros c1 c2 c3 c4 c5 c6.
  clearbody b1 b2 h.
  set (s1 := runIf b1 omEffectCleanup s).
  assert (T1 : Sched s1 /\ (b1 = true -> omCleanup (effects s1) = None)).
  { unfold s1. destruct b1; cbn.
    - destruct (Sched_omEffectCleanup s S). auto.
    - split; [exact S|discriminate]. }
  clearbody s1. clear S s. destruct T1 as [S A].
  set (s2 := runIf b2 timerEffectCleanup s1).
  assert (T2 : Stage b1 b2 s2).
  { unfold s2. destruct b2; cbn.
    - destruct (Sched_timerEffectCleanup s1 S) as [S2 E2].
      split; [exact S2|]. split; [intros Hb; exact (A Hb)|intros _; exact E2].
    - split; [exact S|]. split; [exact A|discriminate]. }
  clearbody s2. clear S A s1.
  apply (Stage_runIf _ _ c1 (completionEffect h)) in T2;
    [|apply schedOf_completionEffect].
  apply (Stage_runIf _ _ c6 (keepAmbienceEffect h)) in T2;
    [|apply schedOf_keepAmbienceEffect].
  apply (Stage_runIf _ _ c2 (syncRefEffect h)) in T2;
    [|apply schedOf_syncRefEffect].
  apply (Stage_runIf _ _ c4 (chimeEffect h)) in T2;
    [|apply schedOf_chimeEffect].
  match type of T2 with Stage _ _ ?x => set (s3 := x) in * end.
  clearbody s3. destruct T2 as (S & A & B).
  set (s4 := runIf b1 (omEffect h) s3).
  assert (T4 : Sched s4 /\ (b2 = true -> timerCleanup (effects s4) = None)).
  { unfold s4. destruct b1; cbn; [|now split].
    destruct (Sched_omEffect h s3 S (A eq_refl)) as [S4 E4].
    split; [exact S4|]. now rewrite E4. }
  clearbody s4. clear S A B s3. destruct T4 as [S B].
  set (s5 := runIf b2 (timerEffect h) s4).
  assert (S5 : Sched s5).
  { unfold s5. destruct b2; cbn; [|exact S].
    now destruct (Sched_timerEffect h s4 S (B eq_refl)). }
  clearbody s5. clear S B s4.
  apply (Sched_ext s5); [|exact S5].
  rewrite schedOf_set_deps.
  rewrite schedOf_runIf by apply schedOf_muteEffect.
  rewrite schedOf_runIf by apply schedOf_resetRemainingEffect.
  reflexivity.
Qed.

Lemma Sched_init : Sched init.
Proof.
  unfold Sched. cbn. split; [constructor|]. split; [intros t []|].
  repeat split; discriminate.
Qed.

Lemma Sched_step s s' : step s s' -> Sched s -> Sched s'.
Proof.
  destruct 1 as [s t|s c Q E|s t Q Ht|s]; intros S.
  - apply (Sched_ext s); [symmetry; apply schedOf_advanceClock|exact S].
  - apply (Sched_ext s); [symmetry; apply schedOf_handler|exact S].
  - now apply Sched_dispatch.
  - now apply Sched_commit.
Qed.

Lemma Sched_reachable s : reachable s -> Sched s.
Proof.
  induction 1; [exact Sched_init|]. eapply Sched_step; eauto.
Qed.

(** ** Which timers a commit leaves armed *)

Lemma sl_tick_view s1 s2 :
  schedOf s1 = schedOf s2 -> timerCleanup (effects s1) = timerCleanup (effects s2).
Proof. intros E. exact (f_equal (fun v => sl_tick (fst (fst v))) E). Qed.

Lemma sl_om_view s1 s2 :
  schedOf s1 = schedOf s2 -> omCleanup (effects s1) = omCleanup (effects s2).
Proof. intros E. exact (f_equal (fun v => sl_om (fst (fst v))) E). Qed.

Lemma tickArmed_ext s1 s2 : schedOf s1 = schedOf s2 -> tickArmed s1 -> tickArmed s2.
Proof.
  intros E (t & Ht & Ec & Ek). exists t.
  rewrite <- (timers_schedOf _ _ E), <- (sl_tick_view _ _ E). auto.
Qed.

Lemma Armed_ext s1 s2 :
  schedOf s1 = schedOf s2 -> deps (effects s1) = deps (effects s2) ->
  Armed s1 -> Armed s2.
Proof.
  intros E D (A & B & C). unfold Armed.
  rewrite <- D, <- (sl_tick_view _ _ E), <- (sl_om_view _ _ E).
  split; [exact A|]. split; [exact B|].
  intros H. apply (tickArmed_ext s1); auto.
Qed.

(** The stages of a commit, as far as timers go. *)
Lemma commit_stages s :
  exists s3,
    schedOf s3 =
      schedOf (runIf (changedStarted s || changedDuration s) timerEffectCleanup
                 (runIf (changedStarted s || changedKey s || changedComplete s)
                    omEffectCleanup s)) /\
    schedOf (commit s) =
      schedOf (runIf (changedStarted s || changedDuration s) (timerEffect (hooks s))
                 (runIf (changedStarted s || changedKey s || changedComplete s)
                    (omEffect (hooks s)) s3)).
Proof.
  unfold commit. cbv zeta.
  set (b1 := changedStarted s || changedKey s || changedComplete s).
  set (b2 := changedStarted s || changedDuration s).
  set (h := hooks s).
  set (s2 := runIf b2 timerEffectCleanup (runIf b1 omEffectCleanup s)).
  match goal with
  | |- context [runIf b1 (omEffect h) ?x] => exists x
  end.
  split.
  - rewrite schedOf_runIf by apply schedOf_chimeEffect.
    rewrite schedOf_runIf by apply schedOf_syncRefEffect.
    rewrite schedOf_runIf by apply schedOf_keepAmbienceEffect.
    rewrite schedOf_runIf by apply schedOf_completionEffect.
    reflexivity.
  - rewrite schedOf_set_deps.
    rewrite schedOf_runIf by apply schedOf_muteEffect.
    rewrite schedOf_runIf by apply schedOf_resetRemainingEffect.
    reflexivity.
Qed.

Lemma timerCleanup_omEffectCleanup s :
  timerCleanup (effects (omEffectCleanup s)) = timerCleanup (effects s).
Proof.
  unfold omEffectCleanup. destruct (omCleanup (effects s)) as [[sid oid]|]; [|reflexivity].
  now rewrite (sl_tick_view _ _ (schedOf_stopAudio_om _)).
Qed.

Lemma timerCleanup_omEffect h s :
  timerCleanup (effects (omEffect h s)) = timerCleanup (effects s).
Proof. unfold omEffect. destruct (_ || _); reflexivity. Qed.

Lemma omCleanup_timerEffect h s :
  omCleanup (effects (timerEffect h s)) = omCleanup (effects s).
Proof. unfold timerEffect. destruct (negb _); reflexivity. Qed.

Lemma omEffect_idle h s :
  negb (started h) || isP1 (currentKey h) || isComplete h = true ->
  omCleanup (effects (omEffect h s)) = None.
Proof. unfold omEffect. intros ->. reflexivity. Qed.

Lemma timerEffect_idle h s :
  started h = false -> timerCleanup (effects (timerEffect h s)) = None.
Proof. unfold timerEffect. intros ->. reflexivity. Qed.

Lemma timerEffect_arms h s : started h = true -> tickArmed (timerEffect h s).
Proof.
  unfold timerEffect. intros ->. cbn.
  exists (mkTimer (nextTimerId (browser s)) CbTick (now (browser s) + 1000) (Some 1000)).
  split; [apply in_or_app; right; now left|]. split; reflexivity.
Qed.

Lemma tickArmed_omEffect h s : tickArmed s -> tickArmed (omEffect h s).
Proof.
  intros (t & Ht & Ec & Ek). exists t. rewrite timerCleanup_omEffect.
  split; [|now split]. unfold omEffect. destruct (_ || _); [exact Ht|].
  cbn. apply in_or_app. now left.
Qed.

(** The cleanup of the hum effect cannot take the phase timer with it. *)
Lemma tickArmed_omEffectCleanup s :
  Sched s -> tickArmed s -> tickArmed (omEffectCleanup s).
Proof.
  intros S (t & Ht & Ec & Ek). exists t. rewrite timerCleanup_omEffectCleanup.
  split; [|now split].
  unfold omEffectCleanup.
  destruct (omCleanup (effects s)) as [[sid oid]|] eqn:E; [|exact Ht].
  rewrite (timers_schedOf _ _ (schedOf_stopAudio_om _)). cbn [browser].
  rewrite !timers_clearTimer'.
  destruct S as (_ & F & _). destruct (F t Ht) as (_ & _ & Ho).
  destruct Ho as (_ & O2 & O3 & _). unfold slotsOf in O2, O3. cbn in O2, O3.
  rewrite E in O2, O3.
  apply In_clearL. split.
  - apply In_clearL. split; [exact Ht|].
    intros Q. injection Q as Q. specialize (O2 oid). rewrite Q in O2.
    specialize (O2 eq_refl). congruence.
  - intros Q. specialize (O3 sid). rewrite Q in O3. specialize (O3 eq_refl).
    congruence.
Qed.

Lemma eqb_false_negb a b : negb (Bool.eqb a b) = false -> a = b.
Proof. destruct a, b; cbn; congruence. Qed.

Lemma option_key_eqb_eq a b : option_key_eqb a b = true -> a = b.
Proof. destruct a as [[]|], b as [[]|]; cbn; congruence. Qed.

Lemma Armed_commit s : Sched s -> Armed s -> Armed (commit s).
Proof.
  intros S (A1 & A2 & A3).
  destruct (commit_stages s) as (s3 & E3 & E4).
  destruct (commit_cells s) as (_ & _ & _ & Ed).
  set (b1 := changedStarted s || changedKey s || changedComplete s) in *.
  set (b2 := changedStarted s || changedDuration s) in *.
  assert (H1 : b1 = false -> humIdle (deps (effects s)) = humIdle (depsOf (hooks s))).
  { unfold b1, changedStarted, changedKey, changedComplete. intros H.
    apply orb_false_elim in H. destruct H as [H H3].
    apply orb_false_elim in H. destruct H as [H1 H2].
    apply eqb_false_negb in H1, H3. apply negb_false_iff, option_key_eqb_eq in H2.
    unfold humIdle. cbn. now rewrite H1, H2, H3. }
  assert (H2 : b2 = false -> d_started (deps (effects s)) = started (hooks s)).
  { unfold b2, changedStarted. intros H.
    apply orb_false_elim in H. destruct H as [H _]. now apply eqb_false_negb in H. }
  unfold Armed. rewrite Ed. cbn [depsOf d_started].
  rewrite (sl_tick_view _ _ E4), (sl_om_view _ _ E4).
  split; [|split].
  - (* no run: no phase timer *)
    intros Hs. destruct b2; cbn [runIf] in *.
    + now apply timerEffect_idle.
    + rewrite (H2 eq_refl) in A1. specialize (A1 Hs).
      destruct b1; cbn [runIf] in *.
      * rewrite timerCleanup_omEffect, (sl_tick_view _ _ E3).
        now rewrite timerCleanup_omEffectCleanup.
      * now rewrite (sl_tick_view _ _ E3).
  - (* the hum is not due: no hum timer *)
    intros Hi.
    assert (G : omCleanup (effects (runIf b1 (omEffect (hooks s)) s3)) = None).
    { destruct b1; cbn [runIf] in *.
      - apply omEffect_idle. exact Hi.
      - rewrite (H1 eq_refl) in A2. specialize (A2 Hi).
        rewrite (sl_om_view _ _ E3). destruct b2; cbn [runIf]; exact A2. }
    destruct b2; cbn [runIf]; [now rewrite omCleanup_timerEffect|exact G].
  - (* a run: the phase timer *)
    intros Hs. apply (tickArmed_ext _ _ (eq_sym E4)).
    destruct b2; cbn [runIf] in *.
    + now apply timerEffect_arms.
    + rewrite (H2 eq_refl) in A3. specialize (A3 Hs).
      assert (G : tickArmed s3).
      { apply (tickArmed_ext _ _ (eq_sym E3)).
        destruct b1; cbn [runIf]; [now apply tickArmed_omEffectCleanup|exact A3]. }
      destruct b1; cbn [runIf]; [now apply tickArmed_omEffect|exact G].
Qed.

(** ** Which timers a firing leaves armed *)

Lemma In_rearm_other t b u :
  In u (timers b) -> tid u <> tid t -> In u (timers (rearm t b)).
Proof.
  intros Hu Hne. unfold rearm. destruct (period t); [|exact Hu].
  destruct (existsb _ _); [|exact Hu]. cbn. apply in_or_app. left.
  apply (In_without (tid t)). split; assumption.
Qed.

Lemma In_rearm_self t b p :
  In t (timers b) -> period t = Some p ->
  In (mkTimer (tid t) (nextCallback (cb t)) (due t + p) (Some p)) (timers (rearm t b)).
Proof.
  intros Ht Hp. unfold rearm. rewrite Hp.
  assert (E : existsb (fun u => Nat.eqb (tid u) (tid t)) (timers b) = true).
  { apply existsb_exists. exists t. split; [exact Ht|apply Nat.eqb_refl]. }
  rewrite E. cbn. apply in_or_app. right. now left.
Qed.

(** The fade variables never hold the id of the phase timer. *)
Lemma tick_not_fade s u :
  Sched s -> In u (timers (browser s)) -> cb u = CbTick ->
  fadeTimeoutId s <> Some (tid u) /\ fadeIntervalId s <> Some (tid u).
Proof.
  intros (_ & F & _) Hu Ec. destruct (F u Hu) as (_ & _ & Ho).
  destruct Ho as (_ & _ & _ & O4 & O5). unfold isFadeStep in O5. rewrite Ec in *.
  split; intros Q; [apply O4 in Q|apply O5 in Q]; discriminate.
Qed.

Lemma tick_after_playOm s u :
  Sched s -> In u (timers (browser s)) -> cb u = CbTick ->
  In u (timers (browser (playOm s))).
Proof.
  intros S Hu Ec. destruct (tick_not_fade s u S Hu Ec) as [N1 N2].
  destruct (schedOf_playOm s) as [d E]. rewrite (timers_view _ _ _ _ E).
  apply in_or_app. left. apply In_clearL. split; [|exact N2].
  apply In_clearL. split; assumption.
Qed.

Lemma effects_playOm s : effects (playOm s) = effects s.
Proof. reflexivity. Qed.

Lemma effects_fadeTimeoutCb s : effects (fadeTimeoutCb s) = effects s.
Proof. unfold fadeTimeoutCb. destruct (omAudioRef (refs s)); reflexivity. Qed.

Lemma effects_fadeStepCb k s : effects (fadeStepCb k s) = effects s.
Proof.
  unfold fadeStepCb. destruct (omAudioRef (refs s)); [|reflexivity].
  destruct (_ <=? _); reflexivity.
Qed.

(** No callback writes what the cleanup of the phase timer reads, and only
    the start of the hum cycle writes what the cleanup of the hum reads. *)
Lemma cleanups_runCallback c s :
  timerCleanup (effects (runCallback c s)) = timerCleanup (effects s) /\
  (omCleanup (effects s) = None -> omCleanup (effects (runCallback c s)) = None).
Proof.
  destruct c; cbn [runCallback].
  - now rewrite effects_tickUpdater.
  - split; [reflexivity|]. unfold playOmForExhale. cbn. now intros ->.
  - now rewrite effects_playOm.
  - now rewrite effects_fadeTimeoutCb.
  - now rewrite effects_fadeStepCb.
Qed.

Lemma tick_after_runCallback c s u :
  Sched s -> In u (timers (browser s)) -> cb u = CbTick ->
  In u (timers (browser (runCallback c s))).
Proof.
  intros S Hu Ec. destruct c as [| | | |step]; cbn [runCallback].
  - now rewrite (timers_schedOf _ _ (schedOf_tickUpdater s)).
  - destruct (schedOf_playOmForExhale s) as [d E]. rewrite (timers_view _ _ _ _ E).
    apply in_or_app. left. now apply tick_after_playOm.
  - now apply tick_after_playOm.
  - destruct (schedOf_fadeTimeoutCb s) as [E|[d E]].
    + now rewrite (timers_schedOf _ _ E).
    + rewrite (timers_view _ _ _ _ E). apply in_or_app. now left.
  - destruct (schedOf_fadeStepCb step s) as [E|E].
    + now rewrite (timers_schedOf _ _ E).
    + rewrite (timers_view _ _ _ _ E). apply In_clearL. split; [exact Hu|].
      now apply (tick_not_fade s u S Hu Ec).
Qed.

Lemma deps_dispatch t s : deps (effects (dispatch t s)) = deps (effects s).
Proof.
  pose proof (f_equal snd (clockOf_dispatch t s)) as E. cbn [clockOf snd] in E.
  rewrite E. destruct (cb t); try reflexivity.
  cbn. now rewrite effects_tickUpdater.
Qed.

Lemma Armed_dispatch t s :
  Sched s -> In t (timers (browser s)) -> Armed s -> Armed (dispatch t s).
Proof.
  intros S Ht (A1 & A2 & A3). unfold Armed. rewrite deps_dispatch.
  unfold dispatch. cbv zeta.
  pose proof (schedOf_advanceClock (due t) s) as E0.
  set (s0 := advanceClock (due t) s) in *.
  set (s1 := match period t with
             | Some _ => s0
             | None => upd_browser (clearTimer (Some (tid t))) s0
             end).
  assert (S0 : Sched s0) by (apply (Sched_ext s); [now symmetry|exact S]).
  assert (S1 : Sched s1).
  { unfold s1. destruct (period t); [exact S0|].
    unfold Sched, upd_browser. cbn. now apply SchedOn_without. }
  assert (K1 : timerCleanup (effects s1) = timerCleanup (effects s)).
  { rewrite <- (sl_tick_view _ _ E0). unfold s1. now destruct (period t). }
  assert (K2 : omCleanup (effects s1) = omCleanup (effects s)).
  { rewrite <- (sl_om_view _ _ E0). unfold s1. now destruct (period t). }
  assert (M : forall u, In u (timers (browser s0)) ->
                        (period t = None -> tid u <> tid t) ->
                        In u (timers (browser s1))).
  { intros u Hu Hn. unfold s1. destruct (period t); [exact Hu|].
    cbn. apply In_without. split; [exact Hu|now apply Hn]. }
  destruct (cleanups_runCallback (cb t) s1) as [C1 C2].
  clearbody s1. cbn [effects upd_browser].
  rewrite C1, K1. split; [exact A1|]. split.
  - intros H. apply C2. rewrite K2. now apply A2.
  - intros H. destruct (A3 H) as (u & Hu & Ec & Ek).
    rewrite (timers_schedOf _ _ (eq_sym E0)) in Hu, Ht.
    destruct (Nat.eq_dec (tid u) (tid t)) as [Et|Et].
    + pose proof (unique_tid _ _ _ _ _ S0 Ht Hu Et) as ->.
      destruct S0 as (_ & F & _). destruct (F t Ht) as (_ & Hh & _).
      unfold held in Hh. rewrite Ec in Hh. destruct Hh as [_ Hp].
      exists (mkTimer (tid t) (nextCallback (cb t)) (due t + 1000) (Some 1000)).
      split; [|split].
      * cbn [browser]. apply In_rearm_self; [|exact Hp].
        apply tick_after_runCallback; [exact S1| |exact Ec].
        apply M; [exact Ht|]. rewrite Hp. discriminate.
      * cbn. now rewrite Ec.
      * cbn [effects upd_browser]. rewrite C1, K1. exact Ek.
    + exists u. split; [|split].
      * cbn [browser]. apply In_rearm_other; [|exact Et].
        apply tick_after_runCallback; [exact S1| |exact Ec].
        apply M; [exact Hu|]. intros _. exact Et.
      * exact Ec.
      * cbn [effects upd_browser]. rewrite C1, K1. exact Ek.
Qed.

Lemma Armed_init : Armed init.
Proof.
  unfold Armed. cbn. repeat split; try reflexivity. discriminate.
Qed.

Lemma deps_handler c s : deps (effects (handler c s)) = deps (effects s).
Proof.
  destruct c; cbn [handler]; [reflexivity| |reflexivity].
  unfold returnToStart, stopAudio. cbn. destruct (audioRef (refs s)); reflexivity.
Qed.

Lemma deps_advanceClock t s : deps (effects (advanceClock t s)) = deps (effects s).
Proof. unfold advanceClock. destruct (_ <=? _); reflexivity. Qed.

Lemma Armed_step s s' : step s s' -> Sched s -> Armed s -> Armed s'.
Proof.
  destruct 1 as [s t|s c Q E|s t Q Ht|s]; intros S A.
  - apply (Armed_ext s);
      [symmetry; apply schedOf_advanceClock|symmetry; apply deps_advanceClock|exact A].
  - apply (Armed_ext s);
      [symmetry; apply schedOf_handler|symmetry; apply deps_handler|exact A].
  - now apply Armed_dispatch.
  - now apply Armed_commit.
Qed.

Lemma Armed_reachable s : reachable s -> Armed s.
Proof.
  induction 1 as [|s s' R IH St]; [exact Armed_init|].
  exact (Armed_step _ _ St (Sched_reachable _ R) IH).
Qed.

(** ** The timers of a reachable state *)

Lemma quiescent_deps s :
  quiescent s ->
  d_started (deps (effects s)) = started (hooks s) /\
  humIdle (deps (effects s)) =
    negb (started (hooks s)) || isP1 (currentKey (hooks s)) || isComplete (hooks s).
Proof. unfold quiescent, humIdle. intros ->. split; reflexivity. Qed.

Lemma no_tick_without_cleanup s t :
  Sched s -> timerCleanup (effects s) = None -> In t (timers (browser s)) ->
  cb t <> CbTick.
Proof.
  intros (_ & F & _) E Ht Ec. destruct (F t Ht) as (_ & Hh & _).
  unfold held in Hh. rewrite Ec in Hh. destruct Hh as [Hh _].
  unfold slotsOf in Hh. cbn in Hh. congruence.
Qed.

Lemma no_hum_without_cleanup s t :
  Sched s -> omCleanup (effects s) = None -> In t (timers (browser s)) ->
  cb t <> CbStartOmCycle /\ cb t <> CbPlayOm.
Proof.
  intros (_ & F & _) E Ht. destruct (F t Ht) as (_ & Hh & _).
  unfold held, slotsOf in Hh. cbn in Hh. rewrite E in Hh.
  split; intros Ec; rewrite Ec in Hh.
  - destruct Hh as [Hh _]. discriminate.
  - destruct Hh as [[sid Hh] _]. discriminate.
Qed.

(** Two pending timers that serve the same purpose are one timer. *)
Lemma same_job_unique s t u :
  Sched s -> In t (timers (browser s)) -> In u (timers (browser s)) ->
  sameJob (cb t) (cb u) = true -> t = u.
Proof.
  intros S Ht Hu J.
  apply (unique_tid _ _ _ _ _ S Hu Ht).
  destruct S as (_ & F & _).
  destruct (F t Ht) as (_ & H1 & _), (F u Hu) as (_ & H2 & _).
  unfold held in H1, H2.
  destruct (cb t) eqn:E1, (cb u) eqn:E2; try discriminate J.
  - destruct H1 as [H1 _], H2 as [H2 _]. congruence.
  - destruct H1 as [H1 _], H2 as [H2 _]. congruence.
  - destruct H1 as [H1 _], H2 as [[z H2] _]. congruence.
  - destruct H1 as [[z H1] _], H2 as [H2 _]. congruence.
  - destruct H1 as [[z1 H1] _], H2 as [[z2 H2] _]. congruence.
  - destruct H1 as [H1 _], H2 as [H2 _]. congruence.
  - destruct H1 as (_ & _ & H1). rewrite noFadeStep_spec in H1.
    specialize (H1 u Hu). unfold isFadeStep in H1. rewrite E2 in H1. discriminate.
  - destruct H2 as (_ & _ & H2). rewrite noFadeStep_spec in H2.
    specialize (H2 t Ht). unfold isFadeStep in H2. rewrite E1 in H2. discriminate.
  - destruct H1 as [H1 _], H2 as [H2 _]. congruence.
Qed.

(** X1.  In every state the component can reach, at most one timer is
    pending for the phase clock, at most one for the hum cycle (the 4 s
    timeout or the 12 s interval) and at most one for the fade of a hum (the
    7 s timeout or the 50 ms interval): no timer is ever armed twice. *)
Theorem one_timer_per_job s t u :
  reachable s ->
  In t (timers (browser s)) -> In u (timers (browser s)) ->
  sameJob (cb t) (cb u) = true -> t = u.
Proof. intros R. exact (same_job_unique s t u (Sched_reachable s R)). Qed.

(** X2.  From the click on a duration until the back button, the completion
    screen included, exactly one phase timer is pending, an interval of
    1000 ms. *)
Theorem phase_timer_armed_while_started s :
  reachable s -> quiescent s -> started (hooks s) = true ->
  exists t, In t (timers (browser s)) /\ cb t = CbTick /\ period t = Some 1000 /\
            forall u, In u (timers (browser s)) -> cb u = CbTick -> u = t.
Proof.
  intros R Q Hs. destruct (quiescent_deps s Q) as [D _].
  destruct (Armed_reachable s R) as (_ & _ & A3).
  rewrite D in A3. destruct (A3 Hs) as (t & Ht & Ec & _).
  pose proof (Sched_reachable s R) as S.
  exists t. split; [exact Ht|]. split; [exact Ec|]. split.
  - destruct S as (_ & F & _). destruct (F t Ht) as (_ & Hh & _).
    unfold held in Hh. rewrite Ec in Hh. tauto.
  - intros u Hu Eu. apply (unique_tid _ _ _ _ _ S Ht Hu).
    destruct S as (_ & F & _).
    destruct (F t Ht) as (_ & H1 & _), (F u Hu) as (_ & H2 & _).
    unfold held in H1, H2. rewrite Ec in H1. rewrite Eu in H2.
    destruct H1 as [H1 _], H2 as [H2 _]. congruence.
Qed.

(** X3.  On the start screen, in the first phase and on the completion
    screen neither the timeout that starts the hum cycle nor the hum interval
    is pending, whatever was clicked before. *)
Theorem no_hum_timer_where_hum_returns_early s :
  reachable s -> quiescent s ->
  negb (started (hooks s)) || isP1 (currentKey (hooks s)) || isComplete (hooks s)
    = true ->
  forall t, In t (timers (browser s)) -> cb t <> CbStartOmCycle /\ cb t <> CbPlayOm.
Proof.
  intros R Q H t Ht. destruct (quiescent_deps s Q) as [_ D].
  destruct (Armed_reachable s R) as (_ & A2 & _). rewrite D in A2.
  exact (no_hum_without_cleanup s t (Sched_reachable s R) (A2 H) Ht).
Qed.

Lemma start_screen_timers s :
  reachable s -> quiescent s -> started (hooks s) = false ->
  forall t, In t (timers (browser s)) -> isFade (cb t) = true.
Proof.
  intros R Q H t Ht. destruct (quiescent_deps s Q) as [D1 D2].
  destruct (Armed_reachable s R) as (A1 & A2 & _).
  rewrite D1 in A1. rewrite D2, H in A2.
  pose proof (Sched_reachable s R) as S.
  pose proof (no_tick_without_cleanup s t S (A1 H) Ht).
  destruct (no_hum_without_cleanup s t S (A2 eq_refl) Ht).
  destruct (cb t); try reflexivity; congruence.
Qed.

Lemma started_click_back s : started (hooks (click ClickBack s)) = false.
Proof.
  unfold click. destruct (settle_cells (handler ClickBack s)) as (Eh & _).
  rewrite Eh. destruct (commit_keeps (handler ClickBack s)) as (Es & _).
  rewrite Es. cbn [handler]. unfold returnToStart, stopAudio. cbn.
  destruct (audioRef (refs s)); reflexivity.
Qed.

(** X4.  The back button and "Return to Start" cancel the phase timer, the
    timeout that starts the hum cycle and the hum interval, from whatever
    state of a run they are clicked: the only timers that can outlive the
    click are the fade timers of a hum. *)
Theorem back_cancels_session_timers s :
  reachable s -> quiescent s -> started (hooks s) = true ->
  forall t, In t (timers (browser (click ClickBack s))) -> isFade (cb t) = true.
Proof.
  intros R Q H. apply start_screen_timers.
  - apply reachable_click; [exact R|exact Q|exact H].
  - apply quiescent_settle.
  - apply started_click_back.
Qed.

(** ** The start screen *)

Lemma sameJob_fade a b : isFade a = true -> isFade b = true -> sameJob a b = true.
Proof. destruct a, b; cbn; congruence. Qed.

Lemma singleton_list (l : list Timer) t :
  NoDup (map tid l) -> In t l -> (forall u, In u l -> u = t) -> l = [t].
Proof.
  destruct l as [|a l]; [intros _ []|].
  intros N Ht U. rewrite (U a (or_introl eq_refl)).
  destruct l as [|b l]; [reflexivity|].
  exfalso. cbn in N. inversion N as [|? ? Hn _]; subst. apply Hn.
  rewrite (U a (or_introl eq_refl)), (U b (or_intror (or_introl eq_refl))).
  now left.
Qed.

(** On the start screen at most one timer is pending, a fade timer. *)
Lemma start_screen_queue s :
  reachable s -> quiescent s -> started (hooks s) = false ->
  timers (browser s) = [] \/
  exists t, timers (browser s) = [t] /\ isFade (cb t) = true.
Proof.
  intros R Q H. pose proof (start_screen_timers s R Q H) as Fd.
  pose proof (Sched_reachable s R) as S.
  destruct (timers (browser s)) as [|t l] eqn:E; [now left|right].
  exists t. split; [|apply Fd; now left].
  rewrite <- E in *.
  assert (Ht : In t (timers (browser s))) by (rewrite E; now left).
  apply singleton_list; [apply S|exact Ht|].
  intros u Hu. symmetry. apply (same_job_unique s t u S Ht Hu).
  apply sameJob_fade; now apply Fd.
Qed.

Lemma calls_rearm t b : calls (rearm t b) = calls b.
Proof.
  unfold rearm. destruct (period t); [|reflexivity].
  destruct (existsb _ _); reflexivity.
Qed.

Lemma calls_clearTimer id b : calls (clearTimer id b) = calls b.
Proof. destruct id; reflexivity. Qed.

Lemma calls_advanceClock t s : calls (browser (advanceClock t s)) = calls (browser s).
Proof. unfold advanceClock. destruct (_ <=? _); reflexivity. Qed.

Lemma onlyPauses_trans s1 s2 s3 :
  onlyPauses s1 s2 -> onlyPauses s2 s3 -> onlyPauses s1 s3.
Proof.
  intros H1 H2 c Hc. destruct (H2 c Hc) as [H|H]; [now apply H1|now right].
Qed.

Lemma onlyPauses_eq s1 s2 :
  calls (browser s2) = calls (browser s1) -> onlyPauses s1 s2.
Proof. intros E c Hc. left. now rewrite <- E. Qed.

(** A fade step, with what it tells about the counter. *)
Lemma fadeStepCb_cases k s :
  (schedOf (fadeStepCb k s) = schedOf s /\
   calls (browser (fadeStepCb k s)) = calls (browser s) /\
   (omAudioRef (refs s) = None \/ k + 1 < fadeSteps)) \/
  (schedOf (fadeStepCb k s) =
     (slotsOf s, nextTimerId (browser s),
      clearL (fadeIntervalId s) (timers (browser s))) /\
   (exists x, calls (browser (fadeStepCb k s)) = (x, Om, CallPause) :: calls (browser s)) /\
   fadeSteps <= k + 1).
Proof.
  unfold fadeStepCb. destruct (omAudioRef (refs s)) as [a|] eqn:E.
  2:{ left. repeat split. now left. }
  destruct (fadeSteps <=? k + 1) eqn:Ek.
  - right. apply Z.leb_le in Ek. split; [|split; [|exact Ek]].
    + unfold schedOf, slotsOf, fadeTimeoutId, fadeIntervalId. cbn.
      rewrite E, nextTimerId_clearTimer, timers_clearTimer'. reflexivity.
    + eexists. cbn. rewrite calls_clearTimer. reflexivity.
  - left. apply Z.leb_gt in Ek. split; [|split; [reflexivity|now right]].
    unfold schedOf, slotsOf, fadeTimeoutId, fadeIntervalId. cbn.
    rewrite E. reflexivity.
Qed.

Lemma calls_fadeTimeoutCb s : calls (browser (fadeTimeoutCb s)) = calls (browser s).
Proof. unfold fadeTimeoutCb. destruct (omAudioRef (refs s)); reflexivity. Qed.

Lemma timers_upd_browser_rearm t s :
  timers (browser (upd_browser (rearm t) s)) = timers (rearm t (browser s)).
Proof. reflexivity. Qed.

(** A fade timer fires on the start screen: no cell changes, nothing starts
    to play, and the fade has fewer firings left. *)
Lemma fire_fade_on_start_screen t s :
  reachable s -> quiescent s -> started (hooks s) = false ->
  timers (browser s) = [t] -> isFade (cb t) = true ->
  fire t s = dispatch t s /\ clockOf (dispatch t s) = clockOf s /\
  onlyPauses s (dispatch t s) /\
  (timersLeft (timers (browser (dispatch t s))) < timersLeft [t])%nat.
Proof.
  intros R Q H El Ef.
  assert (Ec : clockOf (dispatch t s) = clockOf s).
  { rewrite clockOf_dispatch. destruct (cb t); try reflexivity. discriminate. }
  split; [|split; [exact Ec|]].
  { unfold fire. apply settle_quiescent. apply (quiescent_ext s); [now symmetry|exact Q]. }
  pose proof (Sched_reachable s R) as S.
  assert (Ht : In t (timers (browser s))) by (rewrite El; now left).
  unfold dispatch. cbv zeta.
  pose proof (schedOf_advanceClock (due t) s) as E0.
  pose proof (calls_advanceClock (due t) s) as C0.
  set (s0 := advanceClock (due t) s) in *.
  assert (S0 : Sched s0) by (apply (Sched_ext s); [now symmetry|exact S]).
  assert (L0 : timers (browser s0) = [t])
    by now rewrite (timers_schedOf _ _ E0).
  assert (P0 : onlyPauses s s0) by now apply onlyPauses_eq.
  clearbody s0.
  pose proof S0 as (_ & F & _).
  assert (Ht0 : In t (timers (browser s0))) by (rewrite L0; now left).
  destruct (F t Ht0) as (_ & Hh & _). unfold held in Hh.
  destruct (cb t) as [| | | |k] eqn:Eb; try discriminate Ef; cbn [runCallback].
  - (* the fade timeout *)
    destruct Hh as (_ & Hp & _). rewrite Hp.
    set (s1 := upd_browser (clearTimer (Some (tid t))) s0).
    assert (L1 : timers (browser s1) = []).
    { unfold s1. cbn. rewrite L0. cbn. now rewrite Nat.eqb_refl. }
    assert (C1 : calls (browser s1) = calls (browser s0)) by reflexivity.
    clearbody s1. rewrite timers_upd_browser_rearm.
    unfold rearm. rewrite Hp. split.
    + apply (onlyPauses_trans _ s0); [exact P0|]. apply onlyPauses_eq.
      cbn. now rewrite calls_fadeTimeoutCb.
    + unfold timersLeft. cbn [map list_sum fadeLeft]. rewrite Eb. cbn [fadeLeft].
      destruct (schedOf_fadeTimeoutCb s1) as [E|[d E]].
      * rewrite (timers_schedOf _ _ E), L1. cbn. lia.
      * rewrite (timers_view _ _ _ _ E), L1. cbn. lia.
  - (* a step of the fade *)
    destruct Hh as (Hk & Hp & Hk0). rewrite Hp.
    rewrite timers_upd_browser_rearm.
    unfold slotsOf in Hk. cbn in Hk.
    destruct (fadeStepCb_cases k s0) as [(E & C & Hc)|(E & (x & C) & Hc)].
    + split.
      * apply (onlyPauses_trans _ s0); [exact P0|]. apply onlyPauses_eq.
        cbn. now rewrite calls_rearm.
      * pose proof (timers_schedOf _ _ E) as L. rewrite L0 in L.
        unfold rearm. rewrite Hp, L. cbn -[Z.sub Z.max Z.add Z.to_nat].
        rewrite Nat.eqb_refl. cbn -[Z.sub Z.max Z.add Z.to_nat].
        unfold timersLeft. cbn -[Z.sub Z.max Z.add Z.to_nat].
        rewrite Eb. cbn -[Z.sub Z.max Z.add Z.to_nat].
        destruct Hc as [Hc|Hc].
        -- unfold fadeIntervalId in Hk. rewrite Hc in Hk. discriminate.
        -- unfold fadeSteps in *. lia.
    + split.
      * apply (onlyPauses_trans _ s0); [exact P0|].
        intros c Hc'. cbn in Hc'. rewrite calls_rearm, C in Hc'.
        destruct Hc' as [<-|Hc']; [now right|now left].
      * pose proof (timers_view _ _ _ _ E) as L. rewrite L0, Hk in L. cbn in L.
        rewrite Nat.eqb_refl in L. cbn in L.
        unfold rearm. rewrite Hp, L. cbn -[Z.sub Z.max Z.add Z.to_nat].
        unfold timersLeft. cbn -[Z.sub Z.max Z.add Z.to_nat].
        rewrite Eb, ?L. cbn -[Z.sub Z.max Z.add Z.to_nat]. unfold fadeSteps. lia.
Qed.

Lemma hooks_clockOf s1 s2 : clockOf s1 = clockOf s2 -> hooks s1 = hooks s2.
Proof. intros E. exact (f_equal (fun x => fst (fst (fst x))) E). Qed.

Lemma start_screen_elapse n : forall t s,
  reachable s -> quiescent s -> started (hooks s) = false ->
  (timersLeft (timers (browser s)) <= n)%nat ->
  exists s', elapseTo n t s = Some s' /\ hooks s' = hooks s /\ onlyPauses s s' /\
             forall u, In u (timers (browser s')) -> isFade (cb u) = true.
Proof.
  induction n as [|n IH]; intros t s R Q H Hn.
  - destruct (start_screen_queue s R Q H) as [E|(u & E & Ef)].
    + cbn [elapseTo]. rewrite E. cbn [nextTimer].
      exists (advanceClock t s). split; [reflexivity|].
      split; [exact (hooks_clockOf _ _ (clockOf_advanceClock t s))|].
      split; [apply onlyPauses_eq, calls_advanceClock|].
      rewrite timers_advanceClock, E. intros u [].
    + exfalso. rewrite E in Hn. unfold timersLeft in Hn.
      cbn -[Z.sub Z.max Z.add Z.to_nat] in Hn.
      destruct (cb u); try discriminate Ef; cbn -[Z.sub Z.max Z.add Z.to_nat] in Hn;
        lia.
  - assert (W : exists s', Some (advanceClock t s) = Some s' /\
                           hooks s' = hooks s /\ onlyPauses s s' /\
                           forall u, In u (timers (browser s')) -> isFade (cb u) = true).
    { exists (advanceClock t s). split; [reflexivity|].
      split; [exact (hooks_clockOf _ _ (clockOf_advanceClock t s))|].
      split; [apply onlyPauses_eq, calls_advanceClock|].
      rewrite timers_advanceClock. now apply start_screen_timers. }
    cbn [elapseTo].
    destruct (start_screen_queue s R Q H) as [E|(u & E & Ef)].
    + rewrite E. cbn [nextTimer]. exact W.
    + rewrite E. cbn [nextTimer]. destruct (due u <=? t); [|exact W].
      destruct (fire_fade_on_start_screen u s R Q H E Ef) as (Ff & Ec & Ep & Hl).
      assert (Hu : In u (timers (browser s))) by (rewrite E; now left).
      pose proof (reachable_fire u s R Q Hu) as R'.
      rewrite Ff in *.
      assert (Q' : quiescent (dispatch u s))
        by (apply (quiescent_ext s); [now symmetry|exact Q]).
      pose proof (hooks_clockOf _ _ Ec) as Eh.
      assert (H' : started (hooks (dispatch u s)) = false) by now rewrite Eh.
      rewrite E in Hn.
      destruct (IH t (dispatch u s) R' Q' H' ltac:(lia)) as (s' & E' & Eh' & Ep' & Ft').
      exists s'. split; [exact E'|]. split; [now rewrite Eh'|].
      split; [exact (onlyPauses_trans _ _ _ Ep Ep')|exact Ft'].
Qed.

(** X5.  On the start screen, and so after the back button, the passage of
    time changes no state cell and starts no sound: whatever fade timer is
    still pending fires at most 21 times, each time pausing or dimming the
    hum, and then no timer is left. *)
Theorem start_screen_is_still t s :
  reachable s -> quiescent s -> started (hooks s) = false ->
  exists s', elapseTo 21 t s = Some s' /\ hooks s' = hooks s /\ onlyPauses s s' /\
             forall u, In u (timers (browser s')) -> isFade (cb u) = true.
Proof.
  intros R Q H. apply start_screen_elapse; [exact R|exact Q|exact H|].
  destruct (start_screen_queue s R Q H) as [E|(u & E & Ef)].
  - rewrite E. cbn. lia.
  - rewrite E. unfold timersLeft. cbn -[Z.sub Z.max Z.add Z.to_nat].
    pose proof (Sched_reachable s R) as (_ & F & _).
    assert (Hu : In u (timers (browser s))) by (rewrite E; now left).
    destruct (F u Hu) as (_ & Hh & _). unfold held in Hh.
    destruct (cb u); try discriminate Ef; cbn -[Z.sub Z.max Z.add Z.to_nat]; [lia|].
    unfold fadeSteps. lia.
Qed.

(** ** The 2-minute run, 35.5 s in

    The second phase has run for 11.5 s: the hum started at 28 s and has
    been fading since 35 s. *)

Lemma run_M2_35500 :
  exists s,
    session M2 35500 = Some s /\ reachable s /\ quiescent s /\
    hooks s = mkHooks true 1 24000 13000 true /\
    timers (browser s) =
      [mkTimer 4 CbPlayOm 40000 (Some 12000); mkTimer 1 CbTick 36000 (Some 1000);
       mkTimer 5 (CbFadeStep 10) 35550 (Some 50)].
Proof.
  destruct (session M2 35500) as [s|] eqn:E; [|vm_compute in E; discriminate].
  exists s. split; [reflexivity|].
  destruct (session_reachable _ _ _ E) as [R Q].
  assert (F : option_map (fun x => (hooks x, timers (browser x))) (session M2 35500)
              = Some (mkHooks true 1 24000 13000 true,
                      [mkTimer 4 CbPlayOm 40000 (Some 12000);
                       mkTimer 1 CbTick 36000 (Some 1000);
                       mkTimer 5 (CbFadeStep 10) 35550 (Some 50)]))
    by (vm_compute; reflexivity).
  rewrite E in F. cbv beta iota delta [option_map] in F. injection F as F1 F2.
  repeat split; assumption.
Qed.

(** The phase timer of that state is the only timer for the phase clock. *)
Lemma one_timer_per_job_witness :
  exists s u,
    session M2 35500 = Some s /\ tickTimer s = Some u /\
    mkTimer 1 CbTick 36000 (Some 1000) = u.
Proof.
  destruct run_M2_35500 as (s & E & R & Q & Eh & El).
  destruct (tickTimer s) as [u|] eqn:Eu.
  2:{ unfold tickTimer in Eu. rewrite El in Eu. cbn in Eu. discriminate. }
  exists s, u. split; [exact E|]. split; [exact Eu|].
  destruct (tickTimer_spec _ _ Eu) as [Hu Hc].
  apply (one_timer_per_job s); [exact R| |exact Hu|].
  - rewrite El. right. now left.
  - cbn [cb]. now rewrite Hc.
Defined.

Lemma phase_timer_armed_while_started_witness :
  exists s,
    session M2 35500 = Some s /\
    exists t, In t (timers (browser s)) /\ cb t = CbTick /\ period t = Some 1000 /\
              forall u, In u (timers (browser s)) -> cb u = CbTick -> u = t.
Proof.
  destruct run_M2_35500 as (s & E & R & Q & Eh & El).
  exists s. split; [exact E|].
  apply (phase_timer_armed_while_started s R Q). now rewrite Eh.
Defined.

(** The 2-minute run, 10 s in: the first phase. *)
Lemma no_hum_timer_where_hum_returns_early_witness :
  exists s,
    session M2 10000 = Some s /\ currentKey (hooks s) = Some p1 /\
    forall t, In t (timers (browser s)) -> cb t <> CbStartOmCycle /\ cb t <> CbPlayOm.
Proof.
  destruct (session M2 10000) as [s|] eqn:E; [|vm_compute in E; discriminate].
  destruct (session_reachable _ _ _ E) as [R Q].
  assert (F : option_map (fun x => hooks x) (session M2 10000)
              = Some (mkHooks true 0 24000 14000 true))
    by (vm_compute; reflexivity).
  rewrite E in F. cbv beta iota delta [option_map] in F. injection F as F.
  exists s. split; [reflexivity|]. split; [now rewrite F|].
  apply (no_hum_timer_where_hum_returns_early s R Q). now rewrite F.
Defined.

(** The back button 35.5 s into the 2-minute run. *)
Lemma back_cancels_session_timers_witness :
  exists s,
    session M2 35500 = Some s /\
    forall t, In t (timers (browser (click ClickBack s))) -> isFade (cb t) = true.
Proof.
  destruct run_M2_35500 as (s & E & R & Q & Eh & El).
  exists s. split; [exact E|].
  apply (back_cancels_session_timers s R Q). now rewrite Eh.
Defined.

(** The back button 35.5 s into the 2-minute run, then whatever time [t]. *)
Lemma start_screen_is_still_witness :
  exists s,
    session M2 35500 = Some s /\
    exists s', elapseTo 21 40000 (click ClickBack s) = Some s' /\
               hooks s' = hooks (click ClickBack s) /\
               onlyPauses (click ClickBack s) s' /\
               forall u, In u (timers (browser s')) -> isFade (cb u) = true.
Proof.
  destruct run_M2_35500 as (s & E & R & Q & Eh & El).
  exists s. split; [exact E|].
  apply (start_screen_is_still 40000 (click ClickBack s)).
  - apply reachable_click; [exact R|exact Q|]. cbn [enabled]. now rewrite Eh.
  - apply quiescent_settle.
  - apply started_click_back.
Defined.

(** ** Through a commit, effect by effect *)

Lemma commit_preserves (P : State -> Prop) s :
  (forall x, P x -> P (omEffectCleanup x)) ->
  (forall x, P x -> P (timerEffectCleanup x)) ->
  (forall x, P x -> P (completionEffect (hooks s) x)) ->
  (forall x, P x -> P (keepAmbienceEffect (hooks s) x)) ->
  (forall x, P x -> P (syncRefEffect (hooks s) x)) ->
  (forall x, P x -> P (chimeEffect (hooks s) x)) ->
  (forall x, P x -> P (omEffect (hooks s) x)) ->
  (forall x, P x -> P (timerEffect (hooks s) x)) ->
  (forall x, P x -> P (resetRemainingEffect (hooks s) x)) ->
  (forall x, P x -> P (muteEffect (hooks s) x)) ->
  (forall x, P x -> P (upd_effects (set_deps (depsOf (hooks s))) x)) ->
  P s -> P (commit s).
Proof.
  intros H1 H2 H3 H4 H5 H6 H7 H8 H9 H10 H11 H0.
  assert (R : forall b f x, (forall y, P y -> P (f y)) -> P x -> P (runIf b f x)).
  { intros b f x Hf Hx. destruct b; cbn; auto. }
  unfold commit. cbv zeta.
  apply H11. apply R; [exact H10|]. apply R; [exact H9|]. apply R; [exact H8|].
  apply R; [exact H7|]. apply R; [exact H6|]. apply R; [exact H5|].
  apply R; [exact H4|]. apply R; [exact H3|]. apply R; [exact H2|].
  apply R; [exact H1|]. exact H0.
Qed.

(** The same, up to the last effect. *)
Lemma commit_last (P : State -> Prop) s :
  (forall x, P x -> P (omEffectCleanup x)) ->
  (forall x, P x -> P (timerEffectCleanup x)) ->
  (forall x, P x -> P (completionEffect (hooks s) x)) ->
  (forall x, P x -> P (keepAmbienceEffect (hooks s) x)) ->
  (forall x, P x -> P (syncRefEffect (hooks s) x)) ->
  (forall x, P x -> P (chimeEffect (hooks s) x)) ->
  (forall x, P x -> P (omEffect (hooks s) x)) ->
  (forall x, P x -> P (timerEffect (hooks s) x)) ->
  (forall x, P x -> P (resetRemainingEffect (hooks s) x)) ->
  P s ->
  exists y,
    P y /\
    commit s =
    upd_effects (set_deps (depsOf (hooks s)))
      (runIf (changedAmbience s || changedStarted s || changedComplete s)
         (muteEffect (hooks s)) y).
Proof.
  intros H1 H2 H3 H4 H5 H6 H7 H8 H9 H0.
  assert (R : forall b f x, (forall y, P y -> P (f y)) -> P x -> P (runIf b f x)).
  { intros b f x Hf Hx. destruct b; cbn; auto. }
  unfold commit. cbv zeta. eexists. split; [|reflexivity].
  apply R; [exact H9|]. apply R; [exact H8|].
  apply R; [exact H7|]. apply R; [exact H6|]. apply R; [exact H5|].
  apply R; [exact H4|]. apply R; [exact H3|]. apply R; [exact H2|].
  apply R; [exact H1|]. exact H0.
Qed.

(** The same, from the end of the cleanups. *)
Lemma commit_bodies (P : State -> Prop) s :
  (forall x, P x -> P (completionEffect (hooks s) x)) ->
  (forall x, P x -> P (keepAmbienceEffect (hooks s) x)) ->
  (forall x, P x -> P (syncRefEffect (hooks s) x)) ->
  (forall x, P x -> P (chimeEffect (hooks s) x)) ->
  (forall x, P x -> P (omEffect (hooks s) x)) ->
  (forall x, P x -> P (timerEffect (hooks s) x)) ->
  (forall x, P x -> P (resetRemainingEffect (hooks s) x)) ->
  (forall x, P x -> P (muteEffect (hooks s) x)) ->
  (forall x, P x -> P (upd_effects (set_deps (depsOf (hooks s))) x)) ->
  P (runIf (changedStarted s || changedDuration s) timerEffectCleanup
       (runIf (changedStarted s || changedKey s || changedComplete s)
          omEffectCleanup s)) ->
  P (commit s).
Proof.
  intros H3 H4 H5 H6 H7 H8 H9 H10 H11 H0.
  assert (R : forall b f x, (forall y, P y -> P (f y)) -> P x -> P (runIf b f x)).
  { intros b f x Hf Hx. destruct b; cbn; auto. }
  unfold commit. cbv zeta.
  apply H11. apply R; [exact H10|]. apply R; [exact H9|]. apply R; [exact H8|].
  apply R; [exact H7|]. apply R; [exact H6|]. apply R; [exact H5|].
  apply R; [exact H4|]. apply R; [exact H3|]. exact H0.
Qed.

(** ** Volumes *)

Lemma volumesOk_refs s1 s2 : refs s1 = refs s2 -> volumesOk s1 -> volumesOk s2.
Proof. unfold volumesOk. now intros ->. Qed.

Lemma volumesOk_stopAudio_ambience s :
  volumesOk s -> volumesOk (stopAudio Ambience audioRef set_audioRef s).
Proof.
  unfold volumesOk, stopAudio.
  destruct (audioRef (refs s)) as [a|] eqn:E; [|now rewrite E]. cbn. tauto.
Qed.

Lemma volumesOk_stopAudio_om s :
  volumesOk s -> volumesOk (stopAudio Om omAudioRef set_omAudioRef s).
Proof.
  unfold volumesOk, stopAudio.
  destruct (omAudioRef (refs s)) as [a|] eqn:E; [|now rewrite E]. cbn. tauto.
Qed.

Lemma volumesOk_stopAudio_chime s :
  volumesOk s -> volumesOk (stopAudio Chime chimeAudioRef set_chimeAudioRef s).
Proof.
  unfold volumesOk, stopAudio.
  destruct (chimeAudioRef (refs s)) as [a|] eqn:E; [|now rewrite E]. cbn. tauto.
Qed.

Lemma volumesOk_playAudio_ambience s :
  volumesOk s -> volumesOk (playAudio Ambience audioRef set_audioRef s).
Proof.
  unfold volumesOk, playAudio, onAudio.
  destruct (audioRef (refs s)) as [a|] eqn:E; cbn; [|now rewrite E]. tauto.
Qed.

Lemma volumesOk_omEffectCleanup s : volumesOk s -> volumesOk (omEffectCleanup s).
Proof.
  intros H. unfold omEffectCleanup.
  destruct (omCleanup (effects s)) as [[sid oid]|]; [|exact H].
  apply volumesOk_stopAudio_om. exact H.
Qed.

Lemma volumesOk_completionEffect h s :
  volumesOk s -> volumesOk (completionEffect h s).
Proof.
  intros H. unfold completionEffect. destruct (isComplete h); [|exact H].
  now apply volumesOk_stopAudio_chime, volumesOk_stopAudio_om,
    volumesOk_stopAudio_ambience.
Qed.

Lemma volumesOk_keepAmbienceEffect h s :
  volumesOk s -> volumesOk (keepAmbienceEffect h s).
Proof.
  intros H. unfold keepAmbienceEffect.
  destruct (audioRef (refs s)) as [a|]; [|exact H].
  destruct (_ && _); [|exact H]. destruct (_ && _); [|exact H].
  now apply volumesOk_playAudio_ambience.
Qed.

Lemma volumesOk_chimeEffect h s : volumesOk s -> volumesOk (chimeEffect h s).
Proof.
  unfold chimeEffect. destruct (negb (started h)); [auto|].
  unfold volumesOk. cbn. intros (A & B & _). repeat split; auto; reflexivity.
Qed.

Lemma volumesOk_omEffect h s : volumesOk s -> volumesOk (omEffect h s).
Proof. apply volumesOk_refs. symmetry. apply refs_omEffect. Qed.

Lemma volumesOk_timerEffect h s : volumesOk s -> volumesOk (timerEffect h s).
Proof. apply volumesOk_refs. unfold timerEffect. now destruct (negb _). Qed.

Lemma volumesOk_resetRemainingEffect h s :
  volumesOk s -> volumesOk (resetRemainingEffect h s).
Proof. apply volumesOk_refs. unfold resetRemainingEffect. now destruct (started h). Qed.

Lemma volumesOk_muteEffect h s : volumesOk s -> volumesOk (muteEffect h s).
Proof.
  intros H. unfold muteEffect.
  destruct (audioRef (refs s)) as [a|] eqn:E; [|exact H].
  assert (H1 : volumesOk
                 (upd_refs (set_audioRef (Some (set_muted (negb (ambienceOn h)) a))) s)).
  { unfold volumesOk in *. rewrite E in H. cbn in *. tauto. }
  destruct (_ && _); [|exact H1]. now apply volumesOk_playAudio_ambience.
Qed.

Lemma volumesOk_commit s : volumesOk s -> volumesOk (commit s).
Proof.
  apply commit_preserves; intros x Hx.
  - now apply volumesOk_omEffectCleanup.
  - exact Hx.
  - now apply volumesOk_completionEffect.
  - now apply volumesOk_keepAmbienceEffect.
  - exact Hx.
  - now apply volumesOk_chimeEffect.
  - now apply volumesOk_omEffect.
  - now apply volumesOk_timerEffect.
  - now apply volumesOk_resetRemainingEffect.
  - now apply volumesOk_muteEffect.
  - exact Hx.
Qed.

Lemma volumesOk_handler c s : volumesOk s -> volumesOk (handler c s).
Proof.
  intros H. destruct c as [m| |]; cbn [handler].
  - unfold startWithMinutes, volumesOk in *. cbn.
    destruct H as (A & B & C). split; [|tauto].
    destruct (audioRef (refs s)); cbn in *; [exact A|reflexivity].
  - unfold returnToStart. apply volumesOk_stopAudio_ambience. exact H.
  - exact H.
Qed.

Lemma volume_advanceAudio dt a : volume (advanceAudio dt a) = volume a.
Proof. unfold advanceAudio. now destruct (paused a). Qed.

Lemma volumesOk_advanceClock t s : volumesOk s -> volumesOk (advanceClock t s).
Proof.
  unfold advanceClock. destruct (_ <=? _); [auto|].
  unfold volumesOk. cbn.
  destruct (audioRef (refs s)), (omAudioRef (refs s)), (chimeAudioRef (refs s));
    cbn; rewrite ?volume_advanceAudio; tauto.
Qed.

(** The fade never raises the volume and never takes it below zero. *)
Lemma fade_volume_bounds k :
  0 <= k ->
  (0 <= Qmax 0 (initialVolume * (1 - inject_Z (k + 1) / inject_Z fadeSteps))
     <= 2 # 10)%Q.
Proof.
  intros Hk.
  set (v := (initialVolume * (1 - inject_Z (k + 1) / inject_Z fadeSteps))%Q).
  assert (Hv : (v <= 2 # 10)%Q).
  { unfold v, initialVolume, fadeSteps. Q_to_Z. }
  unfold Qmax. destruct (Qle_bool 0 v) eqn:E.
  - apply Qle_bool_iff in E. split; assumption.
  - split; [apply Qle_refl|discriminate].
Qed.

Lemma volumesOk_runCallback c s :
  (forall k, c = CbFadeStep k -> 0 <= k) ->
  volumesOk s -> volumesOk (runCallback c s).
Proof.
  intros Hc H. destruct c as [| | | |k]; cbn [runCallback].
  - unfold tickUpdater.
    destruct (_ && _); [destruct (_ <? _)|]; exact H.
  - unfold playOmForExhale, playOm, volumesOk in *. cbn.
    destruct H as (A & _ & C). repeat split; auto; discriminate.
  - unfold playOm, volumesOk in *. cbn.
    destruct H as (A & _ & C). repeat split; auto; discriminate.
  - unfold fadeTimeoutCb.
    destruct (omAudioRef (refs s)) as [a|] eqn:E; [|exact H].
    unfold volumesOk in *. rewrite E in H. cbn in *. tauto.
  - unfold fadeStepCb.
    destruct (omAudioRef (refs s)) as [a|] eqn:E; [|exact H].
    pose proof (fade_volume_bounds k (Hc k eq_refl)) as B.
    unfold volumesOk in *. rewrite E in H. destruct H as (A & _ & C).
    destruct (fadeSteps <=? k + 1); cbn; (split; [exact A|split; [|exact C]]).
    + split; [apply Qle_refl|discriminate].
    + exact B.
Qed.

Lemma volumesOk_dispatch t s :
  Sched s -> In t (timers (browser s)) -> volumesOk s -> volumesOk (dispatch t s).
Proof.
  intros S Ht H. unfold dispatch. cbv zeta.
  apply (volumesOk_refs
           (runCallback (cb t)
              match period t with
              | Some _ => advanceClock (due t) s
              | None => upd_browser (clearTimer (Some (tid t))) (advanceClock (due t) s)
              end)); [reflexivity|].
  apply volumesOk_runCallback.
  - intros k Ek. destruct S as (_ & F & _). destruct (F t Ht) as (_ & Hh & _).
    unfold held in Hh. rewrite Ek in Hh. tauto.
  - apply (volumesOk_refs (advanceClock (due t) s));
      [now destruct (period t)|now apply volumesOk_advanceClock].
Qed.

Lemma volumesOk_reachable s : reachable s -> volumesOk s.
Proof.
  induction 1 as [|s s' R IH St].
  - unfold volumesOk. cbn. tauto.
  - destruct St as [s t|s c Q E|s t Q Ht|s].
    + now apply volumesOk_advanceClock.
    + now apply volumesOk_handler.
    + apply volumesOk_dispatch; [now apply Sched_reachable|exact Ht|exact IH].
    + now apply volumesOk_commit.
Qed.

(** X6.  In every state the component can reach, the volume of the hum lies
    between 0 and 0.2 (so the assignment in the fade never leaves the range
    an audio element accepts), the chime is at 0.1 and the ambience at the
    default of 1. *)
Theorem volumes_stay_in_range s :
  reachable s ->
  (forall a, omAudioRef (refs s) = Some a -> (0 <= volume a <= 2 # 10)%Q) /\
  (forall a, chimeAudioRef (refs s) = Some a -> (volume a == 1 # 10)%Q) /\
  (forall a, audioRef (refs s) = Some a -> (volume a == 1)%Q).
Proof.
  intros R. destruct (volumesOk_reachable s R) as (A & B & C).
  unfold whenSome in *.
  split; [|split]; intros x E; rewrite E in *; assumption.
Qed.

(** ** Paused elements are at position 0

    As long as no element plays out: see [advanceAudio]. *)

Lemma allRewound_stopAudio_ambience s :
  allRewound s -> allRewound (stopAudio Ambience audioRef set_audioRef s).
Proof.
  unfold allRewound, stopAudio.
  destruct (audioRef (refs s)) as [a|] eqn:E; [|now rewrite E]. cbn.
  intros (_ & B & C). repeat split; auto.
Qed.

Lemma allRewound_stopAudio_om s :
  allRewound s -> allRewound (stopAudio Om omAudioRef set_omAudioRef s).
Proof.
  unfold allRewound, stopAudio.
  destruct (omAudioRef (refs s)) as [a|] eqn:E; [|now rewrite E]. cbn.
  intros (A & _ & C). repeat split; auto.
Qed.

Lemma allRewound_stopAudio_chime s :
  allRewound s -> allRewound (stopAudio Chime chimeAudioRef set_chimeAudioRef s).
Proof.
  unfold allRewound, stopAudio.
  destruct (chimeAudioRef (refs s)) as [a|] eqn:E; [|now rewrite E]. cbn.
  intros (A & B & _). repeat split; auto.
Qed.

Lemma allRewound_playAudio_ambience s :
  allRewound s -> allRewound (playAudio Ambience audioRef set_audioRef s).
Proof.
  unfold allRewound, playAudio, onAudio.
  destruct (audioRef (refs s)) as [a|] eqn:E; cbn; [|now rewrite E].
  intros (_ & B & C). repeat split; auto; try (unfold rewound; cbn; discriminate).
Qed.

Lemma allRewound_commit s : allRewound s -> allRewound (commit s).
Proof.
  apply commit_preserves; intros x Hx.
  - unfold omEffectCleanup. destruct (omCleanup (effects x)) as [[sid oid]|]; [|exact Hx].
    now apply allRewound_stopAudio_om.
  - exact Hx.
  - unfold completionEffect. destruct (isComplete _); [|exact Hx].
    now apply allRewound_stopAudio_chime, allRewound_stopAudio_om,
      allRewound_stopAudio_ambience.
  - unfold keepAmbienceEffect. destruct (audioRef (refs x)); [|exact Hx].
    destruct (_ && _); [|exact Hx]. destruct (_ && _); [|exact Hx].
    now apply allRewound_playAudio_ambience.
  - exact Hx.
  - unfold chimeEffect. destruct (negb _); [exact Hx|].
    unfold allRewound in *. cbn. destruct Hx as (A & B & _).
    repeat split; auto; try (unfold rewound; cbn; discriminate).
  - unfold omEffect. destruct (_ || _); exact Hx.
  - unfold timerEffect. destruct (negb _); exact Hx.
  - unfold resetRemainingEffect. destruct (started _); exact Hx.
  - unfold muteEffect. destruct (audioRef (refs x)) as [a|] eqn:E; [|exact Hx].
    assert (H1 : allRewound
                   (upd_refs
                      (set_audioRef (Some (set_muted (negb (ambienceOn (hooks s))) a))) x)).
    { unfold allRewound in *. rewrite E in Hx. cbn in *. tauto. }
    destruct (_ && _); [|exact H1]. now apply allRewound_playAudio_ambience.
  - exact Hx.
Qed.

Lemma rewound_advanceAudio dt a : rewound a -> rewound (advanceAudio dt a).
Proof.
  unfold rewound, advanceAudio. destruct (paused a) eqn:E; [auto|].
  cbn. rewrite E. discriminate.
Qed.

Lemma allRewound_advanceClock t s : allRewound s -> allRewound (advanceClock t s).
Proof.
  unfold advanceClock. destruct (_ <=? _); [auto|].
  unfold allRewound. cbn.
  destruct (audioRef (refs s)), (omAudioRef (refs s)), (chimeAudioRef (refs s));
    cbn; intros (A & B & C); repeat split; auto using rewound_advanceAudio.
Qed.

Lemma allRewound_runCallback c s : allRewound s -> allRewound (runCallback c s).
Proof.
  intros H. destruct c as [| | | |k]; cbn [runCallback].
  - unfold tickUpdater. destruct (_ && _); [destruct (_ <? _)|]; exact H.
  - unfold playOmForExhale, playOm, allRewound in *. cbn.
    destruct H as (A & _ & C). repeat split; auto; try (unfold rewound; cbn; discriminate).
  - unfold playOm, allRewound in *. cbn.
    destruct H as (A & _ & C). repeat split; auto; try (unfold rewound; cbn; discriminate).
  - unfold fadeTimeoutCb.
    destruct (omAudioRef (refs s)) as [a|] eqn:E; [|exact H].
    unfold allRewound in *. rewrite E in H. cbn in *. tauto.
  - unfold fadeStepCb.
    destruct (omAudioRef (refs s)) as [a|] eqn:E; [|exact H].
    unfold allRewound in *. rewrite E in H. destruct H as (A & B & C).
    destruct (fadeSteps <=? k + 1); cbn; (split; [exact A|split; [|exact C]]).
    + unfold rewound. reflexivity.
    + exact B.
Qed.

Lemma allRewound_dispatch t s : allRewound s -> allRewound (dispatch t s).
Proof.
  intros H. unfold dispatch. cbv zeta.
  change (allRewound
            (runCallback (cb t)
               match period t with
               | Some _ => advanceClock (due t) s
               | None => upd_browser (clearTimer (Some (tid t))) (advanceClock (due t) s)
               end)).
  apply allRewound_runCallback.
  apply (allRewound_advanceClock (due t)) in H. now destruct (period t).
Qed.

Lemma allRewound_handler c s : allRewound s -> allRewound (handler c s).
Proof.
  intros H. destruct c as [m| |]; cbn [handler].
  - unfold startWithMinutes, allRewound in *. cbn.
    destruct H as (A & B & C). repeat split; auto; try (unfold rewound; cbn; discriminate).
  - unfold returnToStart. now apply allRewound_stopAudio_ambience.
  - exact H.
Qed.

Lemma allRewound_reachable s : reachable s -> allRewound s.
Proof.
  induction 1 as [|s s' R IH St].
  - unfold allRewound. cbn. tauto.
  - destruct St as [s t|s c Q E|s t Q Ht|s].
    + now apply allRewound_advanceClock.
    + now apply allRewound_handler.
    + now apply allRewound_dispatch.
    + now apply allRewound_commit.
Qed.

(** ** The hum is silent without its effect *)

Lemma humPaused_stopAudio_om s : humPaused (stopAudio Om omAudioRef set_omAudioRef s).
Proof.
  unfold humPaused, stopAudio.
  destruct (omAudioRef (refs s)) as [a|] eqn:E; cbn; [reflexivity|now rewrite E].
Qed.

Lemma humPaused_hum s1 s2 :
  omAudioRef (refs s2) = omAudioRef (refs s1) -> humPaused s1 -> humPaused s2.
Proof. unfold humPaused. now intros ->. Qed.

Lemma hum_stopAudio_ambience s :
  omAudioRef (refs (stopAudio Ambience audioRef set_audioRef s)) = omAudioRef (refs s).
Proof. unfold stopAudio. now destruct (audioRef (refs s)). Qed.

Lemma hum_stopAudio_chime s :
  omAudioRef (refs (stopAudio Chime chimeAudioRef set_chimeAudioRef s))
  = omAudioRef (refs s).
Proof. unfold stopAudio. now destruct (chimeAudioRef (refs s)). Qed.

Lemma hum_playAudio_ambience s :
  omAudioRef (refs (playAudio Ambience audioRef set_audioRef s)) = omAudioRef (refs s).
Proof. unfold playAudio, onAudio. now destruct (audioRef (refs s)). Qed.

Lemma hum_muteEffect h s : omAudioRef (refs (muteEffect h s)) = omAudioRef (refs s).
Proof.
  unfold muteEffect. destruct (audioRef (refs s)); [|reflexivity].
  destruct (_ && _); [|reflexivity]. now rewrite hum_playAudio_ambience.
Qed.

(** No effect body starts the hum. *)
Lemma humPaused_bodies s :
  humPaused (runIf (changedStarted s || changedDuration s) timerEffectCleanup
               (runIf (changedStarted s || changedKey s || changedComplete s)
                  omEffectCleanup s)) ->
  humPaused (commit s).
Proof.
  apply commit_bodies; intros x Hx.
  - unfold completionEffect. destruct (isComplete _); [|exact Hx].
    apply (humPaused_hum (stopAudio Om omAudioRef set_omAudioRef
                            (stopAudio Ambience audioRef set_audioRef x)));
      [apply hum_stopAudio_chime|apply humPaused_stopAudio_om].
  - unfold keepAmbienceEffect. destruct (audioRef (refs x)); [|exact Hx].
    destruct (_ && _); [|exact Hx]. destruct (_ && _); [|exact Hx].
    apply (humPaused_hum x); [apply hum_playAudio_ambience|exact Hx].
  - exact Hx.
  - unfold chimeEffect. destruct (negb _); exact Hx.
  - unfold omEffect. destruct (_ || _); exact Hx.
  - unfold timerEffect. destruct (negb _); exact Hx.
  - unfold resetRemainingEffect. destruct (started _); exact Hx.
  - apply (humPaused_hum x); [apply hum_muteEffect|exact Hx].
  - exact Hx.
Qed.

(** A commit that does not run the hum effect leaves its cleanup alone. *)
Lemma omCleanup_commit_keep s :
  changedStarted s || changedKey s || changedComplete s = false ->
  omCleanup (effects (commit s)) = omCleanup (effects s).
Proof.
  intros Hb. destruct (commit_stages s) as (s3 & E3 & E4).
  rewrite Hb in E3, E4. cbn [runIf] in E3, E4.
  rewrite (sl_om_view _ _ E4).
  transitivity (omCleanup (effects s3)).
  - destruct (changedStarted s || changedDuration s); cbn [runIf];
      [apply omCleanup_timerEffect|reflexivity].
  - rewrite (sl_om_view _ _ E3).
    destruct (changedStarted s || changedDuration s); reflexivity.
Qed.

Lemma humQuiet_commit s : humQuiet s -> humQuiet (commit s).
Proof.
  intros H Hn. apply humPaused_bodies.
  apply (humPaused_hum
           (runIf (changedStarted s || changedKey s || changedComplete s)
              omEffectCleanup s));
    [now destruct (changedStarted s || changedDuration s)|].
  destruct (changedStarted s || changedKey s || changedComplete s) eqn:Hb;
    cbn [runIf].
  - unfold omEffectCleanup.
    destruct (omCleanup (effects s)) as [[sid oid]|] eqn:E;
      [apply humPaused_stopAudio_om|now apply H].
  - apply H. now rewrite <- (omCleanup_commit_keep s Hb).
Qed.

Lemma paused_advanceAudio dt a : paused (advanceAudio dt a) = paused a.
Proof. unfold advanceAudio. destruct (paused a) eqn:E; [exact E|exact E]. Qed.

Lemma humPaused_advanceClock t s : humPaused s -> humPaused (advanceClock t s).
Proof.
  unfold advanceClock. destruct (_ <=? _); [auto|].
  unfold humPaused. cbn. destruct (omAudioRef (refs s)); cbn; [|auto].
  now rewrite paused_advanceAudio.
Qed.

Lemma humQuiet_dispatch t s :
  Sched s -> In t (timers (browser s)) -> humQuiet s -> humQuiet (dispatch t s).
Proof.
  intros S Ht H. unfold humQuiet, dispatch. cbv zeta.
  set (s1 := match period t with
             | Some _ => advanceClock (due t) s
             | None => upd_browser (clearTimer (Some (tid t))) (advanceClock (due t) s)
             end).
  assert (E1 : omCleanup (effects s1) = omCleanup (effects s)).
  { rewrite <- (sl_om_view _ _ (schedOf_advanceClock (due t) s)).
    unfold s1. now destruct (period t). }
  assert (P1 : humPaused s -> humPaused s1).
  { intros Hp. apply (humPaused_advanceClock (due t)) in Hp.
    unfold s1. now destruct (period t). }
  destruct S as (_ & F & _). destruct (F t Ht) as (_ & Hh & _).
  unfold held, slotsOf in Hh. cbn [sl_om] in Hh.
  clearbody s1. cbn [effects upd_browser].
  change (omCleanup (effects (runCallback (cb t) s1)) = None ->
          humPaused (runCallback (cb t) s1)).
  destruct (cb t) as [| | | |k]; cbn [runCallback].
  - rewrite effects_tickUpdater, E1. intros Hn.
    apply (humPaused_hum s1); [|now apply P1, H].
    unfold tickUpdater. destruct (_ && _); [destruct (_ <? _)|]; reflexivity.
  - destruct Hh as [Hh _]. unfold playOmForExhale. cbn. rewrite E1, Hh. discriminate.
  - destruct Hh as [[sid Hh] _]. rewrite effects_playOm, E1, Hh. discriminate.
  - rewrite effects_fadeTimeoutCb, E1. intros Hn. specialize (P1 (H Hn)).
    unfold fadeTimeoutCb, humPaused in *.
    destruct (omAudioRef (refs s1)) as [a|] eqn:E; cbn; [exact P1|now rewrite E].
  - rewrite effects_fadeStepCb, E1. intros Hn. specialize (P1 (H Hn)).
    unfold fadeStepCb, humPaused in *.
    destruct (omAudioRef (refs s1)) as [a|] eqn:E; [|now rewrite E].
    destruct (fadeSteps <=? k + 1); cbn; [reflexivity|exact P1].
Qed.

Lemma humQuiet_reachable s : reachable s -> humQuiet s.
Proof.
  induction 1 as [|s s' R IH St].
  - intros _. unfold humPaused. cbn. exact I.
  - destruct St as [s t|s c Q E|s t Q Ht|s].
    + intros Hn. apply humPaused_advanceClock. apply IH.
      now rewrite <- (sl_om_view _ _ (schedOf_advanceClock t s)).
    + intros Hn.
      assert (En : omCleanup (effects s) = None)
        by now rewrite <- (sl_om_view _ _ (schedOf_handler c s)).
      apply (humPaused_hum s); [|now apply IH].
      destruct c as [m| |]; cbn [handler]; [reflexivity| |reflexivity].
      unfold returnToStart. now rewrite hum_stopAudio_ambience.
    + apply humQuiet_dispatch; [now apply Sched_reachable|exact Ht|exact IH].
    + now apply humQuiet_commit.
Qed.

(** The hum is stopped wherever its effect returns early. *)
Lemma hum_stopped_at_rest s :
  reachable s -> quiescent s ->
  negb (started (hooks s)) || isP1 (currentKey (hooks s)) || isComplete (hooks s)
    = true ->
  stopped (omAudioRef (refs s)).
Proof.
  intros R Q H. destruct (quiescent_deps s Q) as [_ D].
  destruct (Armed_reachable s R) as (_ & A2 & _). rewrite D in A2.
  pose proof (humQuiet_reachable s R (A2 H)) as P.
  destruct (allRewound_reachable s R) as (_ & W & _).
  unfold humPaused, whenSome, stopped, rewound in *.
  destruct (omAudioRef (refs s)); [|exact I]. split; auto.
Qed.

(** X7.  Whenever the component is at rest on the start screen (so also
    after the back button), in the first phase or on the completion screen,
    the hum is stopped: paused and rewound to position 0. *)
Theorem hum_silent_where_hum_returns_early s :
  reachable s -> quiescent s ->
  negb (started (hooks s)) || isP1 (currentKey (hooks s)) || isComplete (hooks s)
    = true ->
  stopped (omAudioRef (refs s)).
Proof. exact (hum_stopped_at_rest s). Qed.

(** ** Every pause of the source rewinds *)

Lemma rewoundSince_playing o a : paused a = false -> rewoundSince o a.
Proof. unfold rewoundSince. congruence. Qed.

Lemma rewoundSince_stop o a : rewoundSince o (set_currentTime 0 (pause a)).
Proof. intros _. left. reflexivity. Qed.

Lemma allRewoundSince_refl s : allRewoundSince s s.
Proof.
  unfold allRewoundSince, whenSome, rewoundSince, pausedAt.
  split; [|split].
  - destruct (audioRef (refs s)) as [a|]; [|exact I].
    intros H. right. exists a. repeat split. exact H.
  - destruct (omAudioRef (refs s)) as [a|]; [|exact I].
    intros H. right. exists a. repeat split. exact H.
  - destruct (chimeAudioRef (refs s)) as [a|]; [|exact I].
    intros H. right. exists a. repeat split. exact H.
Qed.

Lemma since_stopAudio_ambience s0 s :
  allRewoundSince s0 s ->
  allRewoundSince s0 (stopAudio Ambience audioRef set_audioRef s).
Proof.
  unfold allRewoundSince, stopAudio.
  destruct (audioRef (refs s)) as [a|] eqn:E; [|now rewrite E]. cbn.
  intros (_ & B & C). repeat split; auto using rewoundSince_stop.
Qed.

Lemma since_stopAudio_om s0 s :
  allRewoundSince s0 s ->
  allRewoundSince s0 (stopAudio Om omAudioRef set_omAudioRef s).
Proof.
  unfold allRewoundSince, stopAudio.
  destruct (omAudioRef (refs s)) as [a|] eqn:E; [|now rewrite E]. cbn.
  intros (A & _ & C). repeat split; auto using rewoundSince_stop.
Qed.

Lemma since_stopAudio_chime s0 s :
  allRewoundSince s0 s ->
  allRewoundSince s0 (stopAudio Chime chimeAudioRef set_chimeAudioRef s).
Proof.
  unfold allRewoundSince, stopAudio.
  destruct (chimeAudioRef (refs s)) as [a|] eqn:E; [|now rewrite E]. cbn.
  intros (A & B & _). repeat split; auto using rewoundSince_stop.
Qed.

Lemma since_playAudio_ambience s0 s :
  allRewoundSince s0 s ->
  allRewoundSince s0 (playAudio Ambience audioRef set_audioRef s).
Proof.
  unfold allRewoundSince, playAudio, onAudio.
  destruct (audioRef (refs s)) as [a|] eqn:E; cbn; [|now rewrite E].
  intros (_ & B & C). repeat split; auto.
  now apply rewoundSince_playing.
Qed.

Lemma since_commit s0 s : allRewoundSince s0 s -> allRewoundSince s0 (commit s).
Proof.
  apply commit_preserves; intros x Hx.
  - unfold omEffectCleanup. destruct (omCleanup (effects x)) as [[sid oid]|]; [|exact Hx].
    now apply since_stopAudio_om.
  - exact Hx.
  - unfold completionEffect. destruct (isComplete _); [|exact Hx].
    now apply since_stopAudio_chime, since_stopAudio_om, since_stopAudio_ambience.
  - unfold keepAmbienceEffect. destruct (audioRef (refs x)); [|exact Hx].
    destruct (_ && _); [|exact Hx]. destruct (_ && _); [|exact Hx].
    now apply since_playAudio_ambience.
  - exact Hx.
  - unfold chimeEffect. destruct (negb _); [exact Hx|].
    unfold allRewoundSince in *. cbn. destruct Hx as (A & B & _).
    repeat split; auto. now apply rewoundSince_playing.
  - unfold omEffect. destruct (_ || _); exact Hx.
  - unfold timerEffect. destruct (negb _); exact Hx.
  - unfold resetRemainingEffect. destruct (started _); exact Hx.
  - unfold muteEffect. destruct (audioRef (refs x)) as [a|] eqn:E; [|exact Hx].
    assert (H1 : allRewoundSince s0
                   (upd_refs
                      (set_audioRef (Some (set_muted (negb (ambienceOn (hooks s))) a))) x)).
    { unfold allRewoundSince in *. rewrite E in Hx. cbn in *. tauto. }
    destruct (_ && _); [|exact H1]. now apply since_playAudio_ambience.
  - exact Hx.
Qed.

Lemma since_runCallback s0 c s :
  allRewoundSince s0 s -> allRewoundSince s0 (runCallback c s).
Proof.
  intros H. destruct c as [| | | |k]; cbn [runCallback].
  - unfold tickUpdater. destruct (_ && _); [destruct (_ <? _)|]; exact H.
  - unfold playOmForExhale, playOm, allRewoundSince in *. cbn.
    destruct H as (A & _ & C). repeat split; auto.
    now apply rewoundSince_playing.
  - unfold playOm, allRewoundSince in *. cbn.
    destruct H as (A & _ & C). repeat split; auto.
    now apply rewoundSince_playing.
  - unfold fadeTimeoutCb.
    destruct (omAudioRef (refs s)) as [a|] eqn:E; [|exact H].
    unfold allRewoundSince in *. rewrite E in H. cbn in *. tauto.
  - unfold fadeStepCb.
    destruct (omAudioRef (refs s)) as [a|] eqn:E; [|exact H].
    unfold allRewoundSince in *. rewrite E in H. destruct H as (A & B & C).
    destruct (fadeSteps <=? k + 1); cbn; (split; [exact A|split; [|exact C]]).
    + apply rewoundSince_stop.
    + exact B.
Qed.

Lemma since_handler s0 c s :
  allRewoundSince s0 s -> allRewoundSince s0 (handler c s).
Proof.
  intros H. destruct c as [m| |]; cbn [handler].
  - unfold startWithMinutes, allRewoundSince in *. cbn.
    destruct H as (A & B & C). repeat split; auto.
    now apply rewoundSince_playing.
  - unfold returnToStart. now apply since_stopAudio_ambience.
  - exact H.
Qed.

Lemma since_sourceRun s s' : sourceRun s s' -> allRewoundSince s s'.
Proof.
  induction 1 as [|c s' _ IH|c s' _ IH|s' _ IH].
  - apply allRewoundSince_refl.
  - now apply since_handler.
  - now apply since_runCallback.
  - now apply since_commit.
Qed.

(** X8.  The source never pauses an element without rewinding it.  However
    many click handlers, timer callbacks and effects run, an element of the
    ambience, the hum or the chime that is paused afterwards is at position
    0, unless it was paused before they ran and is still where it was.  In
    particular an element that was sounding before and is paused after has
    been rewound. *)
Theorem every_pause_rewinds s s' :
  sourceRun s s' ->
  forall get a',
    In get [audioRef; omAudioRef; chimeAudioRef] ->
    get (refs s') = Some a' -> paused a' = true ->
    currentTime a' = 0 \/
    exists a, get (refs s) = Some a /\ paused a = true /\
              currentTime a = currentTime a'.
Proof.
  intros R get a' Hg E Hp.
  destruct (since_sourceRun s s' R) as (A & B & C).
  unfold whenSome, rewoundSince, pausedAt in *.
  destruct Hg as [<-|[<-|[<-|[]]]]; rewrite E in *; auto.
Qed.

(** ** The ambience *)

Lemma amb_stopAudio_om s :
  audioRef (refs (stopAudio Om omAudioRef set_omAudioRef s)) = audioRef (refs s).
Proof. unfold stopAudio. now destruct (omAudioRef (refs s)). Qed.

Lemma amb_stopAudio_chime s :
  audioRef (refs (stopAudio Chime chimeAudioRef set_chimeAudioRef s))
  = audioRef (refs s).
Proof. unfold stopAudio. now destruct (chimeAudioRef (refs s)). Qed.

Lemma amb_stopAudio_ambience s :
  audioRef (refs (stopAudio Ambience audioRef set_audioRef s))
  = option_map stop (audioRef (refs s)).
Proof.
  unfold stopAudio. destruct (audioRef (refs s)) as [a|] eqn:E; cbn;
    [reflexivity|exact E].
Qed.

Lemma amb_playAudio_ambience s :
  audioRef (refs (playAudio Ambience audioRef set_audioRef s))
  = option_map play (audioRef (refs s)).
Proof.
  unfold playAudio, onAudio. destruct (audioRef (refs s)) as [a|] eqn:E; cbn;
    [reflexivity|exact E].
Qed.

Lemma amb_omEffectCleanup s :
  audioRef (refs (omEffectCleanup s)) = audioRef (refs s).
Proof.
  unfold omEffectCleanup. destruct (omCleanup (effects s)) as [[sid oid]|];
    [|reflexivity].
  now rewrite amb_stopAudio_om.
Qed.

Lemma amb_completionEffect h s :
  audioRef (refs (completionEffect h s)) =
  if isComplete h then option_map stop (audioRef (refs s)) else audioRef (refs s).
Proof.
  unfold completionEffect. destruct (isComplete h); [|reflexivity].
  now rewrite amb_stopAudio_chime, amb_stopAudio_om, amb_stopAudio_ambience.
Qed.

Lemma amb_keepAmbienceEffect h s :
  audioRef (refs (keepAmbienceEffect h s)) = audioRef (refs s) \/
  (started h = true /\ isComplete h = false /\ ambienceOn h = true /\
   audioRef (refs (keepAmbienceEffect h s)) = option_map play (audioRef (refs s))).
Proof.
  unfold keepAmbienceEffect. destruct (audioRef (refs s)) as [a|] eqn:E; [|now left].
  destruct (started h) eqn:Hs; [|now left].
  destruct (isComplete h) eqn:Hc; [now left|]. cbn [negb andb].
  destruct (ambienceOn h) eqn:Ha; [|now left]. cbn [andb].
  destruct (paused a); [|now left].
  right. rewrite amb_playAudio_ambience, E. auto.
Qed.

Lemma amb_chimeEffect h s : audioRef (refs (chimeEffect h s)) = audioRef (refs s).
Proof. unfold chimeEffect. now destruct (negb _). Qed.

Lemma amb_omEffect h s : audioRef (refs (omEffect h s)) = audioRef (refs s).
Proof. now rewrite refs_omEffect. Qed.

Lemma amb_timerEffect h s : audioRef (refs (timerEffect h s)) = audioRef (refs s).
Proof. unfold timerEffect. now destruct (negb _). Qed.

Lemma amb_resetRemainingEffect h s :
  audioRef (refs (resetRemainingEffect h s)) = audioRef (refs s).
Proof. unfold resetRemainingEffect. now destruct (started h). Qed.

(** The last effect sets the mute flag, and starts the ambience if a run is
    on with the ambience on. *)
Lemma amb_muteEffect h s :
  audioRef (refs (muteEffect h s)) =
  option_map
    (fun a =>
       if ambienceOn h && started h && negb (isComplete h)
       then play (set_muted (negb (ambienceOn h)) a)
       else set_muted (negb (ambienceOn h)) a)
    (audioRef (refs s)).
Proof.
  unfold muteEffect. destruct (audioRef (refs s)) as [a|] eqn:E; cbn; [|exact E].
  destruct (_ && _); [|reflexivity].
  now rewrite amb_playAudio_ambience.
Qed.

(** A property of the ambience that stopping (at completion), starting
    (during a run with the ambience on) and the mute flag keep, is kept by a
    commit. *)
Lemma ambience_commit_last (Q : option Audio -> Prop) s :
  (isComplete (hooks s) = true -> forall o, Q o -> Q (option_map stop o)) ->
  (started (hooks s) = true -> isComplete (hooks s) = false ->
   ambienceOn (hooks s) = true -> forall o, Q o -> Q (option_map play o)) ->
  Q (audioRef (refs s)) ->
  exists y,
    Q (audioRef (refs y)) /\
    commit s =
    upd_effects (set_deps (depsOf (hooks s)))
      (runIf (changedAmbience s || changedStarted s || changedComplete s)
         (muteEffect (hooks s)) y).
Proof.
  intros Hstop Hplay H0.
  apply (commit_last (fun x => Q (audioRef (refs x)))); try exact H0; intros x Hx.
  - now rewrite amb_omEffectCleanup.
  - exact Hx.
  - rewrite amb_completionEffect. destruct (isComplete (hooks s)) eqn:E; auto.
  - destruct (amb_keepAmbienceEffect (hooks s) x) as [E|(A & B & C & E)];
      rewrite E; auto.
  - exact Hx.
  - now rewrite amb_chimeEffect.
  - now rewrite amb_omEffect.
  - now rewrite amb_timerEffect.
  - now rewrite amb_resetRemainingEffect.
Qed.

Lemma ambience_commit (Q : option Audio -> Prop) s :
  (isComplete (hooks s) = true -> forall o, Q o -> Q (option_map stop o)) ->
  (started (hooks s) = true -> isComplete (hooks s) = false ->
   ambienceOn (hooks s) = true -> forall o, Q o -> Q (option_map play o)) ->
  (forall o, Q o -> Q (option_map (set_muted (negb (ambienceOn (hooks s)))) o)) ->
  Q (audioRef (refs s)) -> Q (audioRef (refs (commit s))).
Proof.
  intros Hstop Hplay Hmute H0.
  destruct (ambience_commit_last Q s Hstop Hplay H0) as (y & Hy & E).
  rewrite E. cbn [refs upd_effects].
  destruct (_ || _); cbn [runIf]; [|exact Hy].
  rewrite amb_muteEffect.
  destruct (ambienceOn (hooks s) && started (hooks s) && negb (isComplete (hooks s)))
    eqn:G.
  - apply andb_prop in G. destruct G as [G G3]. apply andb_prop in G.
    destruct G as [G1 G2]. apply negb_true_iff in G3.
    specialize (Hplay G2 G3 G1 _ (Hmute _ Hy)).
    destruct (audioRef (refs y)); exact Hplay.
  - specialize (Hmute _ Hy). destruct (audioRef (refs y)); exact Hmute.
Qed.

Lemma ambienceKept_commit s : ambienceKept s -> ambienceKept (commit s).
Proof.
  intros (A1 & A2 & A3 & A4).
  destruct (commit_keeps s) as (Ks & _).
  destruct (commit_cells s) as (_ & _ & _ & Kd).
  unfold ambienceKept. rewrite Ks, Kd. cbn [depsOf d_started d_isComplete d_ambienceOn].
  split; [|split; [|split]].
  - (* it exists *)
    intros Hs. specialize (A1 Hs). revert A1.
    apply (ambience_commit (fun o => o <> None)); intros; destruct o; cbn; congruence.
  - (* loop and mute flag *)
    assert (L : whenSome (fun a => loop a = true) (audioRef (refs s))).
    { destruct (audioRef (refs s)); cbn in *; tauto. }
    destruct (ambience_commit_last (whenSome (fun a => loop a = true)) s) as (y & Hy & E).
    { intros _ [a|]; cbn; auto. }
    { intros _ _ _ [a|]; cbn; auto. }
    { exact L. }
    rewrite E. cbn [refs upd_effects].
    destruct (changedAmbience s || changedStarted s || changedComplete s) eqn:Hb;
      cbn [runIf].
    + rewrite amb_muteEffect. destruct (audioRef (refs y)) as [a|]; cbn; [|exact I].
      cbn in Hy. destruct (_ && _); cbn; auto.
    + apply orb_false_elim in Hb. destruct Hb as [Hb _].
      apply orb_false_elim in Hb. destruct Hb as [Hb _].
      unfold changedAmbience in Hb. apply eqb_false_negb in Hb.
      rewrite Hb in A2.
      destruct (ambience_commit_last
                  (whenSome (fun a => loop a = true /\
                                      muted a = negb (ambienceOn (hooks s)))) s)
        as (y' & Hy' & E').
      { intros _ [a|]; cbn; auto. }
      { intros _ _ _ [a|]; cbn; auto. }
      { exact A2. }
      rewrite E in E'. cbn [runIf] in E'.
      assert (Er : refs y = refs (runIf (changedAmbience s || changedStarted s
                                         || changedComplete s)
                                    (muteEffect (hooks s)) y'))
        by exact (f_equal refs E').
      rewrite Er.
      destruct (changedAmbience s || changedStarted s || changedComplete s);
        cbn [runIf]; [|exact Hy'].
      rewrite amb_muteEffect. destruct (audioRef (refs y')) as [a|]; cbn; [|exact I].
      cbn in Hy'. destruct (_ && _); cbn; tauto.
  - (* paused on the start screen *)
    intros Hs. specialize (A3 Hs). revert A3.
    apply (ambience_commit (whenSome (fun a => paused a = true))).
    + intros _ [a|]; cbn; auto.
    + congruence.
    + intros [a|]; cbn; auto.
  - (* sounding during a run *)
    intros Hs _ Hc Ha.
    destruct (changedAmbience s || changedStarted s || changedComplete s) eqn:Hb.
    + destruct (ambience_commit_last (fun o => o <> None) s) as (y & Hy & E).
      { intros _ [a|]; cbn; congruence. }
      { intros _ _ _ [a|]; cbn; congruence. }
      { now apply A1. }
      rewrite E, Hb. cbn [refs upd_effects runIf]. rewrite amb_muteEffect.
      rewrite Hs, Hc, Ha. cbn [andb negb].
      destruct (audioRef (refs y)); cbn; [reflexivity|exact I].
    + apply orb_false_elim in Hb. destruct Hb as [Hb H3].
      apply orb_false_elim in Hb. destruct Hb as [H1 H2].
      unfold changedAmbience in H1. unfold changedStarted in H2.
      unfold changedComplete in H3.
      apply eqb_false_negb in H1, H2, H3.
      rewrite H1, H2, H3 in A4. specialize (A4 Hs Hs Hc Ha). revert A4.
      apply (ambience_commit (whenSome (fun a => paused a = false))).
      * congruence.
      * intros _ _ _ [a|]; cbn; auto.
      * intros [a|]; cbn; auto.
Qed.

Lemma amb_runCallback c s :
  audioRef (refs (runCallback c s)) = audioRef (refs s).
Proof.
  destruct c as [| | | |k]; cbn [runCallback].
  - unfold tickUpdater. destruct (_ && _); [destruct (_ <? _)|]; reflexivity.
  - reflexivity.
  - reflexivity.
  - unfold fadeTimeoutCb. now destruct (omAudioRef (refs s)).
  - unfold fadeStepCb. destruct (omAudioRef (refs s)); [|reflexivity].
    now destruct (_ <=? _).
Qed.

Lemma amb_advanceClock t s :
  audioRef (refs (advanceClock t s)) = audioRef (refs s) \/
  exists dt, 0 < dt /\
             audioRef (refs (advanceClock t s))
             = option_map (advanceAudio dt) (audioRef (refs s)).
Proof.
  unfold advanceClock. destruct (Z.leb_spec (t - now (browser s)) 0); [now left|].
  right. eexists. split; [eassumption|reflexivity].
Qed.

Lemma amb_dispatch t s :
  audioRef (refs (dispatch t s)) = audioRef (refs s) \/
  exists dt, 0 < dt /\
             audioRef (refs (dispatch t s))
             = option_map (advanceAudio dt) (audioRef (refs s)).
Proof.
  unfold dispatch. cbv zeta. cbn [refs upd_browser].
  rewrite amb_runCallback.
  destruct (period t); [apply amb_advanceClock|].
  cbn [refs upd_browser]. apply amb_advanceClock.
Qed.

Lemma loop_advanceAudio dt a : loop (advanceAudio dt a) = loop a.
Proof. unfold advanceAudio. now destruct (paused a). Qed.

Lemma muted_advanceAudio dt a : muted (advanceAudio dt a) = muted a.
Proof. unfold advanceAudio. now destruct (paused a). Qed.

Lemma started_dispatch t s : started (hooks (dispatch t s)) = started (hooks s).
Proof.
  pose proof (f_equal (fun x => started (fst (fst (fst x)))) (clockOf_dispatch t s))
    as E.
  cbn [clockOf fst] in E. rewrite E.
  destruct (cb t); try reflexivity.
  cbn [fst]. unfold tickUpdater.
  destruct (_ && _); [destruct (_ <? _)|]; reflexivity.
Qed.

(** The clock, alone or with a timer, moves the ambience and nothing else
    of it. *)
Lemma ambienceKept_moved s s' :
  started (hooks s') = started (hooks s) ->
  deps (effects s') = deps (effects s) ->
  (audioRef (refs s') = audioRef (refs s) \/
   exists dt, 0 < dt /\
              audioRef (refs s') = option_map (advanceAudio dt) (audioRef (refs s))) ->
  ambienceKept s -> ambienceKept s'.
Proof.
  intros Es Ed Ea (A1 & A2 & A3 & A4). unfold ambienceKept. rewrite Es, Ed.
  destruct Ea as [Ea|(dt & _ & Ea)]; rewrite Ea; [tauto|].
  destruct (audioRef (refs s)) as [a|]; cbn in *.
  - rewrite loop_advanceAudio, muted_advanceAudio, paused_advanceAudio.
    repeat split; try tauto. discriminate.
  - tauto.
Qed.

Lemma ambienceKept_handler c s :
  quiescent s -> enabled c (hooks s) = true ->
  ambienceKept s -> ambienceKept (handler c s).
Proof.
  intros Q En (A1 & A2 & A3 & A4).
  assert (Da : d_ambienceOn (deps (effects s)) = ambienceOn (hooks s))
    by (rewrite Q; reflexivity).
  assert (Ds : d_started (deps (effects s)) = started (hooks s))
    by (rewrite Q; reflexivity).
  destruct c as [m| |]; cbn [handler enabled] in *.
  - apply negb_true_iff in En.
    unfold ambienceKept, startWithMinutes. cbn. rewrite Da, Ds, En.
    split; [discriminate|]. split; [|split; discriminate].
    destruct (audioRef (refs s)); cbn in *; tauto.
  - unfold ambienceKept, returnToStart.
    rewrite amb_stopAudio_ambience.
    assert (E1 : started
                   (hooks
                      (stopAudio Ambience audioRef set_audioRef
                         (mkState
                            (setRemaining 60000
                               (setPhaseIndex 0 (setStarted false (hooks s))))
                            (refs s) (effects s) (browser s)))) = false).
    { unfold stopAudio. cbn. now destruct (audioRef (refs s)). }
    assert (E2 : deps
                   (effects
                      (stopAudio Ambience audioRef set_audioRef
                         (mkState
                            (setRemaining 60000
                               (setPhaseIndex 0 (setStarted false (hooks s))))
                            (refs s) (effects s) (browser s)))) = deps (effects s)).
    { unfold stopAudio. cbn. now destruct (audioRef (refs s)). }
    rewrite E1, E2. cbn [refs].
    split; [discriminate|]. split; [|split; [|discriminate]].
    + destruct (audioRef (refs s)); cbn in *; tauto.
    + intros _. destruct (audioRef (refs s)); cbn; auto.
  - unfold ambienceKept, toggleAmbience. cbn. tauto.
Qed.

Lemma ambienceKept_reachable s : reachable s -> ambienceKept s.
Proof.
  induction 1 as [|s s' R IH St].
  - unfold ambienceKept. cbn. repeat split; try discriminate; exact I.
  - destruct St as [s t|s c Q E|s t Q Ht|s].
    + apply (ambienceKept_moved s); [| |apply amb_advanceClock|exact IH].
      * now rewrite (hooks_clockOf _ _ (clockOf_advanceClock t s)).
      * apply deps_advanceClock.
    + now apply ambienceKept_handler.
    + apply (ambienceKept_moved s); [| |apply amb_dispatch|exact IH].
      * apply started_dispatch.
      * apply deps_dispatch.
    + now apply ambienceKept_commit.
Qed.

(** X9.  Whenever the component is at rest: on the start screen (so also
    after the back button) the ambience is stopped, paused at position 0;
    during a run the ambience element exists, loops, and its mute flag is the
    negation of [ambienceOn]; and while the run is not complete and the
    ambience is on, it is sounding. *)
Theorem ambience_follows_the_run s :
  reachable s -> quiescent s ->
  (started (hooks s) = false -> stopped (audioRef (refs s))) /\
  (started (hooks s) = true ->
   exists a, audioRef (refs s) = Some a /\ loop a = true /\
             muted a = negb (ambienceOn (hooks s)) /\
             (isComplete (hooks s) = false -> ambienceOn (hooks s) = true ->
              paused a = false)).
Proof.
  intros R Q. destruct (ambienceKept_reachable s R) as (A1 & A2 & A3 & A4).
  destruct (allRewound_reachable s R) as (W & _ & _).
  unfold quiescent in Q. rewrite Q in *.
  cbn [depsOf d_started d_isComplete d_ambienceOn] in *.
  split.
  - intros Hs. specialize (A3 Hs). unfold stopped, whenSome, rewound in *.
    destruct (audioRef (refs s)); [|exact I]. split; auto.
  - intros Hs. specialize (A1 Hs). specialize (A4 Hs Hs).
    destruct (audioRef (refs s)) as [a|]; [|congruence].
    exists a. cbn in *. repeat split; tauto.
Qed.

(** ** The chime *)

Lemma commit_chime (P Q : State -> Prop) s :
  (forall x, P x -> P (omEffectCleanup x)) ->
  (forall x, P x -> P (timerEffectCleanup x)) ->
  (forall x, P x -> P (completionEffect (hooks s) x)) ->
  (forall x, P x -> P (keepAmbienceEffect (hooks s) x)) ->
  (forall x, P x -> P (syncRefEffect (hooks s) x)) ->
  (forall x, P x ->
             Q (runIf (changedIndex s || changedStarted s) (chimeEffect (hooks s)) x)) ->
  (forall x, Q x -> Q (omEffect (hooks s) x)) ->
  (forall x, Q x -> Q (timerEffect (hooks s) x)) ->
  (forall x, Q x -> Q (resetRemainingEffect (hooks s) x)) ->
  (forall x, Q x -> Q (muteEffect (hooks s) x)) ->
  (forall x, Q x -> Q (upd_effects (set_deps (depsOf (hooks s))) x)) ->
  P s -> Q (commit s).
Proof.
  intros H1 H2 H3 H4 H5 H6 H7 H8 H9 H10 H11 H0.
  assert (R : forall (X : State -> Prop) b f x,
             (forall y, X y -> X (f y)) -> X x -> X (runIf b f x)).
  { intros X b f x Hf Hx. destruct b; cbn; auto. }
  unfold commit. cbv zeta.
  apply H11. apply R; [exact H10|]. apply R; [exact H9|]. apply R; [exact H8|].
  apply R; [exact H7|]. apply H6. apply R; [exact H5|].
  apply R; [exact H4|]. apply R; [exact H3|]. apply R; [exact H2|].
  apply R; [exact H1|]. exact H0.
Qed.

Lemma chimePlays_calls s1 s2 :
  calls (browser s2) = calls (browser s1) -> chimePlays s2 = chimePlays s1.
Proof. unfold chimePlays. now intros ->. Qed.

Lemma chimePlays_stopAudio h get set s :
  chimePlays (stopAudio h get set s) = chimePlays s.
Proof.
  unfold stopAudio. destruct (get (refs s)); [|reflexivity].
  unfold chimePlays. cbn. now destruct h.
Qed.

Lemma chimePlays_playAudio_ambience s :
  chimePlays (playAudio Ambience audioRef set_audioRef s) = chimePlays s.
Proof.
  unfold playAudio, onAudio. destruct (audioRef (refs s)); reflexivity.
Qed.

Lemma chimePlays_omEffectCleanup s : chimePlays (omEffectCleanup s) = chimePlays s.
Proof.
  unfold omEffectCleanup. destruct (omCleanup (effects s)) as [[sid oid]|];
    [|reflexivity].
  rewrite chimePlays_stopAudio. apply chimePlays_calls. cbn.
  now rewrite !calls_clearTimer.
Qed.

Lemma chimePlays_timerEffectCleanup s :
  chimePlays (timerEffectCleanup s) = chimePlays s.
Proof. apply chimePlays_calls. cbn. apply calls_clearTimer. Qed.

Lemma chimePlays_completionEffect h s :
  chimePlays (completionEffect h s) = chimePlays s.
Proof.
  unfold completionEffect. destruct (isComplete h); [|reflexivity].
  now rewrite !chimePlays_stopAudio.
Qed.

Lemma chimePlays_keepAmbienceEffect h s :
  chimePlays (keepAmbienceEffect h s) = chimePlays s.
Proof.
  unfold keepAmbienceEffect. destruct (audioRef (refs s)); [|reflexivity].
  destruct (_ && _); [|reflexivity]. destruct (_ && _); [|reflexivity].
  apply chimePlays_playAudio_ambience.
Qed.

(** The chime effect strikes once, during a run. *)
Lemma chimePlays_chimeEffect h s :
  chimePlays (chimeEffect h s) = (chimePlays s + if started h then 1 else 0)%nat.
Proof.
  unfold chimeEffect. destruct (started h); cbn [negb].
  - unfold chimePlays. cbn. lia.
  - lia.
Qed.

Lemma chimePlays_omEffect h s : chimePlays (omEffect h s) = chimePlays s.
Proof. unfold omEffect. destruct (_ || _); reflexivity. Qed.

Lemma chimePlays_timerEffect h s : chimePlays (timerEffect h s) = chimePlays s.
Proof. unfold timerEffect. destruct (negb _); reflexivity. Qed.

Lemma chimePlays_resetRemainingEffect h s :
  chimePlays (resetRemainingEffect h s) = chimePlays s.
Proof. unfold resetRemainingEffect. destruct (started h); reflexivity. Qed.

Lemma chimePlays_muteEffect h s : chimePlays (muteEffect h s) = chimePlays s.
Proof.
  unfold muteEffect. destruct (audioRef (refs s)); [|reflexivity].
  destruct (_ && _); [|reflexivity]. now rewrite chimePlays_playAudio_ambience.
Qed.

(** A commit strikes the chime once if the phase or [started] changed and a
    run is on, and not otherwise. *)
Lemma chimePlays_commit s :
  chimePlays (commit s) =
  (chimePlays s +
   if (changedIndex s || changedStarted s) && started (hooks s) then 1 else 0)%nat.
Proof.
  apply (commit_chime (fun x => chimePlays x = chimePlays s)); try reflexivity;
    intros x Hx.
  - now rewrite chimePlays_omEffectCleanup.
  - now rewrite chimePlays_timerEffectCleanup.
  - now rewrite chimePlays_completionEffect.
  - now rewrite chimePlays_keepAmbienceEffect.
  - exact Hx.
  - destruct (changedIndex s || changedStarted s); cbn [runIf andb].
    + now rewrite chimePlays_chimeEffect, Hx.
    + lia.
  - now rewrite chimePlays_omEffect.
  - now rewrite chimePlays_timerEffect.
  - now rewrite chimePlays_resetRemainingEffect.
  - now rewrite chimePlays_muteEffect.
  - exact Hx.
Qed.

Lemma chimePlays_runCallback c s : chimePlays (runCallback c s) = chimePlays s.
Proof.
  destruct c as [| | | |k]; cbn [runCallback].
  - unfold tickUpdater. destruct (_ && _); [destruct (_ <? _)|]; reflexivity.
  - unfold playOmForExhale, playOm, chimePlays. cbn. now rewrite !calls_clearTimer.
  - unfold playOm, chimePlays. cbn. now rewrite !calls_clearTimer.
  - apply chimePlays_calls. apply calls_fadeTimeoutCb.
  - unfold fadeStepCb. destruct (omAudioRef (refs s)); [|reflexivity].
    destruct (_ <=? _); [|reflexivity].
    unfold chimePlays. cbn. now rewrite calls_clearTimer.
Qed.

Lemma chimePlays_dispatch t s : chimePlays (dispatch t s) = chimePlays s.
Proof.
  unfold dispatch. cbv zeta.
  transitivity (chimePlays
                  (runCallback (cb t)
                     match period t with
                     | Some _ => advanceClock (due t) s
                     | None =>
                         upd_browser (clearTimer (Some (tid t))) (advanceClock (due t) s)
                     end)).
  - apply chimePlays_calls. cbn. apply calls_rearm.
  - rewrite chimePlays_runCallback. apply chimePlays_calls.
    destruct (period t); cbn; apply calls_advanceClock.
Qed.

Lemma chimePlays_handler c s : chimePlays (handler c s) = chimePlays s.
Proof.
  destruct c as [m| |]; cbn [handler]; [reflexivity| |reflexivity].
  unfold returnToStart. now rewrite chimePlays_stopAudio.
Qed.

(** The second render of a settle finds the phase and [started] as the
    first one left them. *)
Lemma chimePlays_settle s :
  chimePlays (settle s) =
  (chimePlays s +
   if (changedIndex s || changedStarted s) && started (hooks s) then 1 else 0)%nat.
Proof.
  unfold settle. rewrite (chimePlays_commit (commit s)), (chimePlays_commit s).
  destruct (commit_keeps s) as (Ks & Ki & _).
  destruct (commit_cells s) as (_ & _ & _ & Kd).
  assert (C : changedIndex (commit s) || changedStarted (commit s) = false).
  { unfold changedIndex, changedStarted. rewrite Kd, Ks, Ki.
    cbn [depsOf d_phaseIndex d_started].
    now rewrite Z.eqb_refl, eqb_reflx. }
  rewrite C. cbn [andb]. lia.
Qed.

(** X10.  The chime is struck exactly once when a run is started and once
    at every change of phase, and at no other time: a timer firing adds one
    [play()] on the chime if it advances the phase and none otherwise, the
    click on a duration adds one, the back button and the mute button
    none. *)
Theorem chime_struck_at_phase_starts s :
  quiescent s ->
  (forall t,
     chimePlays (fire t s) =
     (chimePlays s +
      if negb (phaseIndex (hooks (fire t s)) =? phaseIndex (hooks s))%Z
         && started (hooks s)
      then 1 else 0)%nat) /\
  (forall c,
     enabled c (hooks s) = true ->
     chimePlays (click c s) =
     (chimePlays s + match c with ClickStart _ => 1 | _ => 0 end)%nat).
Proof.
  intros Q.
  assert (Di : d_phaseIndex (deps (effects s)) = phaseIndex (hooks s))
    by (rewrite Q; reflexivity).
  assert (Ds : d_started (deps (effects s)) = started (hooks s))
    by (rewrite Q; reflexivity).
  split.
  - intros t. unfold fire. rewrite chimePlays_settle, chimePlays_dispatch.
    destruct (settle_cells (dispatch t s)) as (Eh & _). rewrite Eh.
    destruct (commit_keeps (dispatch t s)) as (_ & Ki & _). rewrite Ki.
    unfold changedIndex, changedStarted.
    rewrite deps_dispatch, Di, Ds, started_dispatch, eqb_reflx.
    cbn [negb]. rewrite orb_false_r.
    now rewrite (Z.eqb_sym (phaseIndex (hooks s))).
  - intros c En. unfold click. rewrite chimePlays_settle, chimePlays_handler.
    unfold changedIndex, changedStarted. rewrite deps_handler, Di, Ds.
    destruct c as [m| |]; cbn [handler enabled] in *.
    + apply negb_true_iff in En. unfold startWithMinutes. cbn. rewrite En. cbn.
      now rewrite orb_true_r.
    + assert (E : started (hooks (returnToStart s)) = false).
      { unfold returnToStart, stopAudio. cbn. now destruct (audioRef (refs s)). }
      rewrite E. now rewrite andb_false_r.
    + unfold toggleAmbience. cbn. rewrite Z.eqb_refl, eqb_reflx. reflexivity.
Qed.

(** ** The mute button *)

(** The click on the mute button, spelt out: of all effects only the two
    that depend on [ambienceOn] run. *)
Lemma click_mute s :
  quiescent s ->
  click ClickMute s =
  let h := setAmbienceOn (negb (ambienceOn (hooks s))) (hooks s) in
  upd_effects (set_deps (depsOf h))
    (muteEffect h (keepAmbienceEffect h (toggleAmbience s))).
Proof.
  intros Q. cbv zeta.
  set (h := setAmbienceOn (negb (ambienceOn (hooks s))) (hooks s)).
  assert (E1 : commit (toggleAmbience s) =
               upd_effects (set_deps (depsOf h))
                 (muteEffect h (keepAmbienceEffect h (toggleAmbience s)))).
  { unfold commit. cbv zeta.
    unfold changedStarted, changedIndex, changedKey, changedDuration,
      changedComplete, changedAmbience.
    change (hooks (toggleAmbience s)) with h.
    change (deps (effects (toggleAmbience s))) with (deps (effects s)).
    unfold quiescent in Q. rewrite Q.
    cbn [d_started d_phaseIndex d_key d_phaseDurationMs d_isComplete
           d_ambienceOn depsOf].
    change (started h) with (started (hooks s)).
    change (phaseIndex h) with (phaseIndex (hooks s)).
    change (phaseDurationMs h) with (phaseDurationMs (hooks s)).
    change (currentKey h) with (currentKey (hooks s)).
    change (isComplete h) with (isComplete (hooks s)).
    change (ambienceOn h) with (negb (ambienceOn (hooks s))).
    rewrite !eqb_reflx, !Z.eqb_refl, option_key_eqb_refl.
    assert (B : negb (Bool.eqb (ambienceOn (hooks s)) (negb (ambienceOn (hooks s))))
                = true) by now destruct (ambienceOn (hooks s)).
    rewrite B. cbn [negb orb runIf]. reflexivity. }
  unfold click, settle. cbn [handler]. rewrite E1.
  apply commit_quiescent. unfold quiescent. cbn [effects upd_effects set_deps deps].
  f_equal. cbn [hooks upd_effects].
  unfold muteEffect, keepAmbienceEffect, playAudio, onAudio, toggleAmbience.
  cbn. repeat (break_match; cbn); reflexivity.
Qed.

Lemma hooks_playAudio_ambience s :
  hooks (playAudio Ambience audioRef set_audioRef s) = hooks s.
Proof. unfold playAudio, onAudio. now destruct (audioRef (refs s)). Qed.

Lemma hooks_keepAmbienceEffect h s : hooks (keepAmbienceEffect h s) = hooks s.
Proof.
  unfold keepAmbienceEffect. destruct (audioRef (refs s)); [|reflexivity].
  destruct (_ && _); [|reflexivity]. destruct (_ && _); [|reflexivity].
  apply hooks_playAudio_ambience.
Qed.

Lemma hooks_muteEffect h s : hooks (muteEffect h s) = hooks s.
Proof.
  unfold muteEffect. destruct (audioRef (refs s)); [|reflexivity].
  destruct (_ && _); [|reflexivity]. now rewrite hooks_playAudio_ambience.
Qed.

Lemma hum_keepAmbienceEffect h s :
  omAudioRef (refs (keepAmbienceEffect h s)) = omAudioRef (refs s).
Proof.
  unfold keepAmbienceEffect. destruct (audioRef (refs s)); [|reflexivity].
  destruct (_ && _); [|reflexivity]. destruct (_ && _); [|reflexivity].
  apply hum_playAudio_ambience.
Qed.

Lemma chi_playAudio_ambience s :
  chimeAudioRef (refs (playAudio Ambience audioRef set_audioRef s))
  = chimeAudioRef (refs s).
Proof. unfold playAudio, onAudio. now destruct (audioRef (refs s)). Qed.

Lemma chi_keepAmbienceEffect h s :
  chimeAudioRef (refs (keepAmbienceEffect h s)) = chimeAudioRef (refs s).
Proof.
  unfold keepAmbienceEffect. destruct (audioRef (refs s)); [|reflexivity].
  destruct (_ && _); [|reflexivity]. destruct (_ && _); [|reflexivity].
  apply chi_playAudio_ambience.
Qed.

Lemma chi_muteEffect h s :
  chimeAudioRef (refs (muteEffect h s)) = chimeAudioRef (refs s).
Proof.
  unfold muteEffect. destruct (audioRef (refs s)); [|reflexivity].
  destruct (_ && _); [|reflexivity]. now rewrite chi_playAudio_ambience.
Qed.

Lemma calls_playAudio_ambience s x :
  In x (calls (browser (playAudio Ambience audioRef set_audioRef s))) ->
  In x (calls (browser s)) \/ playsAmbience x.
Proof.
  unfold playAudio. cbn. intros [<-|H]; [right; now split|left].
  unfold onAudio in H. now destruct (audioRef (refs s)).
Qed.

Lemma calls_keepAmbienceEffect h s x :
  In x (calls (browser (keepAmbienceEffect h s))) ->
  In x (calls (browser s)) \/ playsAmbience x.
Proof.
  unfold keepAmbienceEffect. destruct (audioRef (refs s)); [|now left].
  destruct (_ && _); [|now left]. destruct (_ && _); [|now left].
  apply calls_playAudio_ambience.
Qed.

Lemma calls_muteEffect h s x :
  In x (calls (browser (muteEffect h s))) ->
  In x (calls (browser s)) \/ playsAmbience x.
Proof.
  unfold muteEffect. destruct (audioRef (refs s)); [|now left].
  destruct (_ && _); [|now left].
  intros H. apply calls_playAudio_ambience in H. exact H.
Qed.

(** X11.  The mute button changes the cell [ambienceOn] and nothing else of
    the state: no timer is armed or cleared, the hum and the chime are left
    alone, the ambience is neither paused nor rewound (muted, it runs on
    silently), its mute flag becomes the old value of [ambienceOn], the only
    calls made are [play()] on the ambience, and a second click restores the
    cells. *)
Theorem mute_button_only_mutes s :
  quiescent s ->
  hooks (click ClickMute s) = setAmbienceOn (negb (ambienceOn (hooks s))) (hooks s) /\
  hooks (click ClickMute (click ClickMute s)) = hooks s /\
  timers (browser (click ClickMute s)) = timers (browser s) /\
  omAudioRef (refs (click ClickMute s)) = omAudioRef (refs s) /\
  chimeAudioRef (refs (click ClickMute s)) = chimeAudioRef (refs s) /\
  (forall a, audioRef (refs s) = Some a ->
     exists a', audioRef (refs (click ClickMute s)) = Some a' /\
                muted a' = ambienceOn (hooks s) /\
                currentTime a' = currentTime a /\
                (paused a = false -> paused a' = false)) /\
  (forall x, In x (calls (browser (click ClickMute s))) ->
             In x (calls (browser s)) \/ playsAmbience x).
Proof.
  intros Q.
  assert (Eh : forall x, quiescent x ->
                 hooks (click ClickMute x)
                 = setAmbienceOn (negb (ambienceOn (hooks x))) (hooks x)).
  { intros x Qx. rewrite (click_mute x Qx). cbv zeta. cbn [hooks upd_effects].
    now rewrite hooks_muteEffect, hooks_keepAmbienceEffect. }
  split; [exact (Eh s Q)|]. split.
  { rewrite (Eh (click ClickMute s) (quiescent_settle (handler ClickMute s))), (Eh s Q).
    destruct (hooks s) as [a b c d e]. cbn. now rewrite negb_involutive. }
  rewrite (click_mute s Q). cbv zeta.
  set (h := setAmbienceOn (negb (ambienceOn (hooks s))) (hooks s)).
  assert (Ha : ambienceOn h = negb (ambienceOn (hooks s))) by reflexivity.
  clearbody h. cbn [refs browser upd_effects].
  split; [|split; [|split; [|split]]].
  - rewrite (timers_schedOf _ _ (schedOf_muteEffect _ _)).
    now rewrite (timers_schedOf _ _ (schedOf_keepAmbienceEffect _ _)).
  - now rewrite hum_muteEffect, hum_keepAmbienceEffect.
  - now rewrite chi_muteEffect, chi_keepAmbienceEffect.
  - intros a Ea. rewrite amb_muteEffect.
    assert (K : exists b, audioRef (refs (keepAmbienceEffect h (toggleAmbience s)))
                          = Some b /\ currentTime b = currentTime a /\
                          muted b = muted a /\
                          (paused a = false -> paused b = false)).
    { destruct (amb_keepAmbienceEffect h (toggleAmbience s)) as [K|(_ & _ & _ & K)];
        rewrite K; change (audioRef (refs (toggleAmbience s))) with (audioRef (refs s));
        rewrite Ea; cbn [option_map]; eexists; (split; [reflexivity|]); auto. }
    destruct K as (b & Kb & K1 & K2 & K3). rewrite Kb. cbn [option_map].
    eexists. split; [reflexivity|].
    rewrite Ha, negb_involutive.
    destruct (_ && _); cbn; repeat split; auto.
  - intros x Hx. apply calls_muteEffect in Hx. destruct Hx as [Hx|Hx]; [|now right].
    apply calls_keepAmbienceEffect in Hx. exact Hx.
Qed.

(** ** The breathing prompt over time *)

Lemma rem_next_cycle d : 0 <= d -> Z.rem (d + 12000) 12000 = Z.rem d 12000.
Proof.
  intros H. rewrite !Z.rem_mod_nonneg by lia.
  replace (d + 12000) with (d + 1 * 12000) by ring. apply Z_mod_plus_full.
Qed.

(** X12.  From the anchor on, the prompt repeats every 12 s: the elapsed
    seconds, the sub-state, the text and the opacity at [now + 12000] are
    those at [now]. *)
Theorem prompt_repeats_every_12s (now cycleTime : Z) :
  cycleTime <= now ->
  (BreathPrompt.elapsedSeconds (now + 12000) cycleTime
   == BreathPrompt.elapsedSeconds now cycleTime)%Q /\
  BreathPrompt.subState (now + 12000) cycleTime = BreathPrompt.subState now cycleTime /\
  BreathPrompt.cycleText (now + 12000) cycleTime = BreathPrompt.cycleText now cycleTime /\
  (BreathPrompt.opacity (now + 12000) cycleTime
   == BreathPrompt.opacity now cycleTime)%Q.
Proof.
  intros H.
  assert (Er : Z.rem (now + 12000 - cycleTime) 12000 = Z.rem (now - cycleTime) 12000).
  { replace (now + 12000 - cycleTime) with (now - cycleTime + 12000) by ring.
    apply rem_next_cycle. lia. }
  assert (Ee : (BreathPrompt.elapsedSeconds (now + 12000) cycleTime
                == BreathPrompt.elapsedSeconds now cycleTime)%Q).
  { now rewrite !elapsedSeconds_rem, Er. }
  assert (Ei : BreathPrompt.isIn (now + 12000) cycleTime = BreathPrompt.isIn now cycleTime).
  { now rewrite !isIn_rem, Er. }
  split; [exact Ee|]. split; [|split].
  - unfold BreathPrompt.subState. now rewrite Ei.
  - unfold BreathPrompt.cycleText. now rewrite Ei.
  - pose proof (opacity_envelope (now + 12000) cycleTime) as F.
    pose proof (opacity_envelope now cycleTime) as G.
    cbv zeta in F, G. rewrite Er in F.
    destruct F as (F1 & F2 & F3), G as (G1 & G2 & G3).
    set (r := Z.rem (now - cycleTime) 12000) in *.
    destruct (Z_le_gt_dec r 3400) as [H1|H1].
    { rewrite F1, G1 by lia. reflexivity. }
    destruct (Z_lt_le_dec r 4000) as [H2|H2].
    { rewrite F2, G2 by lia. now rewrite Ee. }
    destruct (Z_le_gt_dec r 11400) as [H3|H3].
    { rewrite F1, G1 by lia. reflexivity. }
    rewrite F3, G3 by lia. now rewrite Ee.
Qed.

Lemma prompt_repeats_every_12s_witness :
  (BreathPrompt.elapsedSeconds 17000 0 == BreathPrompt.elapsedSeconds 5000 0)%Q /\
  BreathPrompt.subState 17000 0 = BreathPrompt.subState 5000 0 /\
  BreathPrompt.cycleText 17000 0 = BreathPrompt.cycleText 5000 0 /\
  (BreathPrompt.opacity 17000 0 == BreathPrompt.opacity 5000 0)%Q.
Proof. apply (prompt_repeats_every_12s 5000 0). lia. Defined.

(** X13.  A clock reading that is not later than the anchor (the cell [now]
    is refreshed every 100 ms only, the anchor is taken when the effect runs)
    always shows the inhale at full opacity 0.6, however far it lies before
    the anchor: the remainder keeps the sign of the dividend.  So the
    prompt is not periodic before the anchor: 5 s before it the prompt
    shows the inhale, 12 s later the exhale. *)
Theorem prompt_before_anchor_shows_inhale (now cycleTime : Z) :
  now <= cycleTime ->
  (BreathPrompt.elapsedSeconds now cycleTime <= 0)%Q /\
  BreathPrompt.subState now cycleTime = BreathPrompt.Inhale /\
  BreathPrompt.cycleText now cycleTime = "breathe in..."%string /\
  (BreathPrompt.opacity now cycleTime == 6 # 10)%Q /\
  BreathPrompt.subState (cycleTime - 5000) cycleTime = BreathPrompt.Inhale /\
  BreathPrompt.subState (cycleTime - 5000 + 12000) cycleTime = BreathPrompt.Exhale.
Proof.
  intros H.
  assert (Hr : Z.rem (now - cycleTime) 12000 <= 0).
  { apply Z.rem_nonpos; lia. }
  assert (Ei : BreathPrompt.isIn now cycleTime = true).
  { rewrite isIn_rem. apply Z.ltb_lt. lia. }
  split; [|split; [|split; [|split; [|split]]]].
  - rewrite elapsedSeconds_rem.
    set (r := Z.rem (now - cycleTime) 12000) in *. clearbody r. Q_to_Z.
  - unfold BreathPrompt.subState. now rewrite Ei.
  - unfold BreathPrompt.cycleText. now rewrite Ei.
  - pose proof (opacity_envelope now cycleTime) as G. cbv zeta in G.
    destruct G as (G1 & _). apply G1. lia.
  - unfold BreathPrompt.subState. rewrite isIn_rem.
    replace (cycleTime - 5000 - cycleTime) with (-5000) by ring. reflexivity.
  - unfold BreathPrompt.subState. rewrite isIn_rem.
    replace (cycleTime - 5000 + 12000 - cycleTime) with 7000 by ring. reflexivity.
Qed.

Lemma prompt_before_anchor_shows_inhale_witness :
  (BreathPrompt.elapsedSeconds 1000 10000 <= 0)%Q /\
  BreathPrompt.subState 1000 10000 = BreathPrompt.Inhale /\
  BreathPrompt.cycleText 1000 10000 = "breathe in..."%string /\
  (BreathPrompt.opacity 1000 10000 == 6 # 10)%Q /\
  BreathPrompt.subState (10000 - 5000) 10000 = BreathPrompt.Inhale /\
  BreathPrompt.subState (10000 - 5000 + 12000) 10000 = BreathPrompt.Exhale.
Proof. apply (prompt_before_anchor_shows_inhale 1000 10000). lia. Defined.

(** ** The 2-minute run, 35.5 s in, and the back button there *)

Lemma volumes_stay_in_range_witness :
  exists s,
    session M2 35500 = Some s /\
    (forall a, omAudioRef (refs s) = Some a -> (0 <= volume a <= 2 # 10)%Q) /\
    (forall a, chimeAudioRef (refs s) = Some a -> (volume a == 1 # 10)%Q) /\
    (forall a, audioRef (refs s) = Some a -> (volume a == 1)%Q).
Proof.
  destruct run_M2_35500 as (s & E & R & Q & Eh & El).
  exists s. split; [exact E|]. exact (volumes_stay_in_range s R).
Defined.

Lemma back_at_35500 :
  exists s,
    session M2 35500 = Some s /\
    reachable (click ClickBack s) /\ quiescent (click ClickBack s) /\
    started (hooks (click ClickBack s)) = false /\
    audioRef (refs (click ClickBack s))
    = Some (mkAudio true 0 1 false true None None).
Proof.
  destruct run_M2_35500 as (s & E & R & Q & Eh & El).
  exists s. split; [exact E|].
  split; [apply reachable_click; [exact R|exact Q|cbn [enabled]; now rewrite Eh]|].
  split; [apply quiescent_settle|]. split; [apply started_click_back|].
  assert (F : option_map (fun x => audioRef (refs (click ClickBack x)))
                (session M2 35500)
              = Some (Some (mkAudio true 0 1 false true None None)))
    by (vm_compute; reflexivity).
  rewrite E in F. cbv beta iota delta [option_map] in F. now injection F.
Qed.

Lemma hum_silent_where_hum_returns_early_witness :
  exists s,
    session M2 35500 = Some s /\ stopped (omAudioRef (refs (click ClickBack s))).
Proof.
  destruct back_at_35500 as (s & E & R & Q & Hs & Ea).
  exists s. split; [exact E|].
  apply (hum_silent_where_hum_returns_early _ R Q). now rewrite Hs.
Defined.

(** The 2-minute run, 35.5 s in: the ambience is sounding, and the back
    button with its two renders leaves it paused at position 0. *)
Lemma every_pause_rewinds_witness :
  exists s a a',
    session M2 35500 = Some s /\
    audioRef (refs s) = Some a /\ paused a = false /\
    audioRef (refs (click ClickBack s)) = Some a' /\
    paused a' = true /\ currentTime a' = 0.
Proof.
  destruct back_at_35500 as (s & E & R & Q & Hs & Ea).
  assert (F : option_map (fun x => audioRef (refs x)) (session M2 35500)
              = Some (Some (mkAudio false 35500 1 false true None None)))
    by (vm_compute; reflexivity).
  rewrite E in F. cbv beta iota delta [option_map] in F. injection F as F.
  exists s, (mkAudio false 35500 1 false true None None),
    (mkAudio true 0 1 false true None None).
  split; [exact E|]. split; [exact F|]. split; [reflexivity|].
  split; [exact Ea|]. split; [reflexivity|].
  assert (S : sourceRun s (click ClickBack s)).
  { unfold click, settle. apply run_commit, run_commit, run_handler, run_none. }
  destruct (every_pause_rewinds s (click ClickBack s) S audioRef
              (mkAudio true 0 1 false true None None)
              ltac:(left; reflexivity) Ea eq_refl) as [H|(a & Ha & Hp & _)].
  - exact H.
  - rewrite F in Ha. injection Ha as <-. discriminate Hp.
Defined.

Lemma ambience_follows_the_run_witness :
  exists s,
    session M2 35500 = Some s /\
    (started (hooks s) = false -> stopped (audioRef (refs s))) /\
    (started (hooks s) = true ->
     exists a, audioRef (refs s) = Some a /\ loop a = true /\
               muted a = negb (ambienceOn (hooks s)) /\
               (isComplete (hooks s) = false -> ambienceOn (hooks s) = true ->
                paused a = false)).
Proof.
  destruct run_M2_35500 as (s & E & R & Q & Eh & El).
  exists s. split; [exact E|]. exact (ambience_follows_the_run s R Q).
Defined.

Lemma mute_button_only_mutes_witness :
  exists s,
    session M2 35500 = Some s /\
    hooks (click ClickMute s) = mkHooks true 1 24000 13000 false /\
    hooks (click ClickMute (click ClickMute s)) = hooks s /\
    timers (browser (click ClickMute s)) = timers (browser s).
Proof.
  destruct run_M2_35500 as (s & E & R & Q & Eh & El).
  exists s. split; [exact E|].
  destruct (mute_button_only_mutes s Q) as (M1 & M2 & M3 & _).
  rewrite Eh in M1. cbn in M1. repeat split; assumption.
Defined.

(** The 2-minute run, 23 s in: the next tick moves it to the second phase
    and strikes the chime. *)
Lemma chime_struck_at_phase_starts_witness :
  exists s t,
    session M2 23000 = Some s /\ tickTimer s = Some t /\
    chimePlays (fire t s) = S (chimePlays s) /\
    chimePlays (click ClickBack s) = chimePlays s.
Proof.
  destruct (session M2 23000) as [s|] eqn:E; [|vm_compute in E; discriminate].
  destruct (tickTimer s) as [t|] eqn:Et.
  2:{ assert (F : option_map tickTimer (session M2 23000) <> Some None)
        by (vm_compute; discriminate).
      rewrite E in F. cbn in F. congruence. }
  assert (F : option_map (fun x => hooks x) (session M2 23000)
              = Some (mkHooks true 0 24000 1000 true))
    by (vm_compute; reflexivity).
  rewrite E in F. cbv beta iota delta [option_map] in F. injection F as F.
  assert (G : option_map
                (fun x => match tickTimer x with
                          | Some u => phaseIndex (hooks (fire u x)) =? 1
                          | None => false
                          end) (session M2 23000) = Some true)
    by (vm_compute; reflexivity).
  rewrite E in G. cbv beta iota delta [option_map] in G. rewrite Et in G.
  destruct (phaseIndex (hooks (fire t s)) =? 1) eqn:EG; [clear G|discriminate G].
  apply Z.eqb_eq in EG.
  destruct (session_reachable _ _ _ E) as [R Q].
  destruct (chime_struck_at_phase_starts s Q) as [C1 C2].
  exists s, t. split; [reflexivity|]. split; [exact Et|]. split.
  - rewrite (C1 t), EG, F. cbn. lia.
  - rewrite (C2 ClickBack) by (cbn [enabled]; now rewrite F). lia.
Defined.

(** ** The hum cycle stays armed *)

Lemma humArmed_ext s1 s2 : schedOf s1 = schedOf s2 -> humArmed s1 -> humArmed s2.
Proof.
  intros E (u & Hu & Hc). exists u. now rewrite <- (timers_schedOf _ _ E).
Qed.

Lemma humArmed_more s1 s2 :
  (forall u, In u (timers (browser s1)) ->
             cb u = CbStartOmCycle \/ cb u = CbPlayOm ->
             In u (timers (browser s2))) ->
  humArmed s1 -> humArmed s2.
Proof.
  intros H (u & Hu & Hc). exists u. split; [|exact Hc]. now apply H.
Qed.

(** A timer that is not a fade timer is not named by the fade variables. *)
Lemma kept_not_fade s u :
  Sched s -> In u (timers (browser s)) -> isFade (cb u) = false ->
  fadeTimeoutId s <> Some (tid u) /\ fadeIntervalId s <> Some (tid u).
Proof.
  intros (_ & F & _) Hu Ec. destruct (F u Hu) as (_ & _ & Ho).
  destruct Ho as (_ & _ & _ & O4 & O5). unfold isFadeStep in O5.
  split; intros Q.
  - apply O4 in Q. rewrite Q in Ec. discriminate.
  - apply O5 in Q. revert Ec Q. destruct (cb u); cbn; intros; discriminate.
Qed.

Lemma kept_after_playOm s u :
  Sched s -> In u (timers (browser s)) -> isFade (cb u) = false ->
  In u (timers (browser (playOm s))).
Proof.
  intros S Hu Ec. destruct (kept_not_fade s u S Hu Ec) as [N1 N2].
  destruct (schedOf_playOm s) as [d E]. rewrite (timers_view _ _ _ _ E).
  apply in_or_app. left. apply In_clearL. split; [|exact N2].
  apply In_clearL. split; assumption.
Qed.

(** No callback clears a timer of the phase clock or of the hum cycle. *)
Lemma kept_after_runCallback c s u :
  Sched s -> In u (timers (browser s)) -> isFade (cb u) = false ->
  In u (timers (browser (runCallback c s))).
Proof.
  intros S Hu Ec. destruct c as [| | | |k]; cbn [runCallback].
  - now rewrite (timers_schedOf _ _ (schedOf_tickUpdater s)).
  - destruct (schedOf_playOmForExhale s) as [d E]. rewrite (timers_view _ _ _ _ E).
    apply in_or_app. left. now apply kept_after_playOm.
  - now apply kept_after_playOm.
  - destruct (schedOf_fadeTimeoutCb s) as [E|[d E]].
    + now rewrite (timers_schedOf _ _ E).
    + rewrite (timers_view _ _ _ _ E). apply in_or_app. now left.
  - destruct (schedOf_fadeStepCb k s) as [E|E].
    + now rewrite (timers_schedOf _ _ E).
    + rewrite (timers_view _ _ _ _ E). apply In_clearL. split; [exact Hu|].
      now apply (kept_not_fade s u S Hu Ec).
Qed.

Lemma humKept_commit s : Sched s -> humKept s -> humKept (commit s).
Proof.
  intros S H. unfold humKept.
  destruct (commit_stages s) as (s3 & E3 & E4).
  destruct (commit_cells s) as (_ & _ & _ & Ed). rewrite Ed.
  intros Hi. apply (humArmed_ext _ _ (eq_sym E4)).
  assert (G : humArmed
                (runIf (changedStarted s || changedKey s || changedComplete s)
                   (omEffect (hooks s)) s3)).
  { destruct (changedStarted s || changedKey s || changedComplete s) eqn:Hb;
      cbn [runIf].
    - unfold omEffect. unfold humIdle in Hi. cbn [depsOf d_started d_key d_isComplete] in Hi.
      rewrite Hi. cbn.
      eexists. split; [apply in_or_app; right; left; reflexivity|]. now left.
    - assert (Hi' : humIdle (deps (effects s)) = false).
      { apply orb_false_elim in Hb. destruct Hb as [Hb H3].
        apply orb_false_elim in Hb. destruct Hb as [H1 H2].
        unfold changedStarted in H1. unfold changedKey in H2.
        unfold changedComplete in H3.
        apply eqb_false_negb in H1, H3. apply negb_false_iff, option_key_eqb_eq in H2.
        unfold humIdle in *. cbn [depsOf d_started d_key d_isComplete] in Hi.
        now rewrite H1, H2, H3. }
      apply (humArmed_ext _ _ (eq_sym E3)). cbn [runIf].
      apply (humArmed_more s); [|now apply H].
      intros u Hu Hf.
      destruct (changedStarted s || changedDuration s); cbn [runIf]; [|exact Hu].
      unfold timerEffectCleanup. cbn [browser]. rewrite timers_clearTimer'.
      apply In_clearL. split; [exact Hu|].
      destruct S as (_ & F & _). destruct (F u Hu) as (_ & _ & Ho).
      destruct Ho as (O1 & _). unfold slotsOf in O1. cbn [sl_tick] in O1.
      intros Q. apply O1 in Q. destruct Hf; congruence. }
  destruct (changedStarted s || changedDuration s); cbn [runIf]; [|exact G].
  revert G. apply humArmed_more. intros u Hu _.
  unfold timerEffect. destruct (negb _); [exact Hu|].
  cbn. apply in_or_app. now left.
Qed.

Lemma humKept_dispatch t s :
  Sched s -> In t (timers (browser s)) -> humKept s -> humKept (dispatch t s).
Proof.
  intros S Ht H. unfold humKept. rewrite deps_dispatch. intros Hi.
  destruct (H Hi) as (u & Hu & Hc).
  assert (Hf : isFade (cb u) = false) by (destruct Hc as [-> | ->]; reflexivity).
  unfold dispatch. cbv zeta.
  pose proof (schedOf_advanceClock (due t) s) as E0.
  set (s0 := advanceClock (due t) s) in *.
  set (s1 := match period t with
             | Some _ => s0
             | None => upd_browser (clearTimer (Some (tid t))) s0
             end).
  assert (S0 : Sched s0) by (apply (Sched_ext s); [now symmetry|exact S]).
  assert (S1 : Sched s1).
  { unfold s1. destruct (period t); [exact S0|].
    unfold Sched, upd_browser. cbn. now apply SchedOn_without. }
  rewrite (timers_schedOf _ _ (eq_sym E0)) in Hu, Ht.
  assert (M : forall v, In v (timers (browser s0)) ->
                        (period t = None -> tid v <> tid t) ->
                        In v (timers (browser s1))).
  { intros v Hv Hn. unfold s1. destruct (period t); [exact Hv|].
    cbn. apply In_without. split; [exact Hv|now apply Hn]. }
  assert (K : omCleanup (effects s1) = omCleanup (effects s0)).
  { unfold s1. now destruct (period t). }
  pose proof S0 as (_ & F & _). destruct (F t Ht) as (_ & Hh & _).
  clearbody s1.
  destruct (Nat.eq_dec (tid u) (tid t)) as [Et|Et].
  - pose proof (unique_tid _ _ _ _ _ S0 Ht Hu Et) as ->.
    unfold held in Hh. destruct Hc as [Ec|Ec]; rewrite Ec in *.
    + (* the timeout that starts the cycle: the interval takes over *)
      destruct Hh as [_ Hp]. cbn [runCallback].
      destruct (schedOf_playOmForExhale s1) as [d E].
      eexists. split.
      * unfold upd_browser, rearm. cbn [browser]. rewrite Hp.
        rewrite (timers_view _ _ _ _ E). apply in_or_app. right. left. reflexivity.
      * now right.
    + (* the interval: queued again *)
      destruct Hh as [_ Hp].
      exists (mkTimer (tid t) (nextCallback (cb t)) (due t + 12000) (Some 12000)).
      split.
      * cbn [browser upd_browser]. apply In_rearm_self; [|exact Hp].
        cbn [runCallback]. apply kept_after_playOm; [exact S1| |now rewrite Ec].
        apply M; [exact Ht|]. rewrite Hp. discriminate.
      * cbn. rewrite Ec. now right.
  - exists u. split; [|exact Hc].
    cbn [browser upd_browser]. apply In_rearm_other; [|exact Et].
    apply kept_after_runCallback; [exact S1| |exact Hf].
    apply M; [exact Hu|]. intros _. exact Et.
Qed.

Lemma humKept_reachable s : reachable s -> humKept s.
Proof.
  induction 1 as [|s s' R IH St].
  - unfold humKept. cbn. discriminate.
  - destruct St as [s t|s c Q E|s t Q Ht|s].
    + unfold humKept. rewrite deps_advanceClock. intros Hi.
      apply (humArmed_ext s); [symmetry; apply schedOf_advanceClock|now apply IH].
    + unfold humKept. rewrite deps_handler. intros Hi.
      apply (humArmed_ext s); [symmetry; apply schedOf_handler|now apply IH].
    + apply humKept_dispatch; [now apply Sched_reachable|exact Ht|exact IH].
    + apply humKept_commit; [now apply Sched_reachable|exact IH].
Qed.

(** X14.  Whenever the component is at rest in one of the phases two to
    five of a run that is not complete, the hum cycle is armed: either the
    4 s timeout that starts it or the 12 s interval is pending, whatever was
    clicked and whichever timers fired before. *)
Theorem hum_cycle_armed_in_later_phases s :
  reachable s -> quiescent s ->
  started (hooks s) = true -> isP1 (currentKey (hooks s)) = false ->
  isComplete (hooks s) = false ->
  exists u, In u (timers (browser s)) /\
            (cb u = CbStartOmCycle /\ period u = None \/
             cb u = CbPlayOm /\ period u = Some 12000).
Proof.
  intros R Q Hs Hk Hc. destruct (quiescent_deps s Q) as [_ D].
  pose proof (humKept_reachable s R) as H. unfold humKept in H.
  rewrite D, Hs, Hk, Hc in H. destruct (H eq_refl) as (u & Hu & Eu).
  exists u. split; [exact Hu|].
  destruct (Sched_reachable s R) as (_ & F & _).
  destruct (F u Hu) as (_ & Hh & _). unfold held in Hh.
  destruct Eu as [Eu|Eu]; rewrite Eu in Hh; [left|right]; tauto.
Qed.

Lemma hum_cycle_armed_in_later_phases_witness :
  exists s,
    session M2 35500 = Some s /\
    exists u, In u (timers (browser s)) /\
              (cb u = CbStartOmCycle /\ period u = None \/
               cb u = CbPlayOm /\ period u = Some 12000).
Proof.
  destruct run_M2_35500 as (s & E & R & Q & Eh & El).
  exists s. split; [exact E|].
  apply (hum_cycle_armed_in_later_phases s R Q); now rewrite Eh.
Defined.

(** ** The ambience at the phase changes *)

Lemma commit_completion (P Q : State -> Prop) s :
  (forall x, P x -> P (omEffectCleanup x)) ->
  (forall x, P x -> P (timerEffectCleanup x)) ->
  (forall x, P x -> Q (runIf (changedComplete s) (completionEffect (hooks s)) x)) ->
  (forall x, Q x -> Q (keepAmbienceEffect (hooks s) x)) ->
  (forall x, Q x -> Q (syncRefEffect (hooks s) x)) ->
  (forall x, Q x -> Q (chimeEffect (hooks s) x)) ->
  (forall x, Q x -> Q (omEffect (hooks s) x)) ->
  (forall x, Q x -> Q (timerEffect (hooks s) x)) ->
  (forall x, Q x -> Q (resetRemainingEffect (hooks s) x)) ->
  (forall x, Q x -> Q (muteEffect (hooks s) x)) ->
  (forall x, Q x -> Q (upd_effects (set_deps (depsOf (hooks s))) x)) ->
  P s -> Q (commit s).
Proof.
  intros H1 H2 H3 H4 H5 H6 H7 H8 H9 H10 H11 H0.
  assert (R : forall (X : State -> Prop) b f x,
             (forall y, X y -> X (f y)) -> X x -> X (runIf b f x)).
  { intros X b f x Hf Hx. destruct b; cbn; auto. }
  unfold commit. cbv zeta.
  apply H11. apply R; [exact H10|]. apply R; [exact H9|]. apply R; [exact H8|].
  apply R; [exact H7|]. apply R; [exact H6|]. apply R; [exact H5|].
  apply R; [exact H4|]. apply H3. apply R; [exact H2|].
  apply R; [exact H1|]. exact H0.
Qed.

(** A render that finds [isComplete] newly true leaves the ambience
    stopped. *)
Lemma commit_stops_ambience s :
  isComplete (hooks s) = true -> changedComplete s = true ->
  audioRef (refs s) <> None ->
  exists a, audioRef (refs (commit s)) = Some a /\
            paused a = true /\ currentTime a = 0.
Proof.
  intros Hc Hb.
  apply (commit_completion
           (fun x => audioRef (refs x) <> None)
           (fun x => exists a, audioRef (refs x) = Some a /\
                               paused a = true /\ currentTime a = 0));
    intros x Hx.
  - now rewrite amb_omEffectCleanup.
  - exact Hx.
  - rewrite Hb. cbn [runIf]. rewrite amb_completionEffect, Hc.
    destruct (audioRef (refs x)) as [a|]; [|congruence].
    eexists. split; [reflexivity|]. split; reflexivity.
  - destruct (amb_keepAmbienceEffect (hooks s) x) as [E|(_ & E & _)];
      [now rewrite E|congruence].
  - exact Hx.
  - now rewrite amb_chimeEffect.
  - now rewrite amb_omEffect.
  - now rewrite amb_timerEffect.
  - now rewrite amb_resetRemainingEffect.
  - rewrite amb_muteEffect, Hc. cbn [negb]. rewrite andb_false_r.
    destruct Hx as (a & Ea & Hp & Ht). rewrite Ea. cbn [option_map].
    eexists. split; [reflexivity|]. split; assumption.
  - exact Hx.
Qed.

(** The next render, which finds [isComplete] false again, starts the
    ambience where the stop left it if the ambience is on, and leaves it
    paused if not. *)
Lemma commit_restarts_ambience s a :
  isComplete (hooks s) = false -> changedComplete s = true ->
  started (hooks s) = true ->
  audioRef (refs s) = Some a -> paused a = true -> currentTime a = 0 ->
  exists a', audioRef (refs (commit s)) = Some a' /\
             currentTime a' = 0 /\ paused a' = negb (ambienceOn (hooks s)).
Proof.
  intros Hc Hb Hs Ea Hp Ht.
  destruct (ambience_commit_last
              (fun o => exists b, o = Some b /\ currentTime b = 0 /\
                                  (ambienceOn (hooks s) = false -> paused b = true)) s)
    as (y & (b & Eb & Tb & Pb) & E).
  - congruence.
  - intros _ _ Ha o (b & -> & Tb & Pb). eexists. split; [reflexivity|].
    split; [exact Tb|]. congruence.
  - exists a. auto.
  - rewrite E, Hb, !orb_true_r. cbn [refs upd_effects runIf].
    rewrite amb_muteEffect, Eb, Hs, Hc. cbn [option_map negb].
    rewrite !andb_true_r.
    eexists. split; [reflexivity|].
    destruct (ambienceOn (hooks s)) eqn:Ha; cbn; auto.
Qed.

(** A tick that ends a phase, on the cells. *)
Lemma dispatch_tick_advances t s :
  cb t = CbTick -> quiescent s -> Inv s ->
  remaining (hooks s) <= 1000 -> phaseIndex (hooks s) < 4 ->
  hooks (dispatch t s)
  = setRemaining 0 (setPhaseIndex (phaseIndex (hooks s) + 1) (hooks s)) /\
  deps (effects (dispatch t s)) = depsOf (hooks s).
Proof.
  intros Ec Q (_ & _ & I3 & I4) Hr Hi.
  assert (Hd : d_phaseIndex (deps (effects s)) = phaseIndex (hooks s))
    by (rewrite Q; reflexivity).
  destruct (I4 Hd) as [Hx Hg].
  split; [|rewrite deps_dispatch; exact Q].
  pose proof (f_equal (fun x => fst (fst (fst x))) (clockOf_dispatch t s)) as E.
  cbn [clockOf fst] in E. rewrite E, Ec. cbn [fst].
  unfold tickUpdater. rewrite Hg, Hx.
  assert (B1 : (remaining (hooks s) <=? 1000) = true) by (apply Z.leb_le; lia).
  assert (B2 : (phaseIndex (hooks s) <? PHASES_length - 1) = true)
    by (rewrite PHASES_last; apply Z.ltb_lt; lia).
  rewrite B1, B2. cbn.
  destruct (hooks s) as [st pi D rem amb]. cbn in *.
  unfold setRemaining. cbn. f_equal. lia.
Qed.

Lemma fire_unfold t s : fire t s = commit (commit (dispatch t s)).
Proof. reflexivity. Qed.

Lemma currentTime_advanceAudio dt a :
  0 < dt -> currentTime a <= currentTime (advanceAudio dt a).
Proof. intros H. unfold advanceAudio. destruct (paused a); cbn; lia. Qed.

(** X15.  The tick that ends the fourth phase hands React cells that
    satisfy the completion predicate for one render (index 4, remaining 0),
    and that render stops the ambience: when the last phase begins, the
    ambience is back at position 0, sounding again if the ambience is on and
    left paused if it is muted.  A tick that ends one of the first three
    phases leaves a sounding ambience to play on. *)
Theorem last_phase_rewinds_ambience t s :
  reachable s -> quiescent s -> cb t = CbTick ->
  started (hooks s) = true -> remaining (hooks s) <= 1000 ->
  (phaseIndex (hooks s) = 3 ->
   exists a, audioRef (refs (fire t s)) = Some a /\ currentTime a = 0 /\
             paused a = negb (ambienceOn (hooks s))) /\
  (phaseIndex (hooks s) < 3 ->
   forall a, audioRef (refs s) = Some a -> paused a = false ->
   exists a', audioRef (refs (fire t s)) = Some a' /\ paused a' = false /\
              currentTime a <= currentTime a').
Proof.
  intros R Q Ec Hs Hr.
  pose proof (Inv_reachable s R) as I. pose proof I as (_ & I2 & _).
  destruct (ambienceKept_reachable s R) as (A1 & _).
  rewrite fire_unfold.
  set (s1 := dispatch t s).
  set (s2 := commit s1).
  assert (C2 : forall i, phaseIndex (hooks s) = i -> i < 4 ->
            hooks s1 = mkHooks true (i + 1) (phaseDurationMs (hooks s)) 0
                         (ambienceOn (hooks s)) /\
            deps (effects s1) = depsOf (hooks s) /\
            hooks s2 = mkHooks true (i + 1) (phaseDurationMs (hooks s))
                         (phaseDurationMs (hooks s)) (ambienceOn (hooks s)) /\
            deps (effects s2) = depsOf (hooks s1)).
  { intros i Hi Hlt.
    destruct (dispatch_tick_advances t s Ec Q I Hr ltac:(lia)) as [Eh Ed].
    fold s1 in Eh, Ed.
    assert (Eh1 : hooks s1 = mkHooks true (i + 1) (phaseDurationMs (hooks s)) 0
                               (ambienceOn (hooks s))).
    { rewrite Eh. destruct (hooks s) as [st pi D rem amb]. cbn in *. now subst. }
    destruct (commit_cells s1) as (Kh & _ & _ & Kd). fold s2 in Kh, Kd.
    split; [exact Eh1|]. split; [exact Ed|]. split; [|exact Kd].
    rewrite Kh. unfold changedIndex. rewrite Ed, Eh1. cbn.
    assert (B : (phaseIndex (hooks s) =? i + 1) = false) by (apply Z.eqb_neq; lia).
    rewrite B. reflexivity. }
  assert (A0 : audioRef (refs s1) <> None).
  { specialize (A1 Hs). unfold s1.
    destruct (amb_dispatch t s) as [E|(dt & _ & E)]; rewrite E;
      destruct (audioRef (refs s)); cbn; congruence. }
  split.
  - intros Hi. destruct (C2 3 Hi ltac:(lia)) as (H1 & D1 & H2 & D2).
    assert (Hc0 : isComplete (hooks s) = false).
    { unfold isComplete. rewrite Hi. cbn. now rewrite andb_false_r. }
    destruct (commit_stops_ambience s1) as (a & Ea & Pa & Ta).
    + rewrite H1. reflexivity.
    + unfold changedComplete. rewrite D1, H1. cbn [depsOf d_isComplete].
      rewrite Hc0. reflexivity.
    + exact A0.
    + fold s2 in Ea.
      assert (Hc2 : isComplete (hooks s2) = false).
      { rewrite H2. unfold isComplete. cbn.
        assert (B : (phaseDurationMs (hooks s) =? 0) = false)
          by (apply Z.eqb_neq; lia).
        rewrite B. reflexivity. }
      destruct (commit_restarts_ambience s2 a) as (a' & Ea' & Ta' & Pa'); auto.
      * unfold changedComplete. rewrite D2, Hc2, H1. reflexivity.
      * rewrite H2. reflexivity.
      * exists a'. rewrite H2 in Pa'. auto.
  - intros Hi a Ea Pa.
    destruct (C2 _ eq_refl ltac:(lia)) as (H1 & D1 & H2 & D2).
    set (K := fun o : option Audio =>
                exists a', o = Some a' /\ paused a' = false /\
                           currentTime a <= currentTime a').
    assert (K1 : K (audioRef (refs s1))).
    { unfold s1, K. destruct (amb_dispatch t s) as [E|(dt & Hdt & E)];
        rewrite E, Ea; cbn [option_map]; eexists; (split; [reflexivity|]).
      - split; [exact Pa|lia].
      - rewrite paused_advanceAudio. split; [exact Pa|].
        now apply currentTime_advanceAudio. }
    assert (Kc : forall x, isComplete (hooks x) = false ->
                           K (audioRef (refs x)) -> K (audioRef (refs (commit x)))).
    { intros x Hx. apply ambience_commit.
      - congruence.
      - intros _ _ _ o (b & -> & Pb & Tb). eexists. split; [reflexivity|]. auto.
      - intros o (b & -> & Pb & Tb). eexists. split; [reflexivity|]. auto. }
    apply Kc.
    + rewrite H2. unfold isComplete. cbn [started phaseIndex remaining].
      assert (B : (phaseIndex (hooks s) + 1 =? PHASES_length - 1) = false)
        by (rewrite PHASES_last; apply Z.eqb_neq; lia).
      rewrite B. reflexivity.
    + apply Kc; [|exact K1].
      rewrite H1. unfold isComplete. cbn [started phaseIndex remaining].
      assert (B : (phaseIndex (hooks s) + 1 =? PHASES_length - 1) = false)
        by (rewrite PHASES_last; apply Z.eqb_neq; lia).
      rewrite B. reflexivity.
Qed.

(** The 2-minute run at 95 s: the next tick begins the last phase. *)
Lemma last_phase_rewinds_ambience_witness :
  exists s t,
    session M2 95000 = Some s /\ tickTimer s = Some t /\
    exists a, audioRef (refs (fire t s)) = Some a /\ currentTime a = 0 /\
              paused a = false.
Proof.
  destruct (session M2 95000) as [s|] eqn:E; [|vm_compute in E; discriminate].
  destruct (tickTimer s) as [t|] eqn:Et.
  2:{ assert (F : option_map tickTimer (session M2 95000) <> Some None)
        by (vm_compute; discriminate).
      rewrite E in F. cbn in F. congruence. }
  assert (F : option_map (fun x => hooks x) (session M2 95000)
              = Some (mkHooks true 3 24000 1000 true))
    by (vm_compute; reflexivity).
  rewrite E in F. cbv beta iota delta [option_map] in F. injection F as F.
  destruct (session_reachable _ _ _ E) as [R Q].
  destruct (tickTimer_spec _ _ Et) as [_ Hc].
  destruct (last_phase_rewinds_ambience t s R Q Hc) as [L _].
  - now rewrite F.
  - rewrite F. cbn. lia.
  - destruct L as (a & Ea & Ta & Pa); [now rewrite F|].
    exists s, t. split; [reflexivity|]. split; [exact Et|].
    exists a. rewrite F in Pa. auto.
Defined.

(** ** The time display *)

Lemma min_div (r : Z) : TimeStr.min r = r / 60000.
Proof.
  unfold TimeStr.min.
  rewrite (Qfloor_comp _ (inject_Z r / inject_Z 60000)).
  - symmetry. apply Zdiv_Qdiv.
  - change (inject_Z 60000) with (1000 * 60)%Q. field.
Qed.

Lemma sec_rem (r : Z) :
  (js_rem (inject_Z r / 1000) 60 == inject_Z (Z.rem r 60000) / inject_Z 1000)%Q.
Proof.
  unfold js_rem, Qtrunc.
  replace (Qnum (inject_Z r / 1000 / 60)) with r
    by (unfold Qdiv, Qmult, Qinv, inject_Z; simpl; ring).
  replace (Zpos (Qden (inject_Z r / 1000 / 60))) with 60000 by reflexivity.
  rewrite (Z.rem_eq r 60000) by lia.
  unfold Z.sub. rewrite inject_Z_plus, inject_Z_opp, inject_Z_mult.
  change (inject_Z 60000) with (60 * 1000)%Q.
  change (inject_Z 1000) with 1000%Q. field.
Qed.

Lemma sec_mod (r : Z) : 0 <= r -> TimeStr.sec r = (r / 1000) mod 60.
Proof.
  intros H. unfold TimeStr.sec.
  rewrite (Qfloor_comp _ _ (sec_rem r)), <- Zdiv_Qdiv.
  rewrite Z.rem_mod_nonneg by lia.
  change 60000 with (1000 * 60).
  rewrite Z.rem_mul_r by lia.
  rewrite (Z.mul_comm 1000), Z.div_add by lia.
  rewrite (Z.div_small (r mod 1000)); [lia|].
  apply Z.mod_pos_bound. lia.
Qed.

Lemma timeStr_shape_checked :
  forallb (fun m =>
             forallb (fun s =>
                        let str := (TimeStr.toString m ++ ":"
                                    ++ TimeStr.padStart 2 (TimeStr.toString s))%string in
                        Nat.eqb (String.length str) 4
                        && String.eqb (substring 1 1 str) ":")
               (Zrange 0 60))
    (Zrange 0 10) = true.
Proof. vm_compute. reflexivity. Qed.

(** X16.  For a remaining time that is not negative, [min] is the number of
    whole minutes and [sec] the number of whole seconds beyond them: [sec]
    lies between 0 and 59 and [60 * min + sec] is the remaining time in
    whole seconds; below ten minutes [timeStr] has the shape [m:ss], four
    characters with the colon second. *)
Theorem time_display (remaining : Z) :
  0 <= remaining ->
  TimeStr.min remaining = remaining / 60000 /\
  TimeStr.sec remaining = (remaining / 1000) mod 60 /\
  0 <= TimeStr.sec remaining <= 59 /\
  60 * TimeStr.min remaining + TimeStr.sec remaining = remaining / 1000 /\
  (remaining < 600000 ->
   String.length (TimeStr.timeStr remaining) = 4%nat /\
   substring 1 1 (TimeStr.timeStr remaining) = ":"%string).
Proof.
  intros H. rewrite min_div, sec_mod by exact H.
  pose proof (Z.mod_pos_bound (remaining / 1000) 60 ltac:(lia)) as B.
  assert (E : remaining / 60000 = remaining / 1000 / 60).
  { change 60000 with (1000 * 60). rewrite Z.div_div by lia. reflexivity. }
  split; [reflexivity|]. split; [reflexivity|]. split; [lia|]. split.
  - rewrite E. pose proof (Z.div_mod (remaining / 1000) 60 ltac:(lia)). lia.
  - intros Hlt. unfold TimeStr.timeStr. rewrite min_div, sec_mod by exact H.
    pose proof timeStr_shape_checked as C.
    rewrite forallb_forall in C.
    assert (Hm : In (remaining / 60000) (Zrange 0 10)).
    { apply Zrange_In. split.
      - apply Z.div_pos; lia.
      - apply Z.div_lt_upper_bound; lia. }
    specialize (C _ Hm). rewrite forallb_forall in C.
    assert (Hs : In ((remaining / 1000) mod 60) (Zrange 0 60)).
    { apply Zrange_In. lia. }
    specialize (C _ Hs). cbv zeta in C. apply andb_prop in C. destruct C as [C1 C2].
    apply Nat.eqb_eq in C1. apply String.eqb_eq in C2. split; assumption.
Qed.

Lemma time_display_witness :
  TimeStr.min 95000 = 95000 / 60000 /\
  TimeStr.sec 95000 = (95000 / 1000) mod 60 /\
  0 <= TimeStr.sec 95000 <= 59 /\
  60 * TimeStr.min 95000 + TimeStr.sec 95000 = 95000 / 1000 /\
  (95000 < 600000 ->
   String.length (TimeStr.timeStr 95000) = 4%nat /\
   substring 1 1 (TimeStr.timeStr 95000) = ":"%string).
Proof. apply (time_display 95000). lia. Defined.

(** ** Whole seconds *)

Lemma wholeSeconds_tickUpdater s :
  wholeSeconds (hooks s) -> wholeSeconds (hooks (tickUpdater s)).
Proof.
  unfold wholeSeconds, tickUpdater. intros [D M].
  assert (M1 : (remaining (hooks s) - 1000) mod 1000 = 0).
  { replace (remaining (hooks s) - 1000) with (remaining (hooks s) + (-1) * 1000)
      by ring.
    now rewrite Z_mod_plus_full. }
  destruct (_ && _); [destruct (_ <? _)|]; cbn; (split; [exact D|]); try exact M1;
    destruct (Z.max_spec 0 (remaining (hooks s) - 1000)) as [[_ ->]|[_ ->]];
    try exact M1; reflexivity.
Qed.

Lemma wholeSeconds_commit s :
  wholeSeconds (hooks s) -> wholeSeconds (hooks (commit s)).
Proof.
  intros [D M]. destruct (commit_cells s) as (-> & _).
  destruct (_ && _); [|now split].
  unfold wholeSeconds. cbn. split; [exact D|].
  destruct D as [<-|[<-|[<-|[]]]]; reflexivity.
Qed.

Lemma wholeSeconds_reachable s : reachable s -> wholeSeconds (hooks s).
Proof.
  induction 1 as [|s s' R IH St].
  - unfold wholeSeconds. cbn. split; [tauto|reflexivity].
  - destruct St as [s t|s c Q E|s t Q Ht|s].
    + now rewrite (hooks_clockOf _ _ (clockOf_advanceClock t s)).
    + destruct c as [m| |]; cbn [handler].
      * unfold wholeSeconds, startWithMinutes. cbn. destruct m; cbn; tauto.
      * assert (E1 : hooks (returnToStart s)
                     = setRemaining 60000
                         (setPhaseIndex 0 (setStarted false (hooks s)))).
        { unfold returnToStart, stopAudio. cbn. now destruct (audioRef (refs s)). }
        rewrite E1. unfold wholeSeconds in *. cbn. tauto.
      * exact IH.
    + pose proof (f_equal (fun x => fst (fst (fst x))) (clockOf_dispatch t s)) as E.
      cbn [clockOf fst] in E. rewrite E.
      destruct (cb t); cbn [fst]; try exact IH. now apply wholeSeconds_tickUpdater.
    + now apply wholeSeconds_commit.
Qed.

(** X17.  In every state the component can reach the per-phase duration is
    24, 60 or 120 s and the remaining time is a whole number of seconds: the
    tick, the reset and the clicks never leave a fraction of a second, so
    the quotient [remaining / 1000] the time display takes is exact and
    [timeStr] shows the remaining time itself. *)
Theorem remaining_is_whole_seconds s :
  reachable s ->
  In (phaseDurationMs (hooks s)) [24000; 60000; 120000] /\
  (remaining (hooks s)) mod 1000 = 0 /\
  (started (hooks s) = true ->
   1000 * (60 * TimeStr.min (remaining (hooks s)) + TimeStr.sec (remaining (hooks s)))
   = remaining (hooks s)).
Proof.
  intros R. destruct (wholeSeconds_reachable s R) as [D M].
  split; [exact D|]. split; [exact M|].
  intros Hs. destruct (Inv_reachable s R) as (_ & _ & I3 & _).
  destruct (I3 Hs) as [H0 _].
  rewrite min_div, sec_mod by exact H0.
  assert (E : remaining (hooks s) / 60000 = remaining (hooks s) / 1000 / 60).
  { change 60000 with (1000 * 60). rewrite Z.div_div by lia. reflexivity. }
  rewrite E.
  pose proof (Z.div_mod (remaining (hooks s) / 1000) 60 ltac:(lia)) as E1.
  pose proof (Z.div_mod (remaining (hooks s)) 1000 ltac:(lia)) as E2.
  rewrite M in E2. lia.
Qed.

Lemma remaining_is_whole_seconds_witness :
  exists s,
    session M2 35500 = Some s /\
    In (phaseDurationMs (hooks s)) [24000; 60000; 120000] /\
    (remaining (hooks s)) mod 1000 = 0 /\
    (started (hooks s) = true ->
     1000 * (60 * TimeStr.min (remaining (hooks s)) + TimeStr.sec (remaining (hooks s)))
     = remaining (hooks s)).
Proof.
  destruct run_M2_35500 as (s & E & R & Q & Eh & El).
  exists s. split; [exact E|]. exact (remaining_is_whole_seconds s R).
Defined.

(** ** The completion screen is silent *)

Lemma commit_completion_guarded (P Q : State -> Prop) s :
  (forall x, P x -> P (omEffectCleanup x)) ->
  (forall x, P x -> P (timerEffectCleanup x)) ->
  (forall x, P x -> Q (runIf (changedComplete s) (completionEffect (hooks s)) x)) ->
  (forall x, Q x -> Q (keepAmbienceEffect (hooks s) x)) ->
  (forall x, Q x -> Q (syncRefEffect (hooks s) x)) ->
  (changedIndex s || changedStarted s = true ->
   forall x, Q x -> Q (chimeEffect (hooks s) x)) ->
  (forall x, Q x -> Q (omEffect (hooks s) x)) ->
  (forall x, Q x -> Q (timerEffect (hooks s) x)) ->
  (forall x, Q x -> Q (resetRemainingEffect (hooks s) x)) ->
  (forall x, Q x -> Q (muteEffect (hooks s) x)) ->
  (forall x, Q x -> Q (upd_effects (set_deps (depsOf (hooks s))) x)) ->
  P s -> Q (commit s).
Proof.
  intros H1 H2 H3 H4 H5 H6 H7 H8 H9 H10 H11 H0.
  assert (R : forall (X : State -> Prop) b f x,
             (forall y, X y -> X (f y)) -> X x -> X (runIf b f x)).
  { intros X b f x Hf Hx. destruct b; cbn; auto. }
  unfold commit. cbv zeta.
  apply H11. apply R; [exact H10|]. apply R; [exact H9|]. apply R; [exact H8|].
  apply R; [exact H7|].
  assert (G : forall x, Q x ->
                Q (runIf (changedIndex s || changedStarted s) (chimeEffect (hooks s)) x)).
  { intros x Hx. destruct (changedIndex s || changedStarted s) eqn:E; cbn [runIf];
      [now apply H6|exact Hx]. }
  apply G. apply R; [exact H5|].
  apply R; [exact H4|]. apply H3. apply R; [exact H2|].
  apply R; [exact H1|]. exact H0.
Qed.

Lemma quietPair_ext s1 s2 :
  audioRef (refs s2) = audioRef (refs s1) ->
  chimeAudioRef (refs s2) = chimeAudioRef (refs s1) ->
  quietPair s1 -> quietPair s2.
Proof. unfold quietPair. now intros -> ->. Qed.

Lemma chi_stopAudio_ambience s :
  chimeAudioRef (refs (stopAudio Ambience audioRef set_audioRef s))
  = chimeAudioRef (refs s).
Proof. unfold stopAudio. now destruct (audioRef (refs s)). Qed.

Lemma chi_stopAudio_om s :
  chimeAudioRef (refs (stopAudio Om omAudioRef set_omAudioRef s))
  = chimeAudioRef (refs s).
Proof. unfold stopAudio. now destruct (omAudioRef (refs s)). Qed.

Lemma chi_stopAudio_chime s :
  chimeAudioRef (refs (stopAudio Chime chimeAudioRef set_chimeAudioRef s))
  = option_map stop (chimeAudioRef (refs s)).
Proof.
  unfold stopAudio. destruct (chimeAudioRef (refs s)) as [a|] eqn:E; cbn;
    [reflexivity|exact E].
Qed.

Lemma chi_omEffectCleanup s :
  chimeAudioRef (refs (omEffectCleanup s)) = chimeAudioRef (refs s).
Proof.
  unfold omEffectCleanup. destruct (omCleanup (effects s)) as [[sid oid]|];
    [|reflexivity].
  now rewrite chi_stopAudio_om.
Qed.

Lemma chi_runCallback c s :
  chimeAudioRef (refs (runCallback c s)) = chimeAudioRef (refs s).
Proof.
  destruct c as [| | | |k]; cbn [runCallback].
  - unfold tickUpdater. destruct (_ && _); [destruct (_ <? _)|]; reflexivity.
  - reflexivity.
  - reflexivity.
  - unfold fadeTimeoutCb. now destruct (omAudioRef (refs s)).
  - unfold fadeStepCb. destruct (omAudioRef (refs s)); [|reflexivity].
    now destruct (_ <=? _).
Qed.

Lemma quietPair_advanceClock t s : quietPair s -> quietPair (advanceClock t s).
Proof.
  unfold advanceClock. destruct (_ <=? _); [auto|].
  unfold quietPair. cbn.
  destruct (audioRef (refs s)), (chimeAudioRef (refs s)); cbn;
    rewrite ?paused_advanceAudio; tauto.
Qed.

Lemma quietPair_dispatch t s : quietPair s -> quietPair (dispatch t s).
Proof.
  intros H. unfold dispatch. cbv zeta.
  apply (quietPair_ext
           match period t with
           | Some _ => advanceClock (due t) s
           | None => upd_browser (clearTimer (Some (tid t))) (advanceClock (due t) s)
           end).
  - cbn [refs upd_browser]. apply amb_runCallback.
  - cbn [refs upd_browser]. apply chi_runCallback.
  - apply (quietPair_advanceClock (due t)) in H. now destruct (period t).
Qed.

(** The render of a completion leaves the ambience and the chime paused,
    and no later render of the completed run starts them. *)
Lemma doneQuiet_commit s : Inv s -> doneQuiet s -> doneQuiet (commit s).
Proof.
  intros (_ & I2 & _) H. unfold doneQuiet.
  destruct (commit_cells s) as (Kh & _ & _ & Kd). rewrite Kd, Kh.
  cbn [depsOf d_isComplete]. intros Hc Hc'.
  assert (Hs : started (hooks s) = true).
  { unfold isComplete in Hc. destruct (started (hooks s)); [reflexivity|discriminate]. }
  assert (Hf : changedIndex s || changedStarted s = false).
  { destruct (changedIndex s || changedStarted s || changedDuration s) eqn:E.
    - exfalso. rewrite Hs in Hc'. cbn [andb] in Hc'.
      unfold isComplete in Hc'. cbn in Hc'.
      assert (B : (phaseDurationMs (hooks s) =? 0) = false) by (apply Z.eqb_neq; lia).
      rewrite B, andb_false_r in Hc'. discriminate.
    - apply orb_false_elim in E. tauto. }
  apply (commit_completion_guarded
           (fun x => changedComplete s = false -> quietPair x) quietPair).
  - intros x Hx Hb. apply (quietPair_ext x);
      [apply amb_omEffectCleanup|apply chi_omEffectCleanup|now apply Hx].
  - intros x Hx. exact Hx.
  - intros x Hx. destruct (changedComplete s); cbn [runIf]; [|now apply Hx].
    unfold quietPair, completionEffect. rewrite Hc.
    rewrite amb_stopAudio_chime, amb_stopAudio_om, amb_stopAudio_ambience.
    rewrite chi_stopAudio_chime, chi_stopAudio_om, chi_stopAudio_ambience.
    destruct (audioRef (refs x)), (chimeAudioRef (refs x)); cbn; tauto.
  - intros x Hx. apply (quietPair_ext x); [|apply chi_keepAmbienceEffect|exact Hx].
    destruct (amb_keepAmbienceEffect (hooks s) x) as [E|(_ & E & _)];
      [exact E|congruence].
  - intros x Hx. exact Hx.
  - rewrite Hf. discriminate.
  - intros x Hx. apply (quietPair_ext x); [apply amb_omEffect| |exact Hx].
    now rewrite refs_omEffect.
  - intros x Hx. apply (quietPair_ext x); [apply amb_timerEffect| |exact Hx].
    unfold timerEffect. now destruct (negb _).
  - intros x Hx. apply (quietPair_ext x); [apply amb_resetRemainingEffect| |exact Hx].
    unfold resetRemainingEffect. now destruct (started _).
  - intros x Hx. unfold quietPair in *. rewrite amb_muteEffect, chi_muteEffect, Hc.
    cbn [negb]. rewrite andb_false_r.
    destruct (audioRef (refs x)); cbn in *; tauto.
  - intros x Hx. exact Hx.
  - intros Hb. apply H.
    + unfold changedComplete in Hb. apply eqb_false_negb in Hb. now rewrite Hb.
    + exact Hc.
Qed.

Lemma doneQuiet_reachable s : reachable s -> doneQuiet s.
Proof.
  induction 1 as [|s s' R IH St].
  - unfold doneQuiet. cbn. discriminate.
  - destruct St as [s t|s c Q E|s t Q Ht|s].
    + unfold doneQuiet. rewrite deps_advanceClock.
      rewrite (hooks_clockOf _ _ (clockOf_advanceClock t s)).
      intros H1 H2. apply quietPair_advanceClock. now apply IH.
    + unfold doneQuiet. intros _ Hc. exfalso.
      destruct c as [m| |]; cbn [handler enabled] in *.
      * unfold startWithMinutes, isComplete in Hc. cbn in Hc. discriminate.
      * assert (E1 : started (hooks (returnToStart s)) = false).
        { unfold returnToStart, stopAudio. cbn. now destruct (audioRef (refs s)). }
        unfold isComplete in Hc. rewrite E1 in Hc. discriminate.
      * unfold toggleAmbience, isComplete in *. cbn in Hc.
        destruct (started (hooks s)); [|discriminate]. cbn in E, Hc.
        apply negb_true_iff in E. congruence.
    + unfold doneQuiet. rewrite deps_dispatch. intros H1 H2.
      apply quietPair_dispatch. apply IH; [exact H1|].
      unfold quiescent in Q. rewrite Q in H1. exact H1.
    + apply doneQuiet_commit; [now apply Inv_reachable|exact IH].
Qed.

(** X18.  Whenever the component is at rest on the completion screen, all
    three audio elements are stopped, paused at position 0, however the run
    got there. *)
Theorem completion_screen_is_silent s :
  reachable s -> quiescent s -> isComplete (hooks s) = true -> allStopped s.
Proof.
  intros R Q Hc.
  assert (Hd : d_isComplete (deps (effects s)) = true) by (rewrite Q; exact Hc).
  destruct (doneQuiet_reachable s R Hd Hc) as [Pa Pc].
  destruct (allRewound_reachable s R) as (Wa & _ & Wc).
  pose proof (hum_stopped_at_rest s R Q) as Ho. rewrite Hc, orb_true_r in Ho.
  unfold allStopped, stopped, whenSome, rewound in *.
  split; [|split; [now apply Ho|]].
  - destruct (audioRef (refs s)); [|exact I]. split; auto.
  - destruct (chimeAudioRef (refs s)); [|exact I]. split; auto.
Qed.

(** The 2-minute run, run to its end. *)
Lemma completion_screen_is_silent_witness :
  exists s,
    session M2 120000 = Some s /\ isComplete (hooks s) = true /\ allStopped s.
Proof.
  destruct (session M2 120000) as [s|] eqn:E; [|vm_compute in E; discriminate].
  destruct (session_reachable _ _ _ E) as [R Q].
  assert (F : option_map (fun x => isComplete (hooks x)) (session M2 120000)
              = Some true)
    by (vm_compute; reflexivity).
  rewrite E in F. cbv beta iota delta [option_map] in F.
  destruct (isComplete (hooks s)) eqn:Hc; [clear F|discriminate F].
  exists s. split; [reflexivity|]. split; [exact Hc|].
  exact (completion_screen_is_silent s R Q Hc).
Defined.
